(** * MANTIS retrieval core: tokenizer, scorer, ranker, context assembler

    A shallow embedding of [src/main.py] (functions [tokenize_query],
    [weighted_keyword_search], [format_context]) and the properties the
    specification states about them; further, of [build_prompt] and the
    chat loop of [main], and of the ingestion of [src/ingest.py]
    ([clean_text], [detect_platform], [extract_pdf_pages],
    [ingest_manuals], the platform counts of its [main]), with properties
    read off the code.  Files, the PDF library and the network are not
    modelled: a folder is a finite map from file names to documents, a
    document a list of page texts, and a call of the server is what the
    loop sees of it, the value returned or the exception that escapes.

    Modelling conventions.
    - A Python [str] is a [string] of 8-bit characters; the development
      covers ASCII text.  [str.lower] maps [A-Z] to [a-z] and fixes
      every other character.
    - [re.findall] is modelled by one driver, [findall], which scans left
      to right, asks a matcher for the length of the match that starts at
      the current position, emits it and resumes behind it.  Each regular
      expression of the source has its own matcher that follows the
      backtracking order of the pattern.  No pattern of the source matches
      the empty string.
    - A Python [set] is a [gset string].
    - A chunk is a [dict] read through the keys [id], [text], [source],
      [page], [platform]; a key may be absent, hence every field is an
      [option].  [chunk["text"]] on an absent key raises [KeyError], which
      the model returns as an error value.
    - [list.sort(key=..., reverse=True)] is a stable sort; the result of a
      stable sort is determined by the input, so it is modelled by stable
      insertion. *)

From Stdlib Require Import ZArith Ascii String DecimalString DecimalPos DecimalZ.
From stdpp Require Import base tactics option list sorting gmap strings.

Local Open Scope Z_scope.

(** ** Characters and Python string primitives *)

Module Py.

Definition code (c : ascii) : N := N_of_ascii c.

Definition in_range (lo hi : N) (c : ascii) : bool :=
  ((lo <=? code c) && (code c <=? hi))%N.

(** [a-z] *)
Definition is_az : ascii → bool := in_range 97 122.
(** [A-Z] *)
Definition is_AZ : ascii → bool := in_range 65 90.
(** [\d] (on ASCII) *)
Definition is_digit : ascii → bool := in_range 48 57.
(** [[a-z0-9]] *)
Definition is_alnum_lc (c : ascii) : bool := is_az c || is_digit c.
(** [[\-_]] *)
Definition is_sep (c : ascii) : bool :=
  (code c =? 45)%N || (code c =? 95)%N.
(** [\w] on ASCII text: letters, digits and the underscore.  Python's
    [\w] and [\b] also know the word characters beyond ASCII; what is
    stated of file names is stated of ASCII names. *)
Definition is_word (c : ascii) : bool :=
  is_az c || is_AZ c || is_digit c || (code c =? 95)%N.
(** Whitespace as [str.split()] and [str.isspace] see it (on ASCII). *)
Definition is_space (c : ascii) : bool :=
  in_range 9 13 c || in_range 28 32 c.

Definition lower_char (c : ascii) : ascii :=
  if is_AZ c then ascii_of_N (code c + 32) else c.

(** [s.lower()] on ASCII text, where it maps [A-Z] to [a-z] and nothing
    else. *)
Fixpoint lower (s : string) : string :=
  match s with
  | EmptyString => EmptyString
  | String c s' => String (lower_char c) (lower s')
  end.

(** [len(s)] *)
Definition len (s : string) : nat := String.length s.

(** [s[:n]] for [0 <= n] *)
Fixpoint take_str (n : nat) (s : string) : string :=
  match n, s with
  | S k, String c s' => String c (take_str k s')
  | _, _ => EmptyString
  end.

(** [s[n:]] for [0 <= n] *)
Fixpoint drop_str (n : nat) (s : string) : string :=
  match n, s with
  | S k, String _ s' => drop_str k s'
  | _, _ => s
  end.

(** [s.startswith(p)] *)
Fixpoint startswith (p s : string) : bool :=
  match p, s with
  | EmptyString, _ => true
  | String a p', String b s' => bool_decide (a = b) && startswith p' s'
  | String _ _, EmptyString => false
  end.

(** [p in s] *)
Fixpoint contains (p s : string) : bool :=
  startswith p s ||
  match s with
  | EmptyString => false
  | String _ s' => contains p s'
  end.

(** [sep.join(l)] *)
Fixpoint join (sep : string) (l : list string) : string :=
  match l with
  | [] => ""
  | [x] => x
  | x :: l' => x +:+ sep +:+ join sep l'
  end.

(** [l[:k]] for a Python integer [k], negative values counting from the
    end. *)
Definition slice_to {A} (k : Z) (l : list A) : list A :=
  if 0 <=? k then take (Z.to_nat k) l
  else take (length l - Z.to_nat (- k))%nat l.

(** [str(n)] for an integer. *)
Definition str_of_Z (n : Z) : string := NilZero.string_of_int (Z.to_int n).

Definition head_char (s : string) : option ascii :=
  match s with
  | EmptyString => None
  | String c _ => Some c
  end.

Fixpoint last_char (dflt : option ascii) (s : string) : option ascii :=
  match s with
  | EmptyString => dflt
  | String c s' => last_char (Some c) s'
  end.

End Py.

(** ** Regular expressions of the source *)

Module Re.
Import Py.

(** A matcher receives the character before the current position (for
    [\b]) and the rest of the subject; it answers the length of the match
    the engine finds there. *)
Definition matcher := option ascii → string → option nat.

(** [re.finditer]: start offset and text of the successive matches.
    [skip] counts the characters of the last match still to be passed,
    [pos] is the offset of the head of [s] in the subject. *)
Fixpoint finditer_from (m : matcher) (skip : nat) (prev : option ascii)
    (pos : nat) (s : string) : list (nat * string) :=
  match s with
  | EmptyString => []
  | String c s' =>
      match skip with
      | S k => finditer_from m k (Some c) (S pos) s'
      | O =>
          match m prev s with
          | Some n => (pos, take_str n s)
                        :: finditer_from m (pred n) (Some c) (S pos) s'
          | None => finditer_from m 0 (Some c) (S pos) s'
          end
      end
  end.

Definition finditer (m : matcher) (s : string) : list (nat * string) :=
  finditer_from m 0 None 0 s.

(** [re.findall(pattern, s)] for a pattern without groups. *)
Definition findall (m : matcher) (s : string) : list string :=
  (finditer m s).*2.

(** Length of the longest prefix of [s] whose characters satisfy [p]. *)
Fixpoint run_length (p : ascii → bool) (s : string) : nat :=
  match s with
  | String c s' => if p c then S (run_length p s') else O
  | EmptyString => O
  end.

(** [[p]+] *)
Definition run (p : ascii → bool) : matcher := λ _ s,
  match run_length p s with
  | O => None
  | n => Some n
  end.

(** [\d{1,2}] *)
Definition digits12 (s : string) : option nat :=
  match s with
  | String d1 (String d2 _) =>
      if is_digit d1 then Some (if is_digit d2 then 2 else 1)%nat else None
  | String d1 EmptyString => if is_digit d1 then Some 1%nat else None
  | EmptyString => None
  end.

(** [[\-_]?\d{1,2}]: the separator is tried first, then given up. *)
Definition sep_digits (s : string) : option nat :=
  match s with
  | String c s' =>
      if is_sep c then
        match digits12 s' with
        | Some n => Some (S n)
        | None => digits12 s
        end
      else digits12 s
  | EmptyString => None
  end.

(** [[a-z]{1,2}[\-_]?\d{1,2}]: two letters are tried first, then one. *)
Definition platform_shape : matcher := λ _ s,
  match s with
  | String l1 s1 =>
      if is_az l1 then
        match
          match s1 with
          | String l2 s2 => if is_az l2 then sep_digits s2 else None
          | EmptyString => None
          end
        with
        | Some n => Some (2 + n)%nat
        | None => S <$> sep_digits s1
        end
      else None
  | EmptyString => None
  end.

(** [[a-z]+|\d+] *)
Definition letters_or_digits : matcher := λ prev s,
  match run is_az prev s with
  | Some n => Some n
  | None => run is_digit prev s
  end.

(** [[a-z0-9]+] *)
Definition alnum_run : matcher := run is_alnum_lc.

Definition word_opt (c : option ascii) : bool :=
  match c with
  | Some c => is_word c
  | None => false
  end.

(** [\b] between two neighbours, either of which may be the edge of the
    subject. *)
Definition boundary (before after : option ascii) : bool :=
  xorb (word_opt before) (word_opt after).

(** [r"\b" + re.escape(token) + r"\b"] *)
Definition whole_word (token : string) : matcher := λ prev s,
  if boundary prev (head_char s)
     && startswith token s
     && boundary (last_char prev token) (head_char (drop_str (len token) s))
  then Some (len token)
  else None.

End Re.

(** ** The tokenizer *)

Import Py Re.

Definition STOPWORD_LIST : list string := [
  "a"; "an"; "the"; "and"; "or"; "but"; "is"; "are"; "was"; "were"; "be";
  "been"; "being"; "have"; "has"; "had"; "do"; "does"; "did"; "will"; "would";
  "could"; "should"; "may"; "might"; "must"; "shall"; "can"; "to"; "of"; "in";
  "for"; "on"; "with"; "at"; "by"; "from"; "as"; "into"; "through"; "during";
  "before"; "after"; "above"; "below"; "between"; "under"; "again"; "further";
  "then"; "once"; "here"; "there"; "when"; "where"; "why"; "how"; "all"; "each";
  "few"; "more"; "most"; "other"; "some"; "such"; "no"; "nor"; "not"; "only";
  "own"; "same"; "so"; "than"; "too"; "very"; "just"; "about"; "what"; "which";
  "who"; "whom"; "this"; "that"; "these"; "those"; "am"; "i"; "me"; "my"; "we";
  "our"; "you"; "your"; "he"; "him"; "his"; "she"; "her"; "it"; "its"; "they";
  "them"; "their"; "if"; "up"; "out"; "off"; "over"; "any"
].

Definition STOPWORDS : gset string := list_to_set STOPWORD_LIST.

(** The loop that fills [platform_parts]. *)
Definition platform_parts_of (platform_tokens : list string) : gset string :=
  foldl (λ parts pt, parts ∪ list_to_set (findall letters_or_digits pt))
        ∅ platform_tokens.

(** One turn of the de-duplicating loop: state is [(seen, tokens)]. *)
Definition dedup_step (st : gset string * list string) (t : string)
    : gset string * list string :=
  if decide (t ∈ st.1) then st else ({[ t ]} ∪ st.1, st.2 ++ [t]).

Definition dedup (l : list string) : list string :=
  (foldl dedup_step (∅, []) l).2.

Definition keep_regular (platform_parts : gset string) (t : string) : Prop :=
  (t ∉ STOPWORDS) ∧ (1 < len t)%nat ∧ (t ∉ platform_parts).

#[global] Instance keep_regular_dec parts t : Decision (keep_regular parts t).
Proof. unfold keep_regular. apply _. Defined.

Definition tokenize_query (query : string) : list string :=
  let query_lower := lower query in
  let platform_tokens := findall platform_shape query_lower in
  let platform_parts := platform_parts_of platform_tokens in
  let regular_tokens := findall alnum_run query_lower in
  let regular_tokens := filter (keep_regular platform_parts) regular_tokens in
  dedup (platform_tokens ++ regular_tokens).

(** ** Chunks and errors *)

Record chunk := Chunk {
  c_id : option string;
  c_text : option string;
  c_source : option string;
  c_page : option Z;
  c_platform : option string
}.

#[global] Instance chunk_eq_dec : EqDecision chunk.
Proof. solve_decision. Defined.

Inductive exn := KeyError (key : string).

Inductive result (A : Type) :=
  | Ok (a : A)
  | Raise (e : exn).
Arguments Ok {A} a.
Arguments Raise {A} e.

#[global] Instance exn_eq_dec : EqDecision exn.
Proof. solve_decision. Defined.
#[global] Instance result_eq_dec `{EqDecision A} : EqDecision (result A).
Proof. solve_decision. Defined.

#[global] Instance result_bind : MBind result := λ A B k r,
  match r with
  | Ok a => k a
  | Raise e => Raise e
  end.

#[global] Instance result_ret : MRet result := λ A a, Ok a.

(** [chunk["text"]] *)
Definition get_text (c : chunk) : result string :=
  match c_text c with
  | Some t => Ok t
  | None => Raise (KeyError "text")
  end.

(** [chunk.get("platform", "UNKNOWN")] *)
Definition get_platform (c : chunk) : string := default "UNKNOWN" (c_platform c).

(** ** The scorer *)

Definition MIN_SCORE : Z := 3.
Definition PLATFORM_BONUS : Z := 10.
Definition PLATFORM_PENALTY : Z := 5.
Definition PHRASE_BONUS : Z := 5.

Definition PENALTY_FORMS : list string :=
  ["ah-1"; "rc-12"; "uh-1"; "oh-58"; "c-12"; "ch-47"; "uh-60"].

(** [len(re.findall(pattern, text_lower))] for the token's pattern. *)
Definition count_matches (token text_lower : string) : Z :=
  Z.of_nat (length (findall (whole_word token) text_lower)).

(** The loop over [query_tokens], started from [score]. *)
Definition keyword_loop (query_tokens : list string) (text_lower : string)
    (score : Z) : Z :=
  foldl (λ score token, score + count_matches token text_lower)
        score query_tokens.

(** The [for pt in [...]] loop with its [break]. *)
Fixpoint penalty_loop (forms : list string) (query_lower platform_lower : string)
    (score : Z) : Z :=
  match forms with
  | [] => score
  | pt :: forms' =>
      if contains pt query_lower && negb (contains pt platform_lower)
      then score - PLATFORM_PENALTY
      else penalty_loop forms' query_lower platform_lower score
  end.

(** The test of the first branch: the chunk's platform is named by the
    query. *)
Definition platform_named (query_lower platform : string) : bool :=
  bool_decide (platform ≠ "UNKNOWN") && contains (lower platform) query_lower.

Definition platform_step (query_lower platform : string) (score : Z) : Z :=
  if platform_named query_lower platform then score + PLATFORM_BONUS
  else if bool_decide (platform ≠ "UNKNOWN")
       then penalty_loop PENALTY_FORMS query_lower (lower platform) score
       else score.

Definition phrase_step (query_tokens : list string) (text_lower : string)
    (score : Z) : Z :=
  if (2 <=? length query_tokens)%nat then
    let phrase := join " " (take 3 query_tokens) in
    if contains phrase text_lower then score + PHRASE_BONUS else score
  else score.

(** The body of the loop over the knowledge base, from the lowercased
    text on. *)
Definition score_text (query_lower : string) (query_tokens : list string)
    (text_lower platform : string) : Z :=
  let score := 0 in
  let score := keyword_loop query_tokens text_lower score in
  let score := platform_step query_lower platform score in
  let score := phrase_step query_tokens text_lower score in
  score.

Definition score_chunk (query_lower : string) (query_tokens : list string)
    (c : chunk) : result Z :=
  text ← get_text c;
  mret (score_text query_lower query_tokens (lower text) (get_platform c)).

(** ** The ranker *)

(** The loop over [knowledge_base]; [scored] is [scored_chunks] so far. *)
Fixpoint score_loop (query_lower : string) (query_tokens : list string)
    (knowledge_base : list chunk) (scored : list (Z * chunk))
    : result (list (Z * chunk)) :=
  match knowledge_base with
  | [] => Ok scored
  | c :: kb' =>
      score ← score_chunk query_lower query_tokens c;
      score_loop query_lower query_tokens kb'
        (if bool_decide (MIN_SCORE ≤ score) then scored ++ [(score, c)]
         else scored)
  end.

(** Stable insertion for a descending order of the key: [x] goes before
    the first element whose key does not exceed its own. *)
Fixpoint insert_desc {A} (x : Z * A) (l : list (Z * A)) : list (Z * A) :=
  match l with
  | [] => [x]
  | y :: l' => if bool_decide (y.1 ≤ x.1) then x :: y :: l'
               else y :: insert_desc x l'
  end.

(** [l.sort(key=lambda x: x[0], reverse=True)] *)
Definition sort_desc {A} (l : list (Z * A)) : list (Z * A) :=
  foldr insert_desc [] l.

Definition weighted_keyword_search (query : string)
    (knowledge_base : list chunk) (top_k : Z) : result (list chunk) :=
  let query_lower := lower query in
  let query_tokens := tokenize_query query in
  match query_tokens with
  | [] => Ok []
  | _ =>
      scored_chunks ← score_loop query_lower query_tokens knowledge_base [];
      let scored_chunks := sort_desc scored_chunks in
      mret (slice_to top_k scored_chunks).*2
  end.

(** ** The context assembler *)

Definition NO_CONTEXT : string := "No relevant context found.".
Definition MAX_TEXT : nat := 800.
Definition newline : string := String (ascii_of_nat 10) "".

(** One entry of [context_parts]. *)
Definition context_part (i : nat) (c : chunk) : string :=
  let source := default "Unknown" (c_source c) in
  let page := match c_page c with
              | Some p => str_of_Z p
              | None => "?"
              end in
  let text := take_str MAX_TEXT (default "" (c_text c)) in
  "[Source " +:+ str_of_Z (Z.of_nat i) +:+ ": " +:+ source +:+ ", Page "
    +:+ page +:+ "]" +:+ newline +:+ text.

(** The loop over [enumerate(chunks, 1)], [i] being the next index. *)
Fixpoint context_parts (i : nat) (chunks : list chunk) : list string :=
  match chunks with
  | [] => []
  | c :: chunks' => context_part i c :: context_parts (S i) chunks'
  end.

Definition format_context (chunks : list chunk) : string :=
  match chunks with
  | [] => NO_CONTEXT
  | _ => join (newline +:+ newline) (context_parts 1 chunks)
  end.

(** ** The prompt and one turn of the chat loop *)

Definition SYSTEM_PROMPT : string :=
  "You are a military maintenance assistant." +:+ newline +:+
  "Answer ONLY using the Context below. Cite the source document." +:+ newline +:+
  "If the answer is NOT in the Context, say: " +:+ String (ascii_of_nat 34) ""
  +:+ "Not found in loaded manuals." +:+ String (ascii_of_nat 34) "" +:+ newline +:+
  "NEVER invent or guess procedures.".

Definition build_prompt (query context : string) : string :=
  "<|im_start|>system" +:+ newline +:+
  SYSTEM_PROMPT +:+ "<|im_end|>" +:+ newline +:+
  "<|im_start|>user" +:+ newline +:+
  "Context:" +:+ newline +:+
  context +:+ newline +:+ newline +:+
  "Question: " +:+ query +:+ newline +:+ newline +:+
  "Answer in English:<|im_end|>" +:+ newline +:+
  "<|im_start|>assistant" +:+ newline.

Definition TOP_K_CHUNKS : Z := 3.

(** [s.lstrip()], [s.rstrip()], [s.strip()] *)
Fixpoint lstrip (s : string) : string :=
  match s with
  | String c s' => if is_space c then lstrip s' else s
  | EmptyString => EmptyString
  end.

Fixpoint rstrip (s : string) : string :=
  match s with
  | EmptyString => EmptyString
  | String c s' =>
      match rstrip s' with
      | EmptyString => if is_space c then EmptyString else String c EmptyString
      | r => String c r
      end
  end.

Definition strip (s : string) : string := rstrip (lstrip s).

Definition upper_char (c : ascii) : ascii :=
  if is_az c then ascii_of_N (code c - 32) else c.

(** [s.upper()] *)
Fixpoint upper (s : string) : string :=
  match s with
  | EmptyString => EmptyString
  | String c s' => String (upper_char c) (upper s')
  end.

Definition UNSUPPORTED_PLATFORMS : list string := [
  "f-16"; "f-15"; "f-22"; "f-35"; "f-18"; "a-10"; "b-52"; "b-1"; "b-2";
  "747"; "737"; "777"; "787"; "a320"; "a380"; "c-130"; "c-17"; "c-5";
  "mig"; "su-"; "su 57"; "felon"; "tu-"; "nuclear"; "submarine"; "ship";
  "tank"; "m1 abrams"; "bradley"; "stryker"; "humvee"
].

(** What one turn of the loop in [main] decides for a line read from the
    user.  The texts it prints are fixed apart from the data carried
    here.  [Status] and [Generate] are the two turns that go on to call
    the server, [check_server_status()] and [query_kobold(prompt)]; the
    calls themselves, which can raise, are made by [perform] below. *)
Inductive turn :=
  | Ignored
  | Goodbye
  | Help
  | Status
  | Sources (lines : list string)
  | NoSources
  | Refused (platform : string)
  | NothingFound
  | Generate (prompt : string) (n_sources : nat).

(** The [for platform in unsupported_platforms] loop with its [break]. *)
Fixpoint first_unsupported (platforms : list string) (query_lower : string)
    : option string :=
  match platforms with
  | [] => None
  | platform :: rest =>
      if contains platform query_lower then Some platform
      else first_unsupported rest query_lower
  end.

(** [chunk['source']], [chunk['page']], [chunk['platform']] *)
Definition get_required {A} (key : string) (field : option A) : result A :=
  match field with
  | Some v => Ok v
  | None => Raise (KeyError key)
  end.

(** One line of the [/sources] listing. *)
Definition source_line (i : nat) (c : chunk) : result string :=
  source ← get_required "source" (c_source c);
  page ← get_required "page" (c_page c);
  platform ← get_required "platform" (c_platform c);
  mret ("  " +:+ str_of_Z (Z.of_nat i) +:+ ". " +:+ source +:+ " - Page "
        +:+ str_of_Z page +:+ " [" +:+ platform +:+ "]").

Fixpoint source_lines (i : nat) (chunks : list chunk) : result (list string) :=
  match chunks with
  | [] => Ok []
  | c :: chunks' =>
      line ← source_line i c;
      lines ← source_lines (S i) chunks';
      mret (line :: lines)
  end.

(** The body of the [while True] loop of [main]: from the knowledge
    base, [last_chunks] and the line read, the new [last_chunks] and what
    the turn does. *)
Definition chat_turn (knowledge_base last_chunks : list chunk) (line : string)
    : result (list chunk * turn) :=
  let user_input := strip line in
  if bool_decide (user_input = "") then Ok (last_chunks, Ignored)
  else if bool_decide (lower user_input = "/quit") then Ok (last_chunks, Goodbye)
  else if bool_decide (lower user_input = "/help") then Ok (last_chunks, Help)
  else if bool_decide (lower user_input = "/status")
       then Ok (last_chunks, Status)
  else if bool_decide (lower user_input = "/sources") then
    match last_chunks with
    | [] => Ok (last_chunks, NoSources)
    | _ => lines ← source_lines 1 last_chunks;
           mret (last_chunks, Sources lines)
    end
  else
    chunks ← weighted_keyword_search user_input knowledge_base TOP_K_CHUNKS;
    let last_chunks := chunks in
    let query_lower := lower user_input in
    match first_unsupported UNSUPPORTED_PLATFORMS query_lower with
    | Some platform => Ok (last_chunks, Refused (upper platform))
    | None =>
        match chunks with
        | [] => Ok (last_chunks, NothingFound)
        | _ =>
            let context := format_context chunks in
            let prompt := build_prompt user_input context in
            Ok (last_chunks, Generate prompt (length chunks))
        end
    end.

#[global] Instance turn_eq_dec : EqDecision turn.
Proof. solve_decision. Defined.

(** A call of [check_server_status] or [query_kobold] as the loop sees
    it: the function returns, or an exception that it does not catch
    leaves it.  Both catch the exceptions of the request; a reply whose
    JSON has another shape than they expect makes them raise
    ([AttributeError], [TypeError], ...), which they do not catch. *)
Inductive called (A : Type) :=
  | Returns (a : A)
  | Escapes (error : string).
Arguments Returns {_} _.
Arguments Escapes {_} _.

(** The server: what the call number [n] of the run does. *)
Record server := Server {
  check_server_status : nat → called bool;
  query_kobold : nat → string → called string
}.

(** How a run of [main] can end with an exception: one raised while the
    chunks are read, or one that left a call of the server. *)
Inductive failure :=
  | BaseError (e : exn)
  | ServerError (error : string).

Inductive outcome (A : Type) :=
  | Done (a : A)
  | Failed (f : failure).
Arguments Done {_} _.
Arguments Failed {_} _.

(** What a turn prints: the status of the server, the response of the
    generation with the number of sources, or the text of the turn. *)
Inductive printed :=
  | Said (t : turn)
  | ServerStatus (online : bool)
  | Response (response : string) (n_sources : nat).

(** The rest of a turn: the call of the server where the turn makes
    one.  [calls] counts the calls made so far. *)
Definition perform (srv : server) (calls : nat) (t : turn)
    : outcome (nat * printed) :=
  match t with
  | Status =>
      match check_server_status srv calls with
      | Returns online => Done (S calls, ServerStatus online)
      | Escapes error => Failed (ServerError error)
      end
  | Generate prompt n_sources =>
      match query_kobold srv calls prompt with
      | Returns response => Done (S calls, Response response n_sources)
      | Escapes error => Failed (ServerError error)
      end
  | _ => Done (calls, Said t)
  end.

(** The [while True] loop of [main] on the lines that [input] returns,
    one after the other; the end of the input ([EOFError]) ends the loop
    as [/quit] does.  The loop has no handler for other exceptions: one
    raised in a turn ends the run. *)
Fixpoint chat_loop (srv : server) (calls : nat)
    (knowledge_base last_chunks : list chunk) (lines : list string)
    : outcome (list printed) :=
  match lines with
  | [] => Done [Said Goodbye]
  | line :: lines' =>
      match chat_turn knowledge_base last_chunks line with
      | Raise e => Failed (BaseError e)
      | Ok (last_chunks, t) =>
          match t with
          | Goodbye => Done [Said Goodbye]
          | _ =>
              match perform srv calls t with
              | Failed f => Failed f
              | Done (calls, p) =>
                  match chat_loop srv calls knowledge_base last_chunks lines'
                  with
                  | Failed f => Failed f
                  | Done ps => Done (p :: ps)
                  end
              end
          end
      end
  end.

(** [main] behind the loading of the knowledge base: without chunks it
    returns at once ([None]); otherwise it asks for the status of the
    server, which is the first call, and runs the loop with no last
    chunks. *)
Definition chat_main (srv : server) (knowledge_base : list chunk)
    (lines : list string) : outcome (option (bool * list printed)) :=
  match knowledge_base with
  | [] => Done None
  | _ =>
      match check_server_status srv 0 with
      | Escapes error => Failed (ServerError error)
      | Returns online =>
          match chat_loop srv 1 knowledge_base [] lines with
          | Failed f => Failed f
          | Done ps => Done (Some (online, ps))
          end
      end
  end.

(** ** Ingestion ([src/ingest.py]) *)

(** Regular expressions without repetition, matched with backtracking:
    the continuation [k] is the rest of the pattern, so a later failure
    returns into the choices made earlier. *)
Module Rx.

Inductive re :=
  | Chr (p : ascii → bool)
  | Bnd
  | Eps
  | Seq (a b : re)
  | Alt (a b : re)
  | Opt (a : re).

Fixpoint rmatch (r : re) (prev : option ascii) (s : string)
    (k : option ascii → string → option nat) : option nat :=
  match r with
  | Chr p =>
      match s with
      | String c s' => if p c then S <$> k (Some c) s' else None
      | EmptyString => None
      end
  | Bnd => if boundary prev (head_char s) then k prev s else None
  | Eps => k prev s
  | Seq a b => rmatch a prev s (λ prev' s', rmatch b prev' s' k)
  | Alt a b =>
      match rmatch a prev s k with
      | Some n => Some n
      | None => rmatch b prev s k
      end
  | Opt a =>
      match rmatch a prev s k with
      | Some n => Some n
      | None => k prev s
      end
  end.

Definition compile (r : re) : matcher :=
  λ prev s, rmatch r prev s (λ _ _, Some 0%nat).

(** A character under [re.IGNORECASE]. *)
Definition ci (c : ascii) : ascii → bool :=
  λ x, bool_decide (lower_char x = lower_char c).

(** A literal word under [re.IGNORECASE]. *)
Fixpoint lit_ci (w : string) : re :=
  match w with
  | EmptyString => Eps
  | String c w' => Seq (Chr (ci c)) (lit_ci w')
  end.

(** [pattern.search(s)] for a pattern that matches no empty string. *)
Definition search (m : matcher) (s : string) : bool :=
  match finditer m s with
  | [] => false
  | _ :: _ => true
  end.

(** [re.sub(pattern, repl, s)] for a pattern that matches no empty
    string and a replacement without group references. *)
Fixpoint sub_from (m : matcher) (repl : string) (skip : nat)
    (prev : option ascii) (s : string) : string :=
  match s with
  | EmptyString => EmptyString
  | String c s' =>
      match skip with
      | S k => sub_from m repl k (Some c) s'
      | O =>
          match m prev s with
          | Some n => repl +:+ sub_from m repl (pred n) (Some c) s'
          | None => String c (sub_from m repl 0 (Some c) s')
          end
      end
  end.

Definition sub (m : matcher) (repl s : string) : string :=
  sub_from m repl 0 None s.

End Rx.

Module Ingest.
Import Rx.

(** [XX[\-_]?NN] *)
Definition ident (letters digits : string) : re :=
  Seq (lit_ci letters) (Seq (Opt (Chr is_sep)) (lit_ci digits)).

Definition PLATFORM_PATTERNS : list (string * re) := [
  ("AH-1", ident "AH" "1");
  ("RC-12", ident "RC" "12");
  ("RD-12", ident "RD" "12");
  ("C-12", Seq Bnd (ident "C" "12"));
  ("UH-1", ident "UH" "1");
  ("EH-1", ident "EH" "1");
  ("OH-58", ident "OH" "58");
  ("UH-60", ident "UH" "60");
  ("CH-47", ident "CH" "47");
  ("M1", Seq Bnd (Seq (lit_ci "M1") Bnd));
  ("M2", Seq Bnd (Seq (lit_ci "M2") Bnd));
  ("HMMWV", Alt (lit_ci "HMMWV") (lit_ci "HUMVEE"))
].

Definition clean_text (text : string) : string :=
  let text := sub (run is_space) " " text in
  strip text.

(** The loop of [detect_platform] over the patterns in their order. *)
Fixpoint detect_loop (patterns : list (string * re)) (filename : string)
    : string :=
  match patterns with
  | [] => "UNKNOWN"
  | (platform, pattern) :: rest =>
      if search (compile pattern) filename then platform
      else detect_loop rest filename
  end.

Definition detect_platform (filename : string) : string :=
  detect_loop PLATFORM_PATTERNS filename.

(** A PDF as the extraction sees it: [None] when it cannot be opened;
    otherwise its pages, a page being [None] when loading it or reading
    its text raises. *)
Definition pdf := option (list (option string)).

(** The loop over the pages; an exception ends it and the pages
    collected so far are returned. *)
Fixpoint extract_loop (page_num : nat) (doc : list (option string))
    (pages : list (Z * string)) : list (Z * string) :=
  match doc with
  | [] => pages
  | None :: _ => pages
  | Some text :: doc' =>
      let cleaned := clean_text text in
      extract_loop (S page_num) doc'
        (if bool_decide (cleaned ≠ "")
         then pages ++ [(Z.of_nat page_num + 1, cleaned)]
         else pages)
  end.

Definition extract_pdf_pages (doc : pdf) : list (Z * string) :=
  match doc with
  | None => []
  | Some doc => extract_loop 0 doc []
  end.

(** [s.endswith(suffix)] *)
Definition endswith (s suffix : string) : bool :=
  bool_decide (len suffix ≤ len s)%nat
  && bool_decide (drop_str (len s - len suffix) s = suffix).

(** The loop over the pages of one file: [(chunk_id, knowledge_base)]. *)
Fixpoint pages_loop (pages : list (Z * string)) (pdf_file platform : string)
    (chunk_id : Z) (knowledge_base : list chunk) : Z * list chunk :=
  match pages with
  | [] => (chunk_id, knowledge_base)
  | (page_num, text) :: pages' =>
      let chunk_id := chunk_id + 1 in
      let chunk := {|
        c_id := Some ("doc" +:+ str_of_Z chunk_id +:+ "_p"
                      +:+ str_of_Z page_num);
        c_text := Some text;
        c_source := Some pdf_file;
        c_page := Some page_num;
        c_platform := Some platform
      |} in
      pages_loop pages' pdf_file platform chunk_id (knowledge_base ++ [chunk])
  end.

(** The loop over the sorted PDF files. *)
Fixpoint files_loop (files : list string) (folder : gmap string pdf)
    (chunk_id : Z) (knowledge_base : list chunk) : list chunk :=
  match files with
  | [] => knowledge_base
  | pdf_file :: files' =>
      let platform := detect_platform pdf_file in
      let pages := extract_pdf_pages (default None (folder !! pdf_file)) in
      let '(chunk_id, knowledge_base) :=
        pages_loop pages pdf_file platform chunk_id knowledge_base in
      files_loop files' folder chunk_id knowledge_base
  end.

(** The folder is [None] when the path is no directory, otherwise the
    files it holds.  [os.listdir] gives the names in an arbitrary order;
    [sorted] puts them in the order of the strings. *)
Definition ingest_manuals (folder : option (gmap string pdf)) : list chunk :=
  match folder with
  | None => []
  | Some folder =>
      let listing := elements (dom folder) in
      let pdf_files := filter (λ f, endswith (lower f) ".pdf" = true) listing in
      files_loop (merge_sort String.le pdf_files) folder 0 []
  end.

(** The counting loop of [main]: [platforms[p] = platforms.get(p, 0) + 1]
    with [p = chunk["platform"]]. *)
Fixpoint count_platforms (knowledge_base : list chunk)
    (platforms : gmap string nat) : result (gmap string nat) :=
  match knowledge_base with
  | [] => Ok platforms
  | chunk :: kb' =>
      p ← get_required "platform" (c_platform chunk);
      count_platforms kb' (<[p := (default 0 (platforms !! p) + 1)%nat]> platforms)
  end.

End Ingest.

(** ** Vocabulary of the properties *)

(** The three parts of a score: keyword matches, platform adjustment,
    phrase bonus. *)
Definition keyword_total (query_tokens : list string) (text_lower : string)
    : Z :=
  keyword_loop query_tokens text_lower 0.

Definition platform_delta (query_lower platform : string) : Z :=
  platform_step query_lower platform 0.

Definition phrase_delta (query_tokens : list string) (text_lower : string)
    : Z :=
  phrase_step query_tokens text_lower 0.

(** Descending order of the key. *)
Definition key_ge {A} : relation (Z * A) := λ x y, y.1 ≤ x.1.

(** The score of a chunk whose text is present. *)
Definition score_of (query_lower : string) (query_tokens : list string)
    (c : chunk) : Z :=
  score_text query_lower query_tokens
    (lower (default "" (c_text c))) (get_platform c).

Definition has_text (c : chunk) : Prop := is_Some (c_text c).

(** The candidates the loop retains, in corpus order. *)
Definition retained (query_lower : string) (query_tokens : list string)
    (kb : list chunk) : list (Z * chunk) :=
  filter (λ p, MIN_SCORE ≤ p.1)
         ((λ c, (score_of query_lower query_tokens c, c)) <$> kb).

(** The ranked candidates before the scores are dropped. *)
Definition ranked (query_lower : string) (query_tokens : list string)
    (kb : list chunk) (top_k : Z) : list (Z * chunk) :=
  slice_to top_k (sort_desc (retained query_lower query_tokens kb)).

(** A chunk with another text. *)
Definition with_text (c : chunk) (text : string) : chunk :=
  Chunk (c_id c) (Some text) (c_source c) (c_page c) (c_platform c).

(** Every character of [s] satisfies [p]. *)
Fixpoint all_chars (p : ascii → bool) (s : string) : bool :=
  match s with
  | EmptyString => true
  | String c s' => p c && all_chars p s'
  end.

Definition not_space (c : ascii) : bool := negb (is_space c).

(** [query.split()]: the maximal runs of characters that are not
    whitespace. *)
Definition words (query : string) : list string :=
  findall (run not_space) query.

(** The query consists solely of stopwords, in any letter case. *)
Definition stopword_only (query : string) : Prop :=
  Forall (λ w, lower w ∈ STOPWORDS) (words query).

#[global] Instance stopword_only_dec query : Decision (stopword_only query).
Proof. unfold stopword_only. apply _. Defined.

Definition is_letter (c : ascii) : bool := is_az c || is_AZ c.

Definition space : ascii := ascii_of_N 32.

(** The alphabet of query tokens: [[a-z0-9_-]]. *)
Definition is_token_char (c : ascii) : bool :=
  is_az c || is_digit c || is_sep c.

(** A token starts and ends with a word character and is written in the
    token alphabet. *)
Definition token_shape (t : string) : bool :=
  word_opt (head_char t) && word_opt (last_char None t)
  && all_chars is_token_char t.

(** The part of a platform token behind its letters: written in the token
    alphabet, ending in a word character. *)
Definition tail_ok (t : string) : Prop :=
  all_chars is_token_char t = true ∧ ∀ d, word_opt (last_char d t) = true.

(** A first or last character that is a lowercase letter or a digit. *)
Definition alnum_opt (c : option ascii) : bool :=
  match c with
  | Some c => is_alnum_lc c
  | None => false
  end.

(** ASCII text. *)
Definition is_ascii (c : ascii) : bool := (code c <? 128)%N.

(** The platform identifiers that a query names, as the tokenizer
    extracts them. *)
Definition query_platforms (query : string) : list string :=
  findall platform_shape (lower query).

(** The reading of "the chunk's platform tag matches the query's
    platform" by the words: the tag is, up to letter case, an identifier
    that the query names. *)
Definition on_platform (query : string) (c : chunk) : Prop :=
  lower (get_platform c) ∈ query_platforms query.

(** "Off-platform" by the words: the chunk is tagged with a platform, and
    the query names platforms but not this one. *)
Definition off_platform (query : string) (c : chunk) : Prop :=
  get_platform c ≠ "UNKNOWN" ∧ query_platforms query ≠ []
  ∧ lower (get_platform c) ∉ query_platforms query.

(** Some call of the server lets the exception [error] escape. *)
Definition escaped (srv : server) (error : string) : Prop :=
  ∃ n, check_server_status srv n = Escapes error
       ∨ ∃ prompt, query_kobold srv n prompt = Escapes error.

(** A run that ends with the farewell and says it once. *)
Definition ends_with_farewell (ps : list printed) : Prop :=
  ∃ ps', ps = ps' ++ [Said Goodbye] ∧ Said Goodbye ∉ ps'.

(** [re.sub(r"\s+", " ", s)], the first step of [clean_text]. *)
Definition squeeze (s : string) : string := Rx.sub (run is_space) " " s.

(** The text behind the optional leading blank of the squeezed text. *)
Definition lead (s : string) : string :=
  match s, words s with
  | String c _, _ :: _ => if is_space c then " " else ""
  | _, _ => ""
  end.

(** The classes of a pattern do not look at the letter case. *)
Inductive ci_ok : Rx.re → Prop :=
  | ci_chr p : (∀ c, p (lower_char c) = p c) → ci_ok (Rx.Chr p)
  | ci_bnd : ci_ok Rx.Bnd
  | ci_eps : ci_ok Rx.Eps
  | ci_seq a b : ci_ok a → ci_ok b → ci_ok (Rx.Seq a b)
  | ci_alt a b : ci_ok a → ci_ok b → ci_ok (Rx.Alt a b)
  | ci_opt a : ci_ok a → ci_ok (Rx.Opt a).

(** A chunk as the ingestion writes it: all five fields present. *)
Definition chunk_complete (c : chunk) : Prop :=
  is_Some (c_id c) ∧ is_Some (c_text c) ∧ is_Some (c_source c)
  ∧ is_Some (c_page c) ∧ is_Some (c_platform c).

(** The id that the ingestion gives to its [n]-th chunk. *)
Definition chunk_id_of (n page : Z) : string :=
  "doc" +:+ str_of_Z n +:+ "_p" +:+ str_of_Z page.

(** The commands of the chat loop. *)
Definition COMMANDS : list string := ["/quit"; "/help"; "/status"; "/sources"].

(** What the ingestion of one page writes: the chunk with number [n] of
    the page [e.2] of the file [e.1]. *)
Definition chunk_of (n : Z) (e : string * (Z * string)) : chunk :=
  {| c_id := Some (chunk_id_of n e.2.1);
     c_text := Some e.2.2;
     c_source := Some e.1;
     c_page := Some e.2.1;
     c_platform := Some (Ingest.detect_platform e.1) |}.

(** The PDF files of a folder in the order of the ingestion. *)
Definition pdf_files (folder : gmap string Ingest.pdf) : list string :=
  merge_sort String.le
    (filter (λ f, Ingest.endswith (lower f) ".pdf" = true)
            (elements (dom folder))).

(** The extracted pages of a file of the folder. *)
Definition pages_of (folder : gmap string Ingest.pdf) (f : string)
    : list (Z * string) :=
  Ingest.extract_pdf_pages (default None (folder !! f)).

(** The pages of the given files, file by file. *)
Definition entries (folder : gmap string Ingest.pdf) (files : list string)
    : list (string * (Z * string)) :=
  files ≫= λ f, (λ pt, (f, pt)) <$> pages_of folder f.

(** Page [page] of the document is read without an error, as are the
    pages before it, and its cleaned text [text] is not empty. *)
Definition extracted (doc : list (option string)) (page : Z) (text : string)
    : Prop :=
  ∃ (i : nat) raw,
    page = Z.of_nat i + 1 ∧ doc !! i = Some (Some raw)
    ∧ text = Ingest.clean_text raw ∧ text ≠ ""
    ∧ ∀ j, (j < i)%nat → doc !! j ≠ Some None.

(** The characters of a decimal numeral. *)
Definition is_decimal_char (c : ascii) : bool :=
  is_digit c || bool_decide (c = "-"%char).

(** The order of the pages of an ingestion: by file name, then by page. *)
Definition entry_lt (a b : string * (Z * string)) : Prop :=
  (String.le a.1 b.1 ∧ a.1 ≠ b.1) ∨ (a.1 = b.1 ∧ a.2.1 < b.2.1).

(** The same order on chunks that carry a source and a page. *)
Definition chunk_before (c c' : chunk) : Prop :=
  ∃ f p f' p',
    c_source c = Some f ∧ c_page c = Some p
    ∧ c_source c' = Some f' ∧ c_page c' = Some p'
    ∧ ((String.le f f' ∧ f ≠ f') ∨ (f = f' ∧ p < p')).

(** A folder with two manuals and a file that is no PDF. *)
Definition sample_folder : gmap string Ingest.pdf :=
  {[ "TM 1-1520-236-10 AH-1F.pdf" := Some [Some "  Engine   oil "; Some "   ";
                                            Some "Rotor brake."];
     "rc12 notes.PDF" := Some [Some "Fuel system."; None; Some "Not read."];
     "readme.txt" := Some [Some "Not a manual."];
     "broken.pdf" := None ]}.

#[global] Instance chunk_complete_dec c : Decision (chunk_complete c).
Proof. unfold chunk_complete. apply _. Defined.

(** The number of chunks with the platform [p]. *)
Definition platform_count (p : string) (kb : list chunk) : nat :=
  length (filter (λ c, c_platform c = Some p) kb).

(** What a turn does with a query: the answer for the chunks found. *)
Definition answer (user_input : string) (chunks : list chunk) : turn :=
  match first_unsupported UNSUPPORTED_PLATFORMS (lower user_input) with
  | Some platform => Refused (upper platform)
  | None =>
      match chunks with
      | [] => NothingFound
      | _ => Generate (build_prompt user_input (format_context chunks))
                      (length chunks)
      end
  end.

(** Sample chunks. *)

Module Samples.

Definition oil1 : chunk :=
  Chunk (Some "doc1_p1") (Some "Read the oil pressure gauge.")
        (Some "a.pdf") (Some 1) (Some "UNKNOWN").
Definition oil2 : chunk :=
  Chunk (Some "doc2_p1") (Some "Oil pressure limits are listed below.")
        (Some "b.pdf") (Some 2) (Some "UNKNOWN").
Definition oil3 : chunk :=
  Chunk (Some "doc3_p1") (Some "Low oil pressure: oil pressure warning light.")
        (Some "c.pdf") (Some 3) (Some "UNKNOWN").
Definition blank_ah1 : chunk :=
  Chunk (Some "doc4_p1") (Some "") (Some "d.pdf") (Some 4) (Some "AH-1").
Definition blank_uh1 : chunk :=
  Chunk (Some "doc5_p1") (Some "") (Some "e.pdf") (Some 5) (Some "UH-1").
Definition no_text : chunk :=
  Chunk (Some "doc6_p1") None (Some "f.pdf") (Some 6) (Some "AH-1").
Definition rc12_fuel : chunk :=
  Chunk (Some "doc7_p1") (Some "Fuel capacity of the RC-12 is 260 gallons.")
        (Some "g.pdf") (Some 7) (Some "RC-12").
Definition oh58_fuel : chunk :=
  Chunk (Some "doc8_p1") (Some "RC-12 fuel capacity compared.")
        (Some "h.pdf") (Some 8) (Some "OH-58").

Definition rc12_plain : chunk :=
  Chunk (Some "doc1_p1") (Some "Fuel for the RC-12.") (Some "a.pdf")
        (Some 1) (Some "RC-12").
Definition c12_phrase : chunk :=
  Chunk (Some "doc2_p1") (Some "RC-12 fuel.") (Some "b.pdf")
        (Some 1) (Some "C-12").

(** A server that answers, except that its second call raises. *)
Definition flaky_server : server :=
  {| check_server_status := λ _, Returns true;
     query_kobold := λ n _, if (n =? 1)%nat then Escapes "AttributeError"
                            else Returns "See the manual." |}.

End Samples.

(** The knowledge base of the repository's integration tests. *)

Module Tests.

Definition mk (id text source : string) (page : Z) (platform : string) : chunk :=
  Chunk (Some id) (Some text) (Some source) (Some page) (Some platform).

Definition test_kb : list chunk := [
  mk "doc1_p1" "The AH-1F helicopter engine oil pressure should be maintained between 30 and 40 psi during normal operation. Low oil pressure indicates potential engine damage."
     "AH-1F ATTACK HELICOPTER TECHNICAL OPERATOR MANUAL.pdf" 31 "AH-1";
  mk "doc2_p1" "RC-12 fuel system capacity is 260 US gallons. The fuel boost pumps are located in both forward and aft fuel cells."
     "RC-12D MAINTENANCE TEST FLIGHT MANUAL.pdf" 15 "RC-12";
  mk "doc3_p1" "OH-58 main rotor blade inspection procedure: Check for cracks, corrosion, and damage to the leading edge."
     "OH-58AC TECHNICAL MANUAL.pdf" 45 "OH-58";
  mk "doc4_p1" "C-12 aircraft hydraulic system operates at 3000 psi. Both system 1 and system 2 reservoirs should be checked daily."
     "C-12C AIRCRAFT MAINTENANCE.pdf" 22 "C-12";
  mk "doc5_p1" "UH-1 transmission oil temperature should not exceed 110 degrees Celsius. High temperature indicates cooling system issues."
     "UH-1 HELICOPTER MAINTENANCE.pdf" 33 "UH-1"
].

(** The knowledge base of the unit tests of the search. *)
Definition sample_kb : list chunk := [
  mk "doc1_p1" "The engine oil pressure should be maintained at 30 psi minimum."
     "AH-1F MANUAL.pdf" 1 "AH-1";
  mk "doc2_p1" "Fuel system servicing procedures for the RC-12 aircraft."
     "RC-12 MANUAL.pdf" 1 "RC-12";
  mk "doc3_p1" "Hydraulic fluid specifications and maintenance guidelines."
     "UH-1 MANUAL.pdf" 1 "UH-1";
  mk "doc4_p1" "Engine oil temperature and pressure monitoring systems."
     "AH-1F MANUAL.pdf" 2 "AH-1"
].

(** The identifiers of a search result, [None] for an exception. *)
Definition ids (r : result (list chunk)) : option (list (option string)) :=
  match r with
  | Ok l => Some (c_id <$> l)
  | Raise _ => None
  end.

End Tests.

(** ** Checks against the repository's tests *)

Example test_platform_extraction :
  tokenize_query "AH-1 rotor blade" = ["ah-1"; "rotor"; "blade"].
Proof. vm_compute. reflexivity. Qed.

Example test_platform_with_underscore :
  tokenize_query "RC_12 fuel system" = ["rc_12"; "fuel"; "system"].
Proof. vm_compute. reflexivity. Qed.

Example test_only_stopwords : tokenize_query "what is the" = [].
Proof. vm_compute. reflexivity. Qed.

Example test_special_characters :
  tokenize_query "what's the oil-pressure?" = ["oil"; "pressure"].
Proof. vm_compute. reflexivity. Qed.

Example test_full_rag_pipeline :
  Tests.ids (weighted_keyword_search "What is the AH-1 oil pressure?"
               Tests.test_kb 3)
  = Some [Some "doc1_p1"].
Proof. vm_compute. reflexivity. Qed.

Example test_platform_specific_query :
  Tests.ids (weighted_keyword_search "RC-12 fuel capacity" Tests.test_kb 2)
  = Some [Some "doc2_p1"; Some "doc4_p1"].
Proof. vm_compute. reflexivity. Qed.

Example test_platform_boost :
  Tests.ids (weighted_keyword_search "AH-1 engine" Tests.sample_kb 3)
  = Some [Some "doc1_p1"; Some "doc4_p1"].
Proof. vm_compute. reflexivity. Qed.

Example test_top_k_limit :
  Tests.ids (weighted_keyword_search "engine oil pressure fuel"
               Tests.sample_kb 2)
  = Some [Some "doc1_p1"; Some "doc4_p1"].
Proof. vm_compute. reflexivity. Qed.

Example test_no_matches :
  weighted_keyword_search "xyz123 nonexistent" Tests.sample_kb 3 = Ok [].
Proof. vm_compute. reflexivity. Qed.

Example test_empty_knowledge_base :
  weighted_keyword_search "engine oil" [] 3 = Ok [].
Proof. vm_compute. reflexivity. Qed.

Example test_missing_fields :
  format_context [Chunk None (Some "Content only") None None None]
  = "[Source 1: Unknown, Page ?]" +:+ newline +:+ "Content only".
Proof. vm_compute. reflexivity. Qed.

Example test_backtracking :
  tokenize_query "abc-12 x1y" = ["bc-12"; "x1"; "abc"; "x1y"].
Proof. vm_compute. reflexivity. Qed.

(** ** Strings: basic facts *)

Section string_facts.

Lemma app_nil_str s : "" +:+ s = s.
Proof. reflexivity. Qed.

Lemma app_cons_str c s r : String c s +:+ r = String c (s +:+ r).
Proof. reflexivity. Qed.

Lemma len_take_str n s : len (take_str n s) = (n `min` len s)%nat.
Proof.
unfold len. revert s; induction n as [|n IH]; intros [|c s]; simpl; auto.
Qed.

Lemma startswith_take_str n s : startswith (take_str n s) s = true.
Proof.
revert s; induction n as [|n IH]; intros [|c s]; simpl; auto.
rewrite bool_decide_eq_true_2 by done. apply IH.
Qed.

Lemma take_str_all n s : (len s ≤ n)%nat → take_str n s = s.
Proof.
revert s; induction n as [|n IH]; intros [|c s]; unfold len; simpl;
  intros; auto; try lia.
f_equal. apply IH. unfold len; lia.
Qed.

Lemma startswith_contains p s : startswith p s = true → contains p s = true.
Proof. intros H. destruct s; simpl in *; rewrite H; done. Qed.

Lemma contains_cons p c s : contains p s = true → contains p (String c s) = true.
Proof. intros H. simpl. rewrite H. apply orb_true_r. Qed.

(** Dropping the first character of a needle keeps it a substring. *)
Lemma contains_tail c p s :
contains (String c p) s = true → contains p s = true.
Proof.
induction s as [|d s IH]; simpl.
- done.
- intros [H|H]%orb_true_iff.
  + apply andb_true_iff in H as [_ H].
    apply contains_cons, startswith_contains, H.
  + apply contains_cons, IH, H.
Qed.

Lemma startswith_app p s r :
startswith p s = true → startswith p (s +:+ r) = true.
Proof.
revert s; induction p as [|a p IH]; intros [|b s]; simpl; try done.
intros [-> H]%andb_true_iff. simpl. by apply IH.
Qed.

Lemma contains_app p s r : contains p s = true → contains p (s +:+ r) = true.
Proof.
induction s as [|c s IH].
- simpl. rewrite orb_false_r. destruct p; [|done].
  intros _. by destruct r.
- cbn [contains]. intros [H|H]%orb_true_iff.
  + apply startswith_contains. by apply (startswith_app _ (String c s)).
  + cbn [String.append]. apply contains_cons. by apply IH.
Qed.

Lemma startswith_len p s : startswith p s = true → (len p ≤ len s)%nat.
Proof.
revert s; induction p as [|a p IH]; intros [|b s]; unfold len in *;
  simpl; try done; try lia.
intros [_ H]%andb_true_iff. apply IH in H. lia.
Qed.

Lemma len_app s r : len (s +:+ r) = (len s + len r)%nat.
Proof. unfold len. induction s; simpl; auto. Qed.

Lemma lower_app s r : lower (s +:+ r) = lower s +:+ lower r.
Proof.
induction s as [|c s IH]; [done|].
rewrite app_cons_str. simpl. by rewrite IH.
Qed.

End string_facts.

(** ** The score as a sum of three independent parts *)

Section score_parts.
Context (query_lower : string) (query_tokens : list string).

Lemma keyword_loop_shift toks tl s :
  keyword_loop toks tl s = s + keyword_loop toks tl 0.
Proof.
  unfold keyword_loop. revert s.
  induction toks as [|t toks IH]; intros s; simpl; [lia|].
  rewrite (IH (s + _)), (IH (0 + _)). lia.
Qed.

Lemma penalty_loop_shift forms pl s :
  penalty_loop forms query_lower pl s
  = s + penalty_loop forms query_lower pl 0.
Proof.
  induction forms as [|pt forms IH]; simpl; [lia|].
  destruct (_ && _); [lia|done].
Qed.

Lemma platform_step_shift platform s :
  platform_step query_lower platform s = s + platform_delta query_lower platform.
Proof.
  unfold platform_delta, platform_step.
  destruct (platform_named _ _); [done|].
  destruct (bool_decide _); [|lia].
  apply penalty_loop_shift.
Qed.

Lemma phrase_step_shift tl s :
  phrase_step query_tokens tl s = s + phrase_delta query_tokens tl.
Proof.
  unfold phrase_delta, phrase_step.
  destruct (_ <=? _)%nat; [|lia]. simpl. destruct (contains _ _); lia.
Qed.

Lemma score_text_parts tl platform :
  score_text query_lower query_tokens tl platform
  = keyword_total query_tokens tl + platform_delta query_lower platform + phrase_delta query_tokens tl.
Proof.
  unfold score_text. cbv zeta.
  by rewrite phrase_step_shift, platform_step_shift.
Qed.

Lemma keyword_total_nonneg tl : 0 ≤ keyword_total query_tokens tl.
Proof.
  unfold keyword_total, keyword_loop.
  assert (∀ toks s, 0 ≤ s →
    0 ≤ foldl (λ score token, score + count_matches token tl) s toks) as H.
  { induction toks as [|t toks IH]; intros s Hs; simpl; [done|].
    apply IH. unfold count_matches. lia. }
  by apply H.
Qed.

Lemma phrase_delta_range tl : 0 ≤ phrase_delta query_tokens tl ≤ 5.
Proof.
  unfold phrase_delta, phrase_step, PHRASE_BONUS.
  destruct (_ <=? _)%nat; [|lia]. simpl. destruct (contains _ _); lia.
Qed.

Lemma penalty_loop_range forms pl :
  -5 ≤ penalty_loop forms query_lower pl 0 ≤ 0.
Proof.
  unfold PLATFORM_PENALTY.
  induction forms as [|pt forms IH]; simpl; [lia|].
  destruct (_ && _); [unfold PLATFORM_PENALTY|]; lia.
Qed.

Lemma platform_delta_named platform :
  platform_named query_lower platform = true → platform_delta query_lower platform = 10.
Proof. unfold platform_delta, platform_step. by intros ->. Qed.

Lemma platform_delta_not_named platform :
  platform_named query_lower platform = false →
  -5 ≤ platform_delta query_lower platform ≤ 0.
Proof.
  unfold platform_delta, platform_step. intros ->.
  destruct (bool_decide _); [apply penalty_loop_range|lia].
Qed.

Lemma platform_delta_unknown : platform_delta query_lower "UNKNOWN" = 0.
Proof. reflexivity. Qed.

Lemma platform_delta_tagged platform :
  platform ≠ "UNKNOWN" →
  platform_delta query_lower platform
  = if contains (lower platform) query_lower then 10
    else penalty_loop PENALTY_FORMS query_lower (lower platform) 0.
Proof.
  intros Hp. unfold platform_delta, platform_step, platform_named.
  rewrite bool_decide_eq_true_2 by done.
  rewrite andb_true_l. by destruct (contains _ _).
Qed.

(** The penalty loop subtracts once as soon as one form is named by
    the query and foreign to the tag, and never otherwise. *)
Lemma penalty_loop_hit forms pl :
  (∃ pt, pt ∈ forms ∧ contains pt query_lower = true
         ∧ contains pt pl = false) →
  penalty_loop forms query_lower pl 0 = -5.
Proof.
  induction forms as [|f forms IH]; intros (pt & Hin & Hq & Hp).
  - by apply elem_of_nil in Hin.
  - simpl. destruct (contains f query_lower && negb (contains f pl)) eqn:E;
      [done|].
    apply IH. exists pt. split_and!; try done.
    apply elem_of_cons in Hin as [->|]; [|done].
    rewrite Hq, Hp in E. done.
Qed.

Lemma penalty_loop_miss forms pl :
  (∀ pt, pt ∈ forms → contains pt query_lower = true →
         contains pt pl = true) →
  penalty_loop forms query_lower pl 0 = 0.
Proof.
  induction forms as [|f forms IH]; intros H; simpl; [done|].
  destruct (contains f query_lower) eqn:E; simpl.
  - rewrite (H f) by (done || left). simpl. apply IH.
    intros pt ?. apply H. by right.
  - apply IH. intros pt ?. apply H. by right.
Qed.

End score_parts.

(** ** Platform bonus and penalty *)

(** C3: for a chunk whose platform tag is not UNKNOWN, the score is the
    score of the same chunk without a tag plus exactly 10 when the
    lowercased tag is a substring of the lowercased query; otherwise, when
    the query contains at least one of the seven listed surface forms that
    is not a substring of the lowercased tag, it is that score minus
    exactly 5, however many such forms the query contains; and when there
    is no such form the tag changes nothing. *)
Theorem C3_platform_bonus_penalty
    (query_lower : string) (query_tokens : list string)
    (text_lower platform : string) :
  platform ≠ "UNKNOWN" →
  let base := score_text query_lower query_tokens text_lower "UNKNOWN" in
  let score := score_text query_lower query_tokens text_lower platform in
  (contains (lower platform) query_lower = true → score = base + 10) ∧
  (contains (lower platform) query_lower = false →
     (∃ pt, pt ∈ ["ah-1"; "rc-12"; "uh-1"; "oh-58"; "c-12"; "ch-47"; "uh-60"]
            ∧ contains pt query_lower = true
            ∧ contains pt (lower platform) = false) →
     score = base - 5) ∧
  (contains (lower platform) query_lower = false →
     (∀ pt, pt ∈ ["ah-1"; "rc-12"; "uh-1"; "oh-58"; "c-12"; "ch-47"; "uh-60"] →
            contains pt query_lower = true →
            contains pt (lower platform) = true) →
     score = base).
Proof.
  intros Hp base score. subst base score.
  rewrite !score_text_parts, platform_delta_unknown.
  rewrite (platform_delta_tagged _ _ Hp).
  split_and!.
  - intros ->. lia.
  - intros -> H. fold PENALTY_FORMS in H.
    rewrite (penalty_loop_hit _ _ _ H). lia.
  - intros -> H. fold PENALTY_FORMS in H.
    rewrite (penalty_loop_miss _ _ _ H). lia.
Qed.

Lemma C3_platform_bonus_penalty_witness :
  score_text "ah-1 uh-60 oil" ["ah-1"; "uh-60"; "oil"] "engine oil" "AH-1"
  = score_text "ah-1 uh-60 oil" ["ah-1"; "uh-60"; "oil"] "engine oil" "UNKNOWN"
    + 10
  ∧ score_text "ah-1 uh-60 oil" ["ah-1"; "uh-60"; "oil"] "engine oil" "OH-58"
  = score_text "ah-1 uh-60 oil" ["ah-1"; "uh-60"; "oil"] "engine oil" "UNKNOWN"
    - 5.
Proof.
  split.
  - apply (C3_platform_bonus_penalty "ah-1 uh-60 oil"
             ["ah-1"; "uh-60"; "oil"] "engine oil" "AH-1"); [done|].
    vm_compute; reflexivity.
  - apply (C3_platform_bonus_penalty "ah-1 uh-60 oil"
             ["ah-1"; "uh-60"; "oil"] "engine oil" "OH-58"); [done| |].
    + vm_compute; reflexivity.
    + exists "ah-1". split; [by left|]. split; vm_compute; reflexivity.
Defined.

(** C10: when the lowercased query contains "rc-12", a chunk tagged
    "C-12" passes the bonus test (its lowercased tag "c-12" is a substring
    of the query), so its score is the untagged score plus the full 10,
    the same score the chunk would get with the tag "RC-12"; the
    branch of the penalty is not taken. *)
Theorem C10_c12_bonus_on_rc12_query (query : string) (c : chunk) :
  contains "rc-12" (lower query) = true →
  c_platform c = Some "C-12" →
  platform_named (lower query) (get_platform c) = true ∧
  (∀ score,
     platform_step (lower query) (get_platform c) score = score + 10 ∧
     platform_step (lower query) "RC-12" score = score + 10) ∧
  (∀ query_tokens text,
     c_text c = Some text →
     score_chunk (lower query) query_tokens c
     = Ok (score_text (lower query) query_tokens (lower text) "UNKNOWN" + 10) ∧
     score_chunk (lower query) query_tokens c
     = Ok (score_text (lower query) query_tokens (lower text) "RC-12")).
Proof.
  intros Hq Hp.
  assert (platform_named (lower query) "C-12" = true) as Hc.
  { unfold platform_named. rewrite bool_decide_eq_true_2 by done.
    apply (contains_tail "r"), Hq. }
  assert (platform_named (lower query) "RC-12" = true) as Hr.
  { unfold platform_named. by rewrite bool_decide_eq_true_2. }
  unfold score_chunk, get_text, get_platform. rewrite Hp. simpl.
  split_and!.
  - done.
  - intros score. unfold platform_step. by rewrite Hc, Hr.
  - intros query_tokens text ->. simpl. split.
    + rewrite !score_text_parts, platform_delta_unknown.
      rewrite (platform_delta_named _ _ Hc). f_equal. lia.
    + rewrite !score_text_parts.
      by rewrite (platform_delta_named _ _ Hc), (platform_delta_named _ _ Hr).
Qed.

Lemma C10_c12_bonus_on_rc12_query_witness :
  platform_named (lower "RC-12 fuel capacity")
    (get_platform
       (Chunk (Some "doc4_p1") (Some "C-12 aircraft hydraulic system")
              (Some "C-12C AIRCRAFT MAINTENANCE.pdf") (Some 22) (Some "C-12")))
  = true.
Proof.
  apply (C10_c12_bonus_on_rc12_query "RC-12 fuel capacity"
           (Chunk (Some "doc4_p1") (Some "C-12 aircraft hydraulic system")
              (Some "C-12C AIRCRAFT MAINTENANCE.pdf") (Some 22) (Some "C-12"))).
  - vm_compute; reflexivity.
  - reflexivity.
Defined.

(** On the query "RC-12 fuel" a chunk tagged "C-12" that holds the phrase
    stands before a chunk tagged "RC-12" with the same two keyword matches
    and no phrase: both receive the bonus. *)
Example rc12_query_c12_chunk_first :
  weighted_keyword_search "RC-12 fuel"
    [Chunk (Some "doc1_p1") (Some "Fuel for the RC-12.") (Some "a.pdf")
           (Some 1) (Some "RC-12");
     Chunk (Some "doc2_p1") (Some "RC-12 fuel.") (Some "b.pdf")
           (Some 1) (Some "C-12")] 3
  = Ok [Chunk (Some "doc2_p1") (Some "RC-12 fuel.") (Some "b.pdf")
              (Some 1) (Some "C-12");
        Chunk (Some "doc1_p1") (Some "Fuel for the RC-12.") (Some "a.pdf")
              (Some 1) (Some "RC-12")].
Proof. vm_compute. reflexivity. Qed.

(** ** Tokenizing a platform-qualified query *)

(** C8: the query "AH-1 oil pressure" is tokenized to "ah-1", "oil",
    "pressure" in that order; "ah" and "1" are alphanumeric runs of the
    lowercased query and are dropped because they are parts of the
    extracted platform token. *)
Theorem C8_tokenize_ah1_oil_pressure :
  tokenize_query "AH-1 oil pressure" = ["ah-1"; "oil"; "pressure"] ∧
  ("ah" ∉ tokenize_query "AH-1 oil pressure") ∧
  ("1" ∉ tokenize_query "AH-1 oil pressure") ∧
  findall platform_shape (lower "AH-1 oil pressure") = ["ah-1"] ∧
  findall alnum_run (lower "AH-1 oil pressure")
  = ["ah"; "1"; "oil"; "pressure"] ∧
  "ah" ∈ platform_parts_of ["ah-1"] ∧
  "1" ∈ platform_parts_of ["ah-1"].
Proof.
  assert (tokenize_query "AH-1 oil pressure" = ["ah-1"; "oil"; "pressure"])
    as E by (vm_compute; reflexivity).
  rewrite E. split_and!; try (vm_compute; reflexivity).
  - intros H. repeat (apply elem_of_cons in H as [H|H]; [discriminate|]).
    by apply elem_of_nil in H.
  - intros H. repeat (apply elem_of_cons in H as [H|H]; [discriminate|]).
    by apply elem_of_nil in H.
Qed.

(** ** Context assembly *)

Lemma context_parts_length i chunks :
  length (context_parts i chunks) = length chunks.
Proof. revert i; induction chunks; intros; simpl; auto. Qed.

Lemma context_parts_lookup chunks : ∀ k i c,
  chunks !! i = Some c →
  context_parts k chunks !! i = Some (context_part (k + i) c).
Proof.
  induction chunks as [|d chunks IH]; intros k [|i] c; simpl; try done.
  - intros [= ->]. by rewrite Nat.add_0_r.
  - intros H. rewrite (IH (S k) i c H). do 2 f_equal. lia.
Qed.

(** C9: the empty chunk list yields the sentinel; for a non-empty list
    the result joins one section per chunk with a blank line, the section
    of the chunk at position [i] (from 0) being the header with index
    [i + 1], source and page, a line break, and the first 800 characters
    of the text at most; an absent source renders as "Unknown", an absent
    page as "?", an absent text as the empty text. *)
Theorem C9_format_context (chunks : list chunk) (i : nat) (c : chunk) :
  chunks !! i = Some c →
  format_context [] = "No relevant context found." ∧
  format_context chunks
  = join (newline +:+ newline) (context_parts 1 chunks) ∧
  length (context_parts 1 chunks) = length chunks ∧
  ∃ source page body : string,
    context_parts 1 chunks !! i
    = Some ("[Source " +:+ str_of_Z (Z.of_nat (i + 1)) +:+ ": " +:+ source
            +:+ ", Page " +:+ page +:+ "]" +:+ newline +:+ body) ∧
    (len body ≤ 800)%nat ∧
    len body = (800 `min` len (default "" (c_text c)))%nat ∧
    startswith body (default "" (c_text c)) = true ∧
    ((len (default "" (c_text c)) ≤ 800)%nat → body = default "" (c_text c)) ∧
    (c_source c = None → source = "Unknown") ∧
    (∀ s, c_source c = Some s → source = s) ∧
    (c_page c = None → page = "?") ∧
    (∀ p, c_page c = Some p → page = str_of_Z p).
Proof.
  intros Hi. split_and!.
  - reflexivity.
  - destruct chunks; [done|reflexivity].
  - apply context_parts_length.
  - exists (default "Unknown" (c_source c)),
           (match c_page c with Some p => str_of_Z p | None => "?" end),
           (take_str MAX_TEXT (default "" (c_text c))).
    split_and!.
    + rewrite (context_parts_lookup _ 1 i c Hi).
      unfold context_part. by rewrite Nat.add_comm.
    + rewrite len_take_str. unfold MAX_TEXT. lia.
    + by rewrite len_take_str.
    + apply startswith_take_str.
    + apply take_str_all.
    + by intros ->.
    + by intros s ->.
    + by intros ->.
    + by intros p ->.
Qed.

Lemma C9_format_context_witness :
  format_context [] = "No relevant context found." ∧
  format_context [Chunk None (Some "Content only") None None None]
  = join (newline +:+ newline)
      (context_parts 1 [Chunk None (Some "Content only") None None None]).
Proof.
  pose proof (C9_format_context
    [Chunk None (Some "Content only") None None None] 0
    (Chunk None (Some "Content only") None None None) eq_refl) as H.
  split; [exact (proj1 H)|exact (proj1 (proj2 H))].
Defined.

(** ** The ranker: sorting, slicing, and the loop over the corpus *)

Section sort_facts.
Context {A : Type}.
Implicit Types (x : Z * A) (l : list (Z * A)).

Lemma insert_desc_perm x l : insert_desc x l ≡ₚ x :: l.
Proof.
  induction l as [|y l IH]; simpl; [done|].
  case_bool_decide; [done|]. rewrite IH. apply Permutation_swap.
Qed.

Lemma sort_desc_perm l : sort_desc l ≡ₚ l.
Proof.
  induction l as [|x l IH]; simpl; [done|].
  by rewrite insert_desc_perm, IH.
Qed.

Lemma insert_desc_sorted x l :
  StronglySorted key_ge l → StronglySorted key_ge (insert_desc x l).
Proof.
  induction l as [|y l IH]; intros Hl; simpl.
  - repeat constructor.
  - apply StronglySorted_cons in Hl as [Hy Hl].
    case_bool_decide as Hxy.
    + apply StronglySorted_cons. split.
      * constructor; [done|].
        eapply Forall_impl; [exact Hy|]. unfold key_ge. intros; lia.
      * by apply StronglySorted_cons.
    + apply StronglySorted_cons. split; [|by apply IH].
      rewrite insert_desc_perm. constructor; [|done].
      unfold key_ge. lia.
Qed.

Lemma sort_desc_sorted l : StronglySorted key_ge (sort_desc l).
Proof.
  induction l as [|x l IH]; simpl; [constructor|].
  by apply insert_desc_sorted.
Qed.

(** Stability: for every key, the elements carrying it keep their
    order. *)
Lemma insert_desc_stable (s : Z) x l :
  filter (λ y, y.1 = s) (insert_desc x l) = filter (λ y, y.1 = s) (x :: l).
Proof.
  induction l as [|y l IH]; simpl; [done|].
  case_bool_decide as Hxy; [done|].
  rewrite filter_cons, IH, !filter_cons.
  destruct (decide (y.1 = s)), (decide (x.1 = s)); try done. lia.
Qed.

Lemma sort_desc_stable (s : Z) l :
  filter (λ y, y.1 = s) (sort_desc l) = filter (λ y, y.1 = s) l.
Proof.
  induction l as [|x l IH]; simpl; [done|].
  by rewrite insert_desc_stable, !filter_cons, IH.
Qed.

(** A list sorted by descending key is determined by its stable
    content, the elements of each key in their order: whatever stable
    sort the interpreter runs, it returns [sort_desc]. *)
Lemma stable_sorted_unique l1 : ∀ l2,
  StronglySorted key_ge l1 → StronglySorted key_ge l2 →
  (∀ s : Z, filter (λ y, y.1 = s) l1 = filter (λ y, y.1 = s) l2) →
  l1 = l2.
Proof.
  induction l1 as [|x l1 IH]; intros l2 H1 H2 Heq.
  - destruct l2 as [|y l2]; [done|].
    specialize (Heq y.1). rewrite filter_cons in Heq.
    by destruct (decide (y.1 = y.1)).
  - destruct l2 as [|y l2].
    { specialize (Heq x.1). rewrite filter_cons in Heq.
      by destruct (decide (x.1 = x.1)). }
    apply StronglySorted_cons in H1 as [Hx H1].
    apply StronglySorted_cons in H2 as [Hy H2].
    rewrite Forall_forall in Hx, Hy.
    assert (x.1 ≤ y.1) as Hxy.
    { pose proof (Heq x.1) as E. rewrite filter_cons in E.
      destruct (decide (x.1 = x.1)); [|done].
      assert (x ∈ filter (λ z, z.1 = x.1) (y :: l2)) as Hin
        by (rewrite <-E; left).
      apply list_elem_of_filter in Hin as [_ [->|Hin]%elem_of_cons]; [lia|].
      by apply Hy. }
    assert (y.1 ≤ x.1) as Hyx.
    { pose proof (Heq y.1) as E. rewrite (filter_cons _ y) in E.
      destruct (decide (y.1 = y.1)); [|done].
      assert (y ∈ filter (λ z, z.1 = y.1) (x :: l1)) as Hin
        by (rewrite E; left).
      apply list_elem_of_filter in Hin as [_ [->|Hin]%elem_of_cons]; [lia|].
      by apply Hx. }
    assert (x = y) as ->.
    { pose proof (Heq x.1) as E. rewrite !filter_cons in E.
      destruct (decide (x.1 = x.1)); [|done].
      destruct (decide (y.1 = x.1)); [|lia]. congruence. }
    f_equal. apply IH; [done..|].
    intros s. specialize (Heq s). rewrite !filter_cons in Heq.
    destruct (decide (y.1 = s)); congruence.
Qed.

Lemma sort_desc_unique l l' :
  StronglySorted key_ge l' →
  (∀ s : Z, filter (λ y, y.1 = s) l' = filter (λ y, y.1 = s) l) →
  l' = sort_desc l.
Proof.
  intros Hs Hst. apply stable_sorted_unique; [done|apply sort_desc_sorted|].
  intros s. by rewrite sort_desc_stable.
Qed.

Lemma sorted_lookup_ge l i j x y :
  StronglySorted key_ge l → (i < j)%nat →
  l !! i = Some x → l !! j = Some y → y.1 ≤ x.1.
Proof.
  intros Hl. revert i j. induction Hl as [|z l Hl IH Hz]; intros i j Hij.
  - done.
  - destruct i as [|i], j as [|j]; simpl; try lia.
    + intros [= ->] Hy. rewrite Forall_forall in Hz.
      apply Hz. by eapply list_elem_of_lookup_2.
    + apply IH. lia.
Qed.

End sort_facts.

Section slice_facts.
Context {A : Type}.

Lemma slice_to_prefix (k : Z) (l : list A) : slice_to k l `prefix_of` l.
Proof. unfold slice_to. destruct (0 <=? k); apply prefix_take. Qed.

Lemma slice_to_length (k : Z) (l : list A) :
  0 ≤ k → Z.of_nat (length (slice_to k l)) ≤ k.
Proof.
  intros Hk. unfold slice_to.
  rewrite (proj2 (Z.leb_le 0 k)) by done. rewrite length_take. lia.
Qed.

Lemma prefix_filter (P : A → Prop) `{!∀ x, Decision (P x)} (l1 l2 : list A) :
  l1 `prefix_of` l2 → filter P l1 `prefix_of` filter P l2.
Proof. intros [k ->]. rewrite filter_app. by eexists. Qed.

Lemma filter_none (P : A → Prop) `{!∀ x, Decision (P x)} (l : list A) :
  (∀ x, x ∈ l → ¬ P x) → filter P l = [].
Proof.
  induction l as [|x l IH]; intros Hno; [done|].
  rewrite filter_cons. destruct (decide (P x)) as [HP|_].
  - destruct (Hno x); [by left|done].
  - apply IH. intros y ?. apply Hno. by right.
Qed.

Lemma prefix_sublist_of (l1 l2 : list A) :
  l1 `prefix_of` l2 → l1 `sublist_of` l2.
Proof. intros [k ->]. by apply sublist_inserts_r. Qed.

(** Two positions in increasing order are a two-element sublist. *)
Lemma sublist_pair_lookup (a b : A) (l : list A) :
  [a; b] `sublist_of` l ↔
  ∃ p r, (p < r)%nat ∧ l !! p = Some a ∧ l !! r = Some b.
Proof.
  split.
  - induction l as [|x l IH]; intros H.
    + by apply sublist_nil_r in H.
    + apply sublist_cons_r in H as [H|(l' & [= <- <-] & H)].
      * destruct (IH H) as (p & r & ? & ? & ?).
        exists (S p), (S r). split_and!; [lia|done..].
      * apply sublist_cons_l in H as (k1 & k2 & -> & _).
        exists 0%nat, (S (length k1)). split_and!; [lia|done|].
        simpl. by rewrite list_lookup_middle.
  - intros (p & r & Hpr & Hp & Hr). revert p r Hpr Hp Hr.
    induction l as [|x l IH]; intros p r Hpr Hp Hr; [done|].
    destruct p as [|p], r as [|r]; simpl in *; try lia.
    + injection Hp as ->. apply sublist_skip.
      apply list_elem_of_lookup_2, list_elem_of_split in Hr
        as (k1 & k2 & ->).
      apply sublist_inserts_l, sublist_skip, sublist_nil_l.
    + apply sublist_cons, (IH p r); [lia|done..].
Qed.

End slice_facts.

Section ranker_facts.
Context (query_lower : string) (query_tokens : list string).

Lemma score_chunk_ok c :
  has_text c → score_chunk query_lower query_tokens c = Ok (score_of query_lower query_tokens c).
Proof.
  intros [t Ht]. unfold score_chunk, score_of, get_text. by rewrite Ht.
Qed.

Lemma score_chunk_inv c s :
  score_chunk query_lower query_tokens c = Ok s →
  has_text c ∧ s = score_of query_lower query_tokens c.
Proof.
  unfold score_chunk, score_of, get_text, has_text.
  destruct (c_text c) as [t|]; simpl; [|done].
  intros [= <-]. eauto.
Qed.

Lemma score_chunk_raise c :
  c_text c = None →
  score_chunk query_lower query_tokens c = Raise (KeyError "text").
Proof. unfold score_chunk, get_text. by intros ->. Qed.

Lemma retained_cons c kb :
  retained query_lower query_tokens (c :: kb)
  = if bool_decide (MIN_SCORE ≤ score_of query_lower query_tokens c)
    then (score_of query_lower query_tokens c, c) :: retained query_lower query_tokens kb else retained query_lower query_tokens kb.
Proof.
  unfold retained. rewrite fmap_cons, filter_cons. simpl.
  case_bool_decide; by case_decide.
Qed.

Lemma score_loop_ok kb : ∀ scored,
  Forall has_text kb →
  score_loop query_lower query_tokens kb scored
  = Ok (scored ++ retained query_lower query_tokens kb).
Proof.
  induction kb as [|c kb IH]; intros scored Hkb; simpl.
  - by rewrite app_nil_r.
  - apply Forall_cons in Hkb as [Hc Hkb].
    rewrite (score_chunk_ok c Hc). simpl.
    rewrite (IH _ Hkb), retained_cons.
    case_bool_decide; [|done]. by rewrite <-app_assoc.
Qed.

Lemma score_loop_inv kb : ∀ scored out,
  score_loop query_lower query_tokens kb scored = Ok out →
  Forall has_text kb.
Proof.
  induction kb as [|c kb IH]; intros scored out; simpl; [done|].
  destruct (score_chunk query_lower query_tokens c) as [s|e] eqn:E;
    simpl; [|done].
  intros H. constructor; [|by eapply IH].
  by apply score_chunk_inv in E as [? _].
Qed.

Lemma retained_spec kb p :
  p ∈ retained query_lower query_tokens kb ↔ p.1 = score_of query_lower query_tokens p.2 ∧ MIN_SCORE ≤ p.1 ∧ p.2 ∈ kb.
Proof.
  unfold retained. rewrite list_elem_of_filter, list_elem_of_fmap. split.
  - intros (? & c & -> & ?). done.
  - intros (? & ? & ?). split; [done|]. exists p.2.
    split; [|done]. destruct p; simpl in *; congruence.
Qed.

Lemma retained_chunks kb :
  (retained query_lower query_tokens kb).*2 = filter (λ c, MIN_SCORE ≤ score_of query_lower query_tokens c) kb.
Proof.
  induction kb as [|c kb IH]; [done|].
  rewrite retained_cons, filter_cons.
  case_bool_decide; case_decide; try done. by rewrite fmap_cons, IH.
Qed.

(** On a list of pairs that carry the score of their chunk, selecting
    by the stored key or by the chunk's score is the same. *)
Lemma filter_key_chunks (s : Z) (l : list (Z * chunk)) :
  Forall (λ p, p.1 = score_of query_lower query_tokens p.2) l →
  filter (λ c, score_of query_lower query_tokens c = s) l.*2 = (filter (λ p, p.1 = s) l).*2.
Proof.
  induction 1 as [|p l Hp Hl IH]; [done|].
  rewrite fmap_cons, !filter_cons, IH.
  destruct (decide (score_of query_lower query_tokens p.2 = s)), (decide (p.1 = s));
    try done; congruence.
Qed.

Lemma ranked_prefix kb top_k :
  ranked query_lower query_tokens kb top_k `prefix_of` sort_desc (retained query_lower query_tokens kb).
Proof. apply slice_to_prefix. Qed.

Lemma ranked_submseteq kb top_k : ranked query_lower query_tokens kb top_k ⊆+ retained query_lower query_tokens kb.
Proof.
  transitivity (sort_desc (retained query_lower query_tokens kb)).
  - apply sublist_submseteq, prefix_sublist_of, ranked_prefix.
  - apply Permutation_submseteq, sort_desc_perm.
Qed.

Lemma ranked_spec kb top_k p :
  p ∈ ranked query_lower query_tokens kb top_k → p.1 = score_of query_lower query_tokens p.2 ∧ MIN_SCORE ≤ p.1 ∧ p.2 ∈ kb.
Proof.
  intros Hp. apply retained_spec.
  eapply elem_of_submseteq; [exact Hp|apply ranked_submseteq].
Qed.

Lemma sorted_retained_keys kb :
  Forall (λ p, p.1 = score_of query_lower query_tokens p.2) (sort_desc (retained query_lower query_tokens kb)).
Proof.
  apply Forall_forall. intros p Hp.
  rewrite sort_desc_perm in Hp. by apply retained_spec in Hp as [? _].
Qed.

Lemma ranked_chunks_submseteq kb top_k : (ranked query_lower query_tokens kb top_k).*2 ⊆+ kb.
Proof.
  transitivity ((retained query_lower query_tokens kb).*2).
  - apply fmap_submseteq, ranked_submseteq.
  - rewrite retained_chunks. apply sublist_submseteq, sublist_filter.
Qed.

(** Stability of the whole ranking: for every score, the returned
    chunks with that score are an initial segment of the corpus chunks
    with that score. *)
Lemma ranked_stable kb top_k (s : Z) :
  filter (λ c, score_of query_lower query_tokens c = s) (ranked query_lower query_tokens kb top_k).*2
  `prefix_of` filter (λ c, score_of query_lower query_tokens c = s) kb.
Proof.
  destruct (decide (MIN_SCORE ≤ s)) as [Hs|Hs].
  - assert (filter (λ c, score_of query_lower query_tokens c = s) kb
            = filter (λ c, score_of query_lower query_tokens c = s) (sort_desc (retained query_lower query_tokens kb)).*2)
      as ->.
    { rewrite (filter_key_chunks _ _ (sorted_retained_keys kb)).
      rewrite sort_desc_stable.
      rewrite <-filter_key_chunks, retained_chunks.
      - rewrite list_filter_filter. apply list_filter_iff.
        intros c. split; [|tauto]. intros ->. done.
      - apply Forall_forall. intros p Hp.
        by apply retained_spec in Hp as [? _]. }
    apply prefix_filter.
    destruct (ranked_prefix kb top_k) as [k' ->].
    rewrite fmap_app. by eexists.
  - assert (filter (λ c, score_of query_lower query_tokens c = s) (ranked query_lower query_tokens kb top_k).*2 = []) as ->.
    { apply filter_none.
      intros c (p & -> & Hp)%list_elem_of_fmap.
      apply ranked_spec in Hp as (<- & ? & _). lia. }
    apply prefix_nil.
Qed.

End ranker_facts.

Lemma search_inv query kb top_k res :
  weighted_keyword_search query kb top_k = Ok res →
  (tokenize_query query = [] ∧ res = []) ∨
  (tokenize_query query ≠ [] ∧ Forall has_text kb ∧
   res = (ranked (lower query) (tokenize_query query) kb top_k).*2).
Proof.
  unfold weighted_keyword_search.
  destruct (tokenize_query query) as [|t toks] eqn:E.
  - intros [= <-]. by left.
  - destruct (score_loop _ _ kb []) as [scored|e] eqn:Hl; simpl; [|done].
    intros [= <-]. right.
    pose proof (score_loop_inv _ _ _ _ _ Hl) as Hkb.
    rewrite (score_loop_ok _ _ _ _ Hkb) in Hl. injection Hl as <-.
    done.
Qed.

Lemma search_ok query kb top_k :
  Forall has_text kb →
  weighted_keyword_search query kb top_k
  = Ok (match tokenize_query query with
        | [] => []
        | _ => (ranked (lower query) (tokenize_query query) kb top_k).*2
        end).
Proof.
  intros Hkb. unfold weighted_keyword_search.
  destruct (tokenize_query query) as [|t toks] eqn:E; [done|].
  by rewrite (score_loop_ok _ _ _ _ Hkb).
Qed.

(** ** Properties of the ranking *)

Lemma filter_ext_in {A} (P Q : A → Prop)
    `{!∀ x, Decision (P x)} `{!∀ x, Decision (Q x)} (l : list A) :
  (∀ x, x ∈ l → P x ↔ Q x) → filter P l = filter Q l.
Proof.
  induction l as [|x l IH]; intros Hl; [done|].
  rewrite !filter_cons, IH by (intros y ?; apply Hl; by right).
  destruct (decide (P x)) as [HP|HP], (decide (Q x)) as [HQ|HQ]; try done.
  - destruct HQ. apply Hl; [by left|done].
  - destruct HP. apply Hl; [by left|done].
Qed.

Lemma score_chunk_iff ql toks c s :
  has_text c → score_chunk ql toks c = Ok s ↔ score_of ql toks c = s.
Proof.
  intros Hc. rewrite (score_chunk_ok _ _ _ Hc). split; congruence.
Qed.

(** C6 (amended): for a limit that is not negative the result has at most
    [limit] chunks; the result takes every corpus entry at most once (it
    is a sub-multiset of the corpus), so its chunks are corpus chunks and
    a corpus without repeated chunks gives a result without repeated
    chunks; every returned chunk scores at least 3; the empty corpus
    gives the empty result. *)
Theorem C6_rank_bounds (query : string) (kb : list chunk) (top_k : Z)
    (res : list chunk) :
  weighted_keyword_search query kb top_k = Ok res →
  (0 ≤ top_k → Z.of_nat (length res) ≤ top_k) ∧
  res ⊆+ kb ∧
  (∀ c, c ∈ res → c ∈ kb) ∧
  (NoDup kb → NoDup res) ∧
  (∀ c, c ∈ res →
     ∃ s, score_chunk (lower query) (tokenize_query query) c = Ok s ∧ 3 ≤ s) ∧
  weighted_keyword_search query [] top_k = Ok [].
Proof.
  intros H.
  assert (weighted_keyword_search query [] top_k = Ok []) as Hnil.
  { rewrite search_ok by constructor.
    destruct (tokenize_query query); [done|].
    unfold ranked, retained, slice_to. simpl.
    destruct (0 <=? top_k); by rewrite ?take_nil. }
  apply search_inv in H as [[_ ->]|(_ & Hkb & ->)].
  { split_and!.
    - simpl. lia.
    - apply submseteq_nil_l.
    - intros c Hc. by apply elem_of_nil in Hc.
    - intros _. constructor.
    - intros c Hc. by apply elem_of_nil in Hc.
    - done. }
  pose proof (ranked_chunks_submseteq (lower query) (tokenize_query query)
                kb top_k) as Hsub.
  split_and!; try done.
  - intros Hk. rewrite length_fmap. by apply slice_to_length.
  - intros c Hc. by eapply elem_of_submseteq.
  - intros Hnd. apply submseteq_Permutation in Hsub as [k' Hk'].
    rewrite Hk' in Hnd. by apply NoDup_app in Hnd as [? _].
  - intros c (p & -> & Hp)%list_elem_of_fmap.
    apply ranked_spec in Hp as (Hs & Hmin & Hin).
    exists p.1. split; [|done].
    rewrite Forall_forall in Hkb.
    apply score_chunk_iff; [by apply Hkb|done].
Qed.

Lemma C6_rank_bounds_witness :
  Z.of_nat (length [Samples.oil3; Samples.oil1]) ≤ 2 ∧
  [Samples.oil3; Samples.oil1] ⊆+ [Samples.oil1; Samples.oil2; Samples.oil3].
Proof.
  pose proof (C6_rank_bounds "oil pressure"
    [Samples.oil1; Samples.oil2; Samples.oil3] 2
    [Samples.oil3; Samples.oil1]) as H.
  assert (weighted_keyword_search "oil pressure"
            [Samples.oil1; Samples.oil2; Samples.oil3] 2
          = Ok [Samples.oil3; Samples.oil1]) as E
    by (vm_compute; reflexivity).
  split; [apply (proj1 (H E)); lia|exact (proj1 (proj2 (H E)))].
Defined.

(** C6 as stated fails: with the limit -1 the slice drops the last
    candidate only, so one chunk is returned, which is more than -1; and a
    corpus that holds a chunk twice returns it twice. *)
Lemma C6_counterexample :
  weighted_keyword_search "oil pressure" [Samples.oil1; Samples.oil2] (-1)
  = Ok [Samples.oil1] ∧
  ¬ (Z.of_nat (length [Samples.oil1]) ≤ -1) ∧
  weighted_keyword_search "oil pressure" [Samples.oil1; Samples.oil1] 3
  = Ok [Samples.oil1; Samples.oil1] ∧
  ¬ NoDup [Samples.oil1; Samples.oil1].
Proof.
  split_and!.
  - vm_compute; reflexivity.
  - simpl. lia.
  - vm_compute; reflexivity.
  - intros H. apply NoDup_cons in H as [H _]. apply H. by left.
Qed.

(** C4: among the returned chunks, those with one and the same score
    are an initial segment of the corpus chunks with that score; hence two
    returned chunks of equal score stand in the result in the order of
    two corpus positions that hold them. *)
Theorem C4_ties_keep_corpus_order (query : string) (kb : list chunk)
    (top_k : Z) (res : list chunk) :
  weighted_keyword_search query kb top_k = Ok res →
  let score := score_chunk (lower query) (tokenize_query query) in
  (∀ s : Z, filter (λ c, score c = Ok s) res
            `prefix_of` filter (λ c, score c = Ok s) kb) ∧
  (∀ (i j : nat) (a b : chunk) (s : Z),
     (i < j)%nat → res !! i = Some a → res !! j = Some b →
     score a = Ok s → score b = Ok s →
     ∃ p r, (p < r)%nat ∧ kb !! p = Some a ∧ kb !! r = Some b).
Proof.
  intros H score.
  assert (∀ s : Z, filter (λ c, score c = Ok s) res
                   `prefix_of` filter (λ c, score c = Ok s) kb) as Hpre.
  { intros s. apply search_inv in H as [[_ ->]|(_ & Hkb & ->)].
    { apply prefix_nil. }
    rewrite Forall_forall in Hkb.
    rewrite (filter_ext_in (λ c, score c = Ok s)
               (λ c, score_of (lower query) (tokenize_query query) c = s) kb)
      by (intros c Hc; apply score_chunk_iff; by apply Hkb).
    rewrite (filter_ext_in (λ c, score c = Ok s)
               (λ c, score_of (lower query) (tokenize_query query) c = s)).
    - apply ranked_stable.
    - intros c Hc. apply score_chunk_iff, Hkb.
      eapply elem_of_submseteq; [exact Hc|apply ranked_chunks_submseteq]. }
  split; [exact Hpre|].
  intros i j a b s Hij Hi Hj Ha Hb.
  apply sublist_pair_lookup.
  transitivity (filter (λ c, score c = Ok s) kb); [|apply sublist_filter].
  transitivity (filter (λ c, score c = Ok s) res);
    [|apply prefix_sublist_of, Hpre].
  assert ([a; b] `sublist_of` res) as Hab
    by (apply sublist_pair_lookup; eauto).
  assert (filter (λ c, score c = Ok s) [a; b] = [a; b]) as <-.
  { rewrite !filter_cons, filter_nil.
    destruct (decide (score a = Ok s)), (decide (score b = Ok s)); done. }
  clear -Hab. induction Hab as [|x l1 l2 _ IH|x l1 l2 _ IH].
  - done.
  - rewrite !filter_cons. destruct (decide (score x = Ok s)); [|done].
    by apply sublist_skip.
  - rewrite filter_cons. destruct (decide (score x = Ok s)); [|done].
    by apply sublist_cons.
Qed.

Lemma C4_ties_keep_corpus_order_witness :
  ∃ p r, (p < r)%nat
         ∧ [Samples.oil1; Samples.oil2; Samples.oil3] !! p = Some Samples.oil1
         ∧ [Samples.oil1; Samples.oil2; Samples.oil3] !! r = Some Samples.oil2.
Proof.
  assert (weighted_keyword_search "oil pressure"
            [Samples.oil1; Samples.oil2; Samples.oil3] 3
          = Ok [Samples.oil3; Samples.oil1; Samples.oil2]) as E
    by (vm_compute; reflexivity).
  apply (proj2 (C4_ties_keep_corpus_order "oil pressure"
                  [Samples.oil1; Samples.oil2; Samples.oil3] 3
                  [Samples.oil3; Samples.oil1; Samples.oil2] E)
           1%nat 2%nat Samples.oil1 Samples.oil2 7).
  - lia.
  - reflexivity.
  - reflexivity.
  - vm_compute; reflexivity.
  - vm_compute; reflexivity.
Defined.

(** C2, amended: let the tag of chunk [a] be a platform whose lowercase
    form occurs in the lowercased query (the test of the +10 bonus), let
    the tag of chunk [b] be UNKNOWN or not occur in the lowercased query,
    and let both have the same number of whole-word keyword matches.
    Then [a] scores strictly higher than [b], whatever the phrase bonus
    and the penalty do, and wherever [b] stands in the ranked result, [a]
    stands before it. *)
Theorem C2_named_platform_ranks_first (query : string) (kb : list chunk)
    (top_k : Z) (res : list chunk) (a b : chunk) (text_a text_b : string) :
  weighted_keyword_search query kb top_k = Ok res →
  a ∈ kb → b ∈ kb →
  c_text a = Some text_a → c_text b = Some text_b →
  platform_named (lower query) (get_platform a) = true →
  platform_named (lower query) (get_platform b) = false →
  keyword_total (tokenize_query query) (lower text_a)
  = keyword_total (tokenize_query query) (lower text_b) →
  (∃ sa sb, score_chunk (lower query) (tokenize_query query) a = Ok sa
            ∧ score_chunk (lower query) (tokenize_query query) b = Ok sb
            ∧ sb < sa) ∧
  (∀ j, res !! j = Some b → ∃ i, (i < j)%nat ∧ res !! i = Some a).
Proof.
  intros H Ha Hb Hta Htb Hna Hnb Hkw.
  set (ql := lower query) in *. set (toks := tokenize_query query) in *.
  assert (has_text a) as Hha by (by exists text_a).
  assert (has_text b) as Hhb by (by exists text_b).
  assert (score_of ql toks b < score_of ql toks a ∧
          MIN_SCORE ≤ score_of ql toks a) as [Hlt Hmin].
  { unfold score_of. rewrite Hta, Htb. simpl. rewrite !score_text_parts.
    rewrite (platform_delta_named _ _ Hna).
    pose proof (platform_delta_not_named _ _ Hnb).
    pose proof (phrase_delta_range toks (lower text_a)).
    pose proof (phrase_delta_range toks (lower text_b)).
    pose proof (keyword_total_nonneg toks (lower text_a)).
    unfold MIN_SCORE. lia. }
  split.
  { exists (score_of ql toks a), (score_of ql toks b).
    by rewrite !score_chunk_ok. }
  intros j Hj.
  apply search_inv in H as [[_ ->]|(_ & Hkb & ->)]; [done|].
  fold ql toks in Hj |- *.
  rewrite list_lookup_fmap in Hj.
  destruct (ranked ql toks kb top_k !! j) as [pb|] eqn:Hpb; [|done].
  injection Hj as <-.
  pose proof (ranked_prefix ql toks kb top_k) as Hpre.
  assert (pb.1 = score_of ql toks pb.2) as Hkey.
  { apply (ranked_spec ql toks kb top_k).
    by eapply list_elem_of_lookup_2. }
  assert ((score_of ql toks a, a) ∈ sort_desc (retained ql toks kb)) as Hin.
  { rewrite sort_desc_perm. by apply retained_spec. }
  apply list_elem_of_lookup_1 in Hin as [i Hi].
  pose proof (prefix_lookup_Some _ _ _ _ Hpb Hpre) as Hpb'.
  pose proof (sort_desc_sorted (retained ql toks kb)) as Hsorted.
  destruct (Nat.lt_trichotomy i j) as [Hij|[->|Hji]].
  - exists i. split; [done|].
    assert (i < length (ranked ql toks kb top_k))%nat as Hlen
      by (apply lookup_lt_Some in Hpb; lia).
    by rewrite list_lookup_fmap, (prefix_lookup_lt _ _ i Hlen Hpre), Hi.
  - rewrite Hi in Hpb'. injection Hpb' as <-. simpl in *. lia.
  - pose proof (sorted_lookup_ge _ _ _ _ _ Hsorted Hji Hpb' Hi) as Hge.
    simpl in Hge. lia.
Qed.

Lemma C2_named_platform_ranks_first_witness :
  ∃ i, (i < 1)%nat
       ∧ [Samples.rc12_fuel; Samples.oh58_fuel] !! i = Some Samples.rc12_fuel.
Proof.
  assert (weighted_keyword_search "RC-12 fuel capacity"
            [Samples.oh58_fuel; Samples.rc12_fuel] 3
          = Ok [Samples.rc12_fuel; Samples.oh58_fuel]) as E
    by (vm_compute; reflexivity).
  apply (proj2 (C2_named_platform_ranks_first "RC-12 fuel capacity"
                  [Samples.oh58_fuel; Samples.rc12_fuel] 3
                  [Samples.rc12_fuel; Samples.oh58_fuel]
                  Samples.rc12_fuel Samples.oh58_fuel
                  "Fuel capacity of the RC-12 is 260 gallons."
                  "RC-12 fuel capacity compared."
                  E
                  ltac:(by right; left) ltac:(by left)
                  eq_refl eq_refl
                  ltac:(vm_compute; reflexivity)
                  ltac:(vm_compute; reflexivity)
                  ltac:(vm_compute; reflexivity))).
  reflexivity.
Defined.

(** C2 as stated fails: the query "RC-12 fuel" names the platform rc-12
    and no other; the chunk tagged RC-12 is on that platform, the chunk
    tagged C-12 is not, and both have two keyword matches.  The tag c-12
    occurs in the query inside rc-12, so the C-12 chunk receives the bonus
    too, with the phrase bonus it scores 17 against 12, and it is ranked
    above the RC-12 chunk.  The query "AH1 oil pressure" names ah1, which
    is not the tag AH-1: the chunk tagged AH-1 receives no bonus. *)
Lemma C2_counterexample :
  query_platforms "RC-12 fuel" = ["rc-12"] ∧
  on_platform "RC-12 fuel" Samples.rc12_plain ∧
  off_platform "RC-12 fuel" Samples.c12_phrase ∧
  keyword_total (tokenize_query "RC-12 fuel") (lower "Fuel for the RC-12.")
  = keyword_total (tokenize_query "RC-12 fuel") (lower "RC-12 fuel.") ∧
  score_chunk (lower "RC-12 fuel") (tokenize_query "RC-12 fuel")
    Samples.rc12_plain = Ok 12 ∧
  score_chunk (lower "RC-12 fuel") (tokenize_query "RC-12 fuel")
    Samples.c12_phrase = Ok 17 ∧
  weighted_keyword_search "RC-12 fuel"
    [Samples.rc12_plain; Samples.c12_phrase] 3
  = Ok [Samples.c12_phrase; Samples.rc12_plain] ∧
  platform_named (lower "AH1 oil pressure") "AH-1" = false.
Proof.
  split_and!; try (vm_compute; reflexivity).
  - unfold on_platform.
    assert (query_platforms "RC-12 fuel" = ["rc-12"]) as ->
      by (vm_compute; reflexivity).
    by left.
  - unfold off_platform.
    assert (query_platforms "RC-12 fuel" = ["rc-12"]) as ->
      by (vm_compute; reflexivity).
    split_and!; [done|done|].
    intros [E|H]%elem_of_cons; [by vm_compute in E|by apply elem_of_nil in H].
Qed.

(** ** Chunks whose text is empty or absent *)

Lemma count_matches_empty token : count_matches token "" = 0.
Proof. reflexivity. Qed.

Lemma keyword_total_empty toks : keyword_total toks "" = 0.
Proof.
  unfold keyword_total, keyword_loop.
  induction toks as [|t toks IH]; simpl; [done|].
  by rewrite count_matches_empty.
Qed.

Lemma contains_empty_text p : p ≠ "" → contains p "" = false.
Proof. by destruct p. Qed.

Lemma join_two_nonempty sep x y l : sep ≠ "" → join sep (x :: y :: l) ≠ "".
Proof.
  intros Hsep H. apply (f_equal len) in H.
  change (join sep (x :: y :: l)) with (x +:+ sep +:+ join sep (y :: l)) in H.
  rewrite !len_app in H. destruct sep; [done|].
  unfold len in H; simpl in H. lia.
Qed.

Lemma phrase_delta_empty toks : phrase_delta toks "" = 0.
Proof.
  unfold phrase_delta, phrase_step.
  destruct toks as [|x [|y l]]; try done.
  change (2 <=? length (x :: y :: l))%nat with true. cbv iota zeta.
  change (take 3 (x :: y :: l)) with (x :: y :: take 1 l).
  rewrite contains_empty_text; [done|]. by apply join_two_nonempty.
Qed.

Lemma score_of_empty_text ql toks c :
  c_text c = Some "" → score_of ql toks c = platform_delta ql (get_platform c).
Proof.
  intros Ht. unfold score_of. rewrite Ht. simpl.
  rewrite score_text_parts, keyword_total_empty, phrase_delta_empty. lia.
Qed.

(** C1 (amended): for a chunk whose text is present and empty, no token
    has a match and no phrase bonus applies, so its score is the platform
    adjustment alone; when the query does not name the chunk's platform
    that score is at most 0, below the threshold 3, and the chunk is in
    no ranked result.  Ranking returns a result, without an exception,
    for every corpus whose chunks all have a text. *)
Theorem C1_empty_text_filtered (query : string) (kb : list chunk) (top_k : Z)
    (c : chunk) :
  c_text c = Some "" →
  let query_lower := lower query in
  let query_tokens := tokenize_query query in
  (∀ token, count_matches token (lower "") = 0) ∧
  score_chunk query_lower query_tokens c
  = Ok (platform_delta query_lower (get_platform c)) ∧
  (platform_named query_lower (get_platform c) = false →
     (∃ s, score_chunk query_lower query_tokens c = Ok s ∧ s < 3) ∧
     (∀ res, weighted_keyword_search query kb top_k = Ok res → c ∉ res)) ∧
  (Forall has_text kb →
     ∃ res, weighted_keyword_search query kb top_k = Ok res).
Proof.
  intros Ht ql toks.
  assert (has_text c) as Hc by (by exists "").
  assert (score_chunk ql toks c = Ok (platform_delta ql (get_platform c)))
    as Hs by (by rewrite (score_chunk_ok _ _ _ Hc), score_of_empty_text).
  split_and!.
  - intros token. apply count_matches_empty.
  - exact Hs.
  - intros Hn. pose proof (platform_delta_not_named _ _ Hn) as Hr.
    split.
    + eexists. split; [exact Hs|lia].
    + intros res H Hin.
      apply search_inv in H as [[_ ->]|(_ & _ & ->)].
      { by apply elem_of_nil in Hin. }
      apply list_elem_of_fmap in Hin as (p & -> & Hp).
      apply ranked_spec in Hp as (Hk & Hmin & _).
      fold ql toks in Hk. rewrite score_of_empty_text in Hk by done.
      unfold MIN_SCORE in Hmin. lia.
  - intros Hkb. eexists. by apply search_ok.
Qed.

Lemma C1_empty_text_filtered_witness :
  score_chunk (lower "AH-1 oil pressure") (tokenize_query "AH-1 oil pressure")
    Samples.blank_uh1
  = Ok (platform_delta (lower "AH-1 oil pressure")
          (get_platform Samples.blank_uh1)).
Proof.
  exact (proj1 (proj2 (C1_empty_text_filtered "AH-1 oil pressure"
                         [Samples.blank_uh1] 3 Samples.blank_uh1 eq_refl))).
Defined.

(** C1 as stated fails: an empty text does not keep a chunk below the
    threshold when the query names its platform, the bonus alone gives
    10; and an absent text makes the scoring loop raise [KeyError]. *)
Lemma C1_counterexample :
  c_text Samples.blank_ah1 = Some "" ∧
  (∃ s, score_chunk (lower "AH-1 oil pressure")
          (tokenize_query "AH-1 oil pressure") Samples.blank_ah1 = Ok s
        ∧ ¬ s < 3) ∧
  (∃ res, weighted_keyword_search "AH-1 oil pressure" [Samples.blank_ah1] 3
          = Ok res
          ∧ Samples.blank_ah1 ∈ res) ∧
  c_text Samples.no_text = None ∧
  weighted_keyword_search "AH-1 oil pressure" [Samples.no_text] 3
  = Raise (KeyError "text").
Proof.
  split_and!.
  - reflexivity.
  - exists 10. split; [vm_compute; reflexivity|lia].
  - exists [Samples.blank_ah1]. split; [vm_compute; reflexivity|by left].
  - reflexivity.
  - vm_compute; reflexivity.
Qed.

(** ** Queries without content words *)

Ltac by_cases_on_char c :=
  destruct c as [[] [] [] [] [] [] [] []]; vm_compute; done.

Lemma lower_char_az c : is_az (lower_char c) = true → is_letter c = true.
Proof. revert c. intros c. by_cases_on_char c. Qed.

Lemma letter_or_space_lower c :
  is_space c || is_letter c = true →
  is_alnum_lc (lower_char c) = not_space c.
Proof. by_cases_on_char c. Qed.

Lemma letter_or_space_no_digit c :
  is_space c || is_letter c = true → is_digit (lower_char c) = false.
Proof. by_cases_on_char c. Qed.

Lemma all_chars_impl (p q : ascii → bool) s :
  (∀ c, p c = true → q c = true) → all_chars p s = true → all_chars q s = true.
Proof.
  intros Hpq. induction s as [|c s IH]; simpl; [done|].
  intros [Hc Hs]%andb_true_iff. by rewrite (Hpq c Hc), IH.
Qed.

Lemma all_chars_take_drop p n s :
  all_chars p (take_str n s) = true → all_chars p (drop_str n s) = true →
  all_chars p s = true.
Proof.
  revert s. induction n as [|n IH]; intros [|c s]; simpl; try done.
  intros [-> Hs]%andb_true_iff Hd. simpl. by apply IH.
Qed.

Lemma all_chars_lower (p : ascii → bool) s :
  all_chars p (lower s) = all_chars (λ c, p (lower_char c)) s.
Proof. induction s as [|c s IH]; simpl; [done|]. by rewrite IH. Qed.

Lemma run_length_lower p s :
  run_length p (lower s) = run_length (λ c, p (lower_char c)) s.
Proof.
  induction s as [|c s IH]; simpl; [done|].
  destruct (p (lower_char c)); by rewrite ?IH.
Qed.

Lemma take_str_lower n s : take_str n (lower s) = lower (take_str n s).
Proof.
  revert s; induction n as [|n IH]; intros [|c s]; simpl; try done.
  by rewrite IH.
Qed.

Lemma run_length_ext p q s :
  all_chars (λ c, bool_decide (p c = q c)) s = true →
  run_length p s = run_length q s.
Proof.
  induction s as [|c s IH]; simpl; [done|].
  intros [Hc Hs]%andb_true_iff. apply bool_decide_eq_true in Hc.
  rewrite Hc. destruct (q c); by rewrite ?IH.
Qed.

(** Scanning the lowercased subject for runs of [p] is scanning the
    subject for runs of [p ∘ lower_char] and lowercasing the matches. *)
Lemma finditer_run_lower p s : ∀ skip prev prev' pos,
  finditer_from (run p) skip prev pos (lower s)
  = prod_map id lower
      <$> finditer_from (run (λ c, p (lower_char c))) skip prev' pos s.
Proof.
  induction s as [|c s IH]; intros skip prev prev' pos; [done|].
  assert (run p prev (lower (String c s))
          = run (λ c, p (lower_char c)) prev' (String c s)) as Hrun
    by (unfold run; by rewrite run_length_lower).
  pose proof (take_str_lower) as Htake.
  specialize (Htake) with (s := String c s).
  change (lower (String c s)) with (String (lower_char c) (lower s)) in *.
  cbn [finditer_from]. destruct skip as [|k]; [|apply IH].
  rewrite Hrun. destruct (run _ prev' _) as [n|]; [|apply IH].
  rewrite fmap_cons. f_equal; [|apply IH].
  unfold prod_map; simpl. f_equal. apply Htake.
Qed.

(** Runs of two character classes that agree on the subject are the
    same. *)
Lemma finditer_run_ext p q s : ∀ skip prev pos,
  all_chars (λ c, bool_decide (p c = q c)) s = true →
  finditer_from (run p) skip prev pos s = finditer_from (run q) skip prev pos s.
Proof.
  induction s as [|c s IH]; intros skip prev pos Hs; [done|].
  pose proof Hs as [Hc Hs']%andb_true_iff.
  cbn [finditer_from]. destruct skip as [|k]; [|by apply IH].
  unfold run. rewrite (run_length_ext p q _ Hs).
  destruct (run_length q _); rewrite IH; done.
Qed.

(** Every character outside the runs fails [p]; so a property of all
    runs extends to the subject. *)
Lemma finditer_run_cover p (P : ascii → bool) s : ∀ skip prev pos,
  Forall (λ m, all_chars P m.2 = true)
         (finditer_from (run p) skip prev pos s) →
  all_chars (λ c, negb (p c) || P c) (drop_str skip s) = true.
Proof.
  induction s as [|c s IH]; intros skip prev pos H.
  - by destruct skip.
  - cbn [finditer_from] in H. destruct skip as [|k].
    + unfold run in H. cbn [run_length] in H.
      destruct (p c) eqn:Hc.
      * apply Forall_cons in H as [Hm H]. simpl in Hm.
        apply andb_true_iff in Hm as [HPc Hm].
        apply IH in H. simpl. rewrite Hc, HPc. simpl.
        apply (all_chars_take_drop _ (run_length p s)); [|done].
        eapply all_chars_impl; [|exact Hm].
        intros d ->. apply orb_true_r.
      * apply IH in H. simpl in *. by rewrite Hc, H.
    + apply IH in H. done.
Qed.

Lemma finditer_run_none p s : ∀ skip prev pos,
  all_chars (λ c, negb (p c)) s = true →
  finditer_from (run p) skip prev pos s = [].
Proof.
  induction s as [|c s IH]; intros skip prev pos; simpl; [done|].
  intros [Hc Hs]%andb_true_iff. destruct skip; [|by apply IH].
  unfold run. simpl. apply negb_true_iff in Hc. rewrite Hc. by apply IH.
Qed.

(** The platform pattern needs a digit. *)
Lemma digits12_digit s n :
  digits12 s = Some n → all_chars (λ c, negb (is_digit c)) s = false.
Proof.
  destruct s as [|c [|d s]]; simpl; try done;
    destruct (is_digit c); done.
Qed.

Lemma sep_digits_digit s n :
  sep_digits s = Some n → all_chars (λ c, negb (is_digit c)) s = false.
Proof.
  destruct s as [|c s]; [done|]. unfold sep_digits.
  destruct (is_sep c).
  - destruct (digits12 s) as [k|] eqn:E.
    + intros _. apply digits12_digit in E. simpl. rewrite E.
      apply andb_false_r.
    + apply digits12_digit.
  - apply digits12_digit.
Qed.

Lemma platform_shape_digit prev s n :
  platform_shape prev s = Some n →
  all_chars (λ c, negb (is_digit c)) s = false.
Proof.
  destruct s as [|l1 s1]; [done|]. unfold platform_shape.
  destruct (is_az l1); [|done].
  assert (∀ k, sep_digits s1 = Some k →
               all_chars (λ c, negb (is_digit c)) (String l1 s1) = false)
    as H1.
  { intros k E%sep_digits_digit. simpl. rewrite E. apply andb_false_r. }
  destruct s1 as [|l2 s2].
  - simpl. done.
  - destruct (is_az l2).
    + destruct (sep_digits s2) as [k|] eqn:E.
      * intros _. apply sep_digits_digit in E. simpl. rewrite E.
        by rewrite !andb_false_r.
      * destruct (sep_digits (String l2 s2)) eqn:E2; [|done].
        intros _. by eapply H1.
    + destruct (sep_digits (String l2 s2)) eqn:E2; [|done].
      intros _. by eapply H1.
Qed.

Lemma finditer_platform_none s : ∀ skip prev pos,
  all_chars (λ c, negb (is_digit c)) s = true →
  finditer_from platform_shape skip prev pos s = [].
Proof.
  induction s as [|c s IH]; intros skip prev pos Hs; [done|].
  pose proof Hs as [Hc Hs']%andb_true_iff.
  cbn [finditer_from]. destruct skip; [|by apply IH].
  destruct (platform_shape prev (String c s)) eqn:E.
  - apply platform_shape_digit in E. congruence.
  - by apply IH.
Qed.

Lemma stopwords_lowercase_letters w :
  w ∈ STOPWORDS → all_chars is_az w = true.
Proof.
  unfold STOPWORDS. rewrite elem_of_list_to_set. revert w.
  apply Forall_forall. compute_done.
Qed.

Lemma stopword_only_letters query :
  stopword_only query →
  all_chars (λ c, is_space c || is_letter c) query = true.
Proof.
  intros Hw. unfold stopword_only, words, findall, finditer in Hw.
  rewrite Forall_fmap in Hw.
  eapply all_chars_impl;
    [|apply (finditer_run_cover not_space is_letter query 0 None 0)].
  - intros c. unfold not_space. by rewrite negb_involutive.
  - eapply Forall_impl; [exact Hw|]. intros m Hm. simpl in Hm.
    apply stopwords_lowercase_letters in Hm.
    rewrite all_chars_lower in Hm.
    eapply all_chars_impl; [|exact Hm]. apply lower_char_az.
Qed.

Lemma stopword_only_no_platform query :
  stopword_only query → findall platform_shape (lower query) = [].
Proof.
  intros Hl%stopword_only_letters. unfold findall, finditer.
  rewrite finditer_platform_none; [done|].
  rewrite all_chars_lower.
  eapply all_chars_impl; [|exact Hl].
  intros c Hc. by rewrite letter_or_space_no_digit.
Qed.

Lemma stopword_only_runs query :
  stopword_only query →
  findall alnum_run (lower query) = lower <$> words query.
Proof.
  intros Hl%stopword_only_letters. unfold words, findall, finditer, alnum_run.
  rewrite (finditer_run_lower is_alnum_lc query 0 None None 0).
  rewrite (finditer_run_ext (λ c, is_alnum_lc (lower_char c)) not_space).
  - rewrite <-!list_fmap_compose. by apply list_fmap_ext.
  - eapply all_chars_impl; [|exact Hl].
    intros c Hc. by rewrite letter_or_space_lower, bool_decide_eq_true_2.
Qed.

Lemma stopword_only_tokens query :
  stopword_only query → tokenize_query query = [].
Proof.
  intros Hw. unfold tokenize_query. cbv zeta.
  rewrite (stopword_only_no_platform _ Hw), (stopword_only_runs _ Hw).
  rewrite filter_none; [done|].
  intros t (w & -> & Hin)%list_elem_of_fmap [Hstop _].
  apply Hstop. unfold stopword_only in Hw. rewrite Forall_forall in Hw.
  by apply Hw.
Qed.

Lemma whitespace_only_words query :
  all_chars is_space query = true → words query = [].
Proof.
  intros Hs. unfold words, findall, finditer.
  rewrite finditer_run_none; [done|].
  eapply all_chars_impl; [|exact Hs].
  intros c Hc. unfold not_space. by rewrite Hc.
Qed.

(** C5: a query that is empty, or consists of whitespace only, or whose
    whitespace-separated words all are stopwords (in any letter case) is
    tokenized to the empty list, and ranking returns the empty list for
    every corpus and every limit; no chunk is scored, since a corpus with a
    chunk that cannot be scored changes nothing. *)
Theorem C5_no_content_words (query : string) :
  query = "" ∨ all_chars is_space query = true ∨ stopword_only query →
  tokenize_query query = [] ∧
  (∀ kb top_k, weighted_keyword_search query kb top_k = Ok []) ∧
  (∀ kb top_k c, c_text c = None →
     weighted_keyword_search query (c :: kb) top_k = Ok []).
Proof.
  intros H.
  assert (stopword_only query) as Hw.
  { destruct H as [->|[Hs|Hw]]; [|unfold stopword_only|done].
    - constructor.
    - rewrite (whitespace_only_words _ Hs). constructor. }
  pose proof (stopword_only_tokens _ Hw) as Ht.
  assert (∀ kb top_k, weighted_keyword_search query kb top_k = Ok []) as Hs.
  { intros kb top_k. unfold weighted_keyword_search. by rewrite Ht. }
  split_and!; [done|done|]. intros kb top_k c _. apply Hs.
Qed.

Lemma C5_no_content_words_witness :
  tokenize_query "What IS  the " = [] ∧
  weighted_keyword_search "What IS  the " [Samples.oil1; Samples.no_text] 3
  = Ok [].
Proof.
  assert (stopword_only "What IS  the ") as Hw.
  { compute_done. }
  pose proof (C5_no_content_words "What IS  the " (or_intror (or_intror Hw)))
    as (Ht & Hs & _).
  split; [exact Ht|apply Hs].
Defined.

(** ** Whole-word matches *)

Lemma whole_word_Some token prev s n :
  whole_word token prev s = Some n →
  n = len token ∧ boundary prev (head_char s) = true ∧
  startswith token s = true ∧
  boundary (last_char prev token) (head_char (drop_str (len token) s)) = true.
Proof.
  unfold whole_word.
  destruct (boundary prev (head_char s)); [|done].
  destruct (startswith token s); [|done].
  destruct (boundary _ _); [|done].
  by intros [= <-].
Qed.

Lemma token_char_not_space c : is_token_char c = true → c ≠ space.
Proof. intros H ->. by vm_compute in H. Qed.

Lemma token_char_lower c : is_token_char c = true → lower_char c = c.
Proof. by_cases_on_char c. Qed.

Lemma az_is_word c : is_az c = true → is_word c = true.
Proof. unfold is_word. by intros ->. Qed.

Lemma digit_is_word c : is_digit c = true → is_word c = true.
Proof. unfold is_word. intros ->. by rewrite !orb_true_r. Qed.

Lemma alnum_is_word c : is_alnum_lc c = true → is_word c = true.
Proof.
  unfold is_alnum_lc. intros [?|?]%orb_true_iff;
    auto using az_is_word, digit_is_word.
Qed.

Lemma alnum_is_token_char c : is_alnum_lc c = true → is_token_char c = true.
Proof. unfold is_alnum_lc, is_token_char. by intros ->. Qed.

Lemma token_lower t : all_chars is_token_char t = true → lower t = t.
Proof.
  induction t as [|c t IH]; simpl; [done|].
  intros [Hc Ht]%andb_true_iff. by rewrite (token_char_lower c Hc), IH.
Qed.

(** Behind the subject, a space and further text change no match that
    starts inside the subject. *)
Lemma startswith_app_space token s ext :
  all_chars is_token_char token = true →
  startswith token (s +:+ String space ext) = startswith token s.
Proof.
  revert s. induction token as [|a token IH]; intros s Ht; [done|].
  apply andb_true_iff in Ht as [Ha Ht].
  destruct s as [|b s].
  - rewrite app_nil_str. simpl.
    rewrite bool_decide_eq_false_2; [done|].
    by apply token_char_not_space.
  - rewrite app_cons_str. simpl. by rewrite IH.
Qed.

Lemma after_match_app_space token s ext :
  startswith token s = true →
  word_opt (head_char (drop_str (len token) (s +:+ String space ext)))
  = word_opt (head_char (drop_str (len token) s)).
Proof.
  unfold len. revert s. induction token as [|a token IH]; intros s.
  - intros _. simpl. by destruct s.
  - destruct s as [|b s]; [done|]. simpl.
    intros [_ H]%andb_true_iff. by apply IH.
Qed.

Lemma whole_word_app_space token prev c s ext :
  all_chars is_token_char token = true →
  whole_word token prev (String c s +:+ String space ext)
  = whole_word token prev (String c s).
Proof.
  intros Ht. unfold whole_word.
  rewrite startswith_app_space by done.
  destruct (startswith token (String c s)) eqn:E.
  - unfold boundary at 2 4. by rewrite after_match_app_space.
  - by rewrite !andb_false_r.
Qed.

Lemma finditer_length_pos m s : ∀ skip prev pos pos',
  length (finditer_from m skip prev pos s)
  = length (finditer_from m skip prev pos' s).
Proof.
  induction s as [|c s IH]; intros skip prev pos pos'; [done|].
  cbn [finditer_from]. destruct skip; [|apply IH].
  destruct (m prev _); [|apply IH]. simpl. f_equal. apply IH.
Qed.

Lemma finditer_skip_all m s : ∀ skip prev pos,
  (len s ≤ skip)%nat → finditer_from m skip prev pos s = [].
Proof.
  unfold len. induction s as [|c s IH]; intros skip prev pos Hs; [done|].
  cbn [finditer_from]. destruct skip; simpl in Hs; [lia|].
  apply IH. lia.
Qed.

(** The matches in [s ++ " " ++ ext] are those in [s] followed by those
    in [" " ++ ext]. *)
Lemma count_app_space token s ext :
  all_chars is_token_char token = true →
  ∀ skip prev pos,
  (skip ≤ len s)%nat →
  length (finditer_from (whole_word token) skip prev pos
            (s +:+ String space ext))
  = (length (finditer_from (whole_word token) skip prev pos s)
     + length (finditer_from (whole_word token) 0 (last_char prev s) 0
                 (String space ext)))%nat.
Proof.
  intros Ht. unfold len.
  induction s as [|c s IH]; intros skip prev pos Hskip.
  - simpl in Hskip. assert (skip = 0%nat) as -> by lia.
    rewrite app_nil_str. change (last_char prev "") with prev.
    by rewrite (finditer_length_pos _ _ 0 prev pos 0).
  - rewrite app_cons_str.
    cbn [finditer_from last_char]. simpl in Hskip.
    destruct skip as [|k]; [|apply IH; lia].
    rewrite <-app_cons_str, whole_word_app_space by done.
    destruct (whole_word token prev (String c s)) as [n|] eqn:E.
    + apply whole_word_Some in E as (-> & _ & Hsw & _).
      apply startswith_len in Hsw. unfold len in *. simpl in Hsw.
      cbn [length]. rewrite IH by lia. done.
    + apply IH. lia.
Qed.

Lemma startswith_refl s : startswith s s = true.
Proof.
  induction s as [|c s IH]; simpl; [done|].
  by rewrite bool_decide_eq_true_2.
Qed.

Lemma drop_str_all s : drop_str (len s) s = "".
Proof. unfold len. induction s; simpl; auto. Qed.

Lemma last_char_shape d t :
  word_opt (last_char None t) = true → last_char d t = last_char None t.
Proof. destruct t as [|c t]; simpl; done. Qed.

(** In [" " ++ token] the token is matched once. *)
Lemma count_space_token token prev :
  token_shape token = true →
  length (finditer_from (whole_word token) 0 prev 0 (String space token))
  = 1%nat.
Proof.
  unfold token_shape.
  intros [[Hh Hl]%andb_true_iff Hc]%andb_true_iff.
  destruct token as [|a token]; [done|].
  cbn [finditer_from].
  assert (whole_word (String a token) prev (String space (String a token))
          = None) as ->.
  { unfold whole_word. simpl startswith.
    rewrite bool_decide_eq_false_2; [by rewrite andb_false_r|].
    apply andb_true_iff in Hc as [Ha _].
    by apply token_char_not_space. }
  cbn [finditer_from].
  assert (whole_word (String a token) (Some space) (String a token)
          = Some (len (String a token))) as ->.
  { unfold whole_word. rewrite startswith_refl, drop_str_all.
    rewrite (last_char_shape _ _ Hl).
    unfold boundary. simpl in Hh. cbn [head_char word_opt].
    rewrite Hh, Hl. done. }
  cbn [length]. rewrite finditer_skip_all; [done|].
  unfold len; simpl; lia.
Qed.

Lemma count_matches_append token t text_lower :
  all_chars is_token_char t = true →
  count_matches t text_lower
  ≤ count_matches t (text_lower +:+ String space token).
Proof.
  intros Ht. unfold count_matches, findall, finditer.
  rewrite !length_fmap, (count_app_space t text_lower token Ht) by lia.
  lia.
Qed.

Lemma count_matches_append_self token text_lower :
  token_shape token = true →
  count_matches token (text_lower +:+ String space token)
  = count_matches token text_lower + 1.
Proof.
  intros Ht. pose proof Ht as [_ Hc]%andb_true_iff.
  unfold count_matches, findall, finditer.
  rewrite !length_fmap, (count_app_space token text_lower token Hc) by lia.
  rewrite (count_space_token _ _ Ht). lia.
Qed.

(** ** The shape of query tokens *)

Lemma finditer_from_elem (m : matcher) x s : ∀ skip prev pos,
  x ∈ finditer_from m skip prev pos s →
  ∃ prev' s' n, m prev' s' = Some n ∧ x.2 = take_str n s'.
Proof.
  induction s as [|c s IH]; intros skip prev pos Hx.
  - by apply elem_of_nil in Hx.
  - cbn [finditer_from] in Hx. destruct skip; [|by eapply IH].
    destruct (m prev (String c s)) as [n|] eqn:E; [|by eapply IH].
    apply elem_of_cons in Hx as [->|Hx]; [|by eapply IH].
    by exists prev, (String c s), n.
Qed.

Lemma last_char_word d t :
  word_opt d = true → all_chars is_word t = true →
  word_opt (last_char d t) = true.
Proof.
  revert d. induction t as [|c t IH]; intros d Hd; simpl; [done|].
  intros [Hc Ht]%andb_true_iff. by apply IH.
Qed.

Lemma run_take_all p s : all_chars p (take_str (run_length p s) s) = true.
Proof.
  induction s as [|c s IH]; simpl; [done|].
  destruct (p c) eqn:E; simpl; [|done]. by rewrite E, IH.
Qed.

Lemma alnum_run_shape prev s n :
  alnum_run prev s = Some n → token_shape (take_str n s) = true.
Proof.
  unfold alnum_run, run.
  destruct (run_length is_alnum_lc s) as [|k] eqn:E; [done|].
  intros [= <-]. rewrite <-E.
  pose proof (run_take_all is_alnum_lc s) as Hall.
  destruct s as [|c s]; [done|]. simpl in *.
  destruct (is_alnum_lc c) eqn:Hc; [|done]. simpl in *.
  rewrite Hc in Hall. simpl in Hall.
  unfold token_shape. simpl.
  rewrite (alnum_is_word c Hc), (alnum_is_token_char c Hc). simpl.
  rewrite last_char_word; simpl.
  - eapply all_chars_impl; [|exact Hall]. apply alnum_is_token_char.
  - by apply alnum_is_word.
  - eapply all_chars_impl; [|exact Hall]. apply alnum_is_word.
Qed.

Lemma digit_is_token_char c : is_digit c = true → is_token_char c = true.
Proof. unfold is_token_char. intros ->. by rewrite orb_true_r. Qed.

Lemma digits12_tail s n : digits12 s = Some n → tail_ok (take_str n s).
Proof.
  destruct s as [|c [|d s]]; simpl; try done.
  - destruct (is_digit c) eqn:Hc; [|done]. intros [= <-]. split; simpl.
    + by rewrite (digit_is_token_char c Hc).
    + intros _. by apply digit_is_word.
  - destruct (is_digit c) eqn:Hc; [|done].
    destruct (is_digit d) eqn:Hd; intros [= <-]; split; simpl.
    + by rewrite (digit_is_token_char c Hc), (digit_is_token_char d Hd).
    + intros _. by apply digit_is_word.
    + by rewrite (digit_is_token_char c Hc).
    + intros _. by apply digit_is_word.
Qed.

Lemma tail_ok_cons c t :
  is_token_char c = true → tail_ok t → tail_ok (String c t).
Proof.
  intros Hc [Ht Hl]. split; simpl; [by rewrite Hc, Ht|]. intros _. apply Hl.
Qed.

Lemma sep_is_token_char c : is_sep c = true → is_token_char c = true.
Proof. unfold is_token_char. intros ->. by rewrite orb_true_r. Qed.

Lemma az_is_token_char c : is_az c = true → is_token_char c = true.
Proof. unfold is_token_char. by intros ->. Qed.

Lemma sep_digits_tail s n : sep_digits s = Some n → tail_ok (take_str n s).
Proof.
  destruct s as [|c s]; [done|]. unfold sep_digits.
  destruct (is_sep c) eqn:Hc; [|apply digits12_tail].
  destruct (digits12 s) as [k|] eqn:E; [|apply digits12_tail].
  intros [= <-]. simpl. apply tail_ok_cons.
  - by apply sep_is_token_char.
  - by apply digits12_tail.
Qed.

Lemma letter_tail_shape c t :
  is_az c = true → tail_ok t → token_shape (String c t) = true.
Proof.
  intros Hc [Ht Hl]. unfold token_shape. simpl.
  by rewrite (az_is_word c Hc), Hl, (az_is_token_char c Hc), Ht.
Qed.

Lemma platform_shape_shape prev s n :
  platform_shape prev s = Some n → token_shape (take_str n s) = true.
Proof.
  destruct s as [|l1 s1]; [done|]. unfold platform_shape.
  destruct (is_az l1) eqn:H1; [|done].
  assert (∀ k, sep_digits s1 = Some k →
               token_shape (take_str (S k) (String l1 s1)) = true) as Hone.
  { intros k E%sep_digits_tail. simpl. by apply letter_tail_shape. }
  destruct s1 as [|l2 s2]; [done|].
  destruct (is_az l2) eqn:H2.
  - destruct (sep_digits s2) as [k|] eqn:E.
    + intros [= <-]. apply sep_digits_tail in E. simpl.
      apply letter_tail_shape; [done|].
      apply tail_ok_cons; [by apply az_is_token_char|done].
    + destruct (sep_digits (String l2 s2)) as [k|] eqn:E2; [|done].
      intros [= <-]. by apply Hone.
  - destruct (sep_digits (String l2 s2)) as [k|] eqn:E2; [|done].
    intros [= <-]. by apply Hone.
Qed.

Lemma dedup_step_subset st t x :
  x ∈ (dedup_step st t).2 → x ∈ st.2 ∨ x = t.
Proof.
  unfold dedup_step. case_decide; simpl; [by left|].
  intros [?|?%list_elem_of_singleton]%elem_of_app; auto.
Qed.

Lemma dedup_subset l x : x ∈ dedup l → x ∈ l.
Proof.
  unfold dedup.
  assert (∀ st, x ∈ (foldl dedup_step st l).2 → x ∈ st.2 ∨ x ∈ l) as H.
  { induction l as [|t l IH]; intros st; simpl; [by left|].
    intros [[?| ->]%dedup_step_subset|?]%IH.
    - by left.
    - right. by left.
    - right. by right. }
  intros [Hx|Hx]%H; [|done]. by apply elem_of_nil in Hx.
Qed.

(** Every token of a query is a well-shaped token. *)
Lemma tokenize_shape query t :
  t ∈ tokenize_query query → token_shape t = true.
Proof.
  unfold tokenize_query. cbv zeta.
  intros [Hp|Hr]%dedup_subset%elem_of_app.
  - unfold findall in Hp. apply list_elem_of_fmap in Hp as (x & -> & Hx).
    apply finditer_from_elem in Hx as (prev' & s' & n & Hm & ->).
    by eapply platform_shape_shape.
  - apply list_elem_of_filter in Hr as [_ Hr].
    unfold findall in Hr. apply list_elem_of_fmap in Hr as (x & -> & Hx).
    apply finditer_from_elem in Hx as (prev' & s' & n & Hm & ->).
    by eapply alnum_run_shape.
Qed.

(** ** Counted matches are whole-word occurrences *)

Lemma startswith_split token s :
  startswith token s = true →
  s = token +:+ drop_str (len token) s ∧ take_str (len token) s = token.
Proof.
  unfold len. revert s. induction token as [|a token IH]; intros s.
  - intros _. split; [done|]. by destruct s.
  - destruct s as [|b s]; [done|]. simpl.
    intros [->%bool_decide_eq_true H]%andb_true_iff.
    destruct (IH s H) as [Hs Ht]. rewrite app_cons_str. split.
    + by rewrite <-Hs.
    + by rewrite Ht.
Qed.

Lemma startswith_head token s :
  startswith token s = true → token ≠ "" → head_char s = head_char token.
Proof.
  destruct token as [|a token]; [done|]. destruct s as [|b s]; [done|].
  simpl. by intros [->%bool_decide_eq_true _]%andb_true_iff.
Qed.

Lemma finditer_whole_word token s :
  word_opt (head_char token) = true →
  word_opt (last_char None token) = true →
  ∀ skip prev pos x,
  x ∈ finditer_from (whole_word token) skip prev pos s →
  ∃ a b, s = a +:+ token +:+ b ∧ x = ((pos + len a)%nat, token) ∧
         word_opt (last_char prev a) = false ∧
         word_opt (head_char b) = false.
Proof.
  intros Hh Hl.
  assert (token ≠ "") as Hne by (by intros ->).
  induction s as [|c s IH]; intros skip prev pos x Hx.
  - by apply elem_of_nil in Hx.
  - assert (∀ k, x ∈ finditer_from (whole_word token) k (Some c) (S pos) s →
      ∃ a b, String c s = a +:+ token +:+ b
             ∧ x = ((pos + len a)%nat, token)
             ∧ word_opt (last_char prev a) = false
             ∧ word_opt (head_char b) = false) as Hrest.
    { intros k (a & b & -> & -> & Ha & Hb)%IH.
      exists (String c a), b. rewrite app_cons_str. split_and!; try done.
      unfold len. simpl. f_equal. lia. }
    cbn [finditer_from] in Hx. destruct skip; [|by eapply Hrest].
    destruct (whole_word token prev (String c s)) as [n|] eqn:E;
      [|by eapply Hrest].
    apply elem_of_cons in Hx as [->|Hx]; [|by eapply Hrest].
    apply whole_word_Some in E as (-> & Hb1 & Hsw & Hb2).
    destruct (startswith_split _ _ Hsw) as [Hs Ht].
    exists "", (drop_str (len token) (String c s)).
    rewrite app_nil_str, Ht. split_and!.
    + done.
    + unfold len at 1. simpl. by rewrite Nat.add_0_r.
    + unfold boundary in Hb1.
      rewrite (startswith_head _ _ Hsw Hne), Hh in Hb1. simpl.
      by destruct (word_opt prev).
    + unfold boundary in Hb2. rewrite (last_char_shape _ _ Hl), Hl in Hb2.
      by destruct (word_opt (head_char (drop_str _ _))).
Qed.

Lemma all_chars_app p a b :
  all_chars p (a +:+ b) = all_chars p a && all_chars p b.
Proof.
  induction a as [|c a IH]; [done|].
  rewrite app_cons_str. simpl. by rewrite IH, andb_assoc.
Qed.

Lemma app_nil_r_str s : s +:+ "" = s.
Proof. induction s as [|c s IH]; [done|]. by rewrite app_cons_str, IH. Qed.

Lemma all_word_head b :
  all_chars is_word b = true → word_opt (head_char b) = false → b = "".
Proof.
  destruct b as [|c b]; [done|]. simpl.
  intros [Hc _]%andb_true_iff. congruence.
Qed.

Lemma all_word_last a :
  all_chars is_word a = true → word_opt (last_char None a) = false → a = "".
Proof.
  destruct a as [|c a]; [done|]. simpl.
  intros [Hc Ha]%andb_true_iff H.
  by rewrite (last_char_word (Some c) a) in H.
Qed.

(** Inside a longer word a token has no match. *)
Lemma count_matches_inside_word token w :
  token_shape token = true →
  all_chars is_word w = true → w ≠ token → count_matches token w = 0.
Proof.
  unfold token_shape.
  intros [[Hh Hl]%andb_true_iff _]%andb_true_iff Hw Hne.
  unfold count_matches, findall, finditer.
  destruct (finditer_from (whole_word token) 0 None 0 w) as [|x l] eqn:E;
    [done|].
  assert (x ∈ finditer_from (whole_word token) 0 None 0 w) as Hx
    by (rewrite E; left).
  apply (finditer_whole_word _ _ Hh Hl) in Hx as (a & b & -> & _ & Ha & Hb).
  rewrite !all_chars_app in Hw.
  apply andb_true_iff in Hw as [Hwa [_ Hwb]%andb_true_iff].
  rewrite (all_word_last a Hwa Ha), (all_word_head b Hwb Hb) in Hne.
  by rewrite app_nil_str, app_nil_r_str in Hne.
Qed.

(** ** Monotonicity in keyword coverage *)

Lemma keyword_total_cons t toks tl :
  keyword_total (t :: toks) tl = count_matches t tl + keyword_total toks tl.
Proof.
  unfold keyword_total, keyword_loop. simpl.
  fold (keyword_loop toks tl (0 + count_matches t tl)).
  fold (keyword_loop toks tl 0).
  rewrite keyword_loop_shift. lia.
Qed.

Lemma keyword_total_mono toks tl tl' :
  (∀ t, t ∈ toks → count_matches t tl ≤ count_matches t tl') →
  keyword_total toks tl ≤ keyword_total toks tl'.
Proof.
  induction toks as [|t toks IH]; intros H; [done|].
  rewrite !keyword_total_cons.
  pose proof (H t ltac:(by left)).
  assert (keyword_total toks tl ≤ keyword_total toks tl')
    by (apply IH; intros; apply H; by right).
  lia.
Qed.

Lemma keyword_total_strict toks tl tl' token :
  (∀ t, t ∈ toks → count_matches t tl ≤ count_matches t tl') →
  token ∈ toks →
  count_matches token tl + 1 ≤ count_matches token tl' →
  keyword_total toks tl + 1 ≤ keyword_total toks tl'.
Proof.
  induction toks as [|t toks IH]; intros H Hin Hstep.
  - by apply elem_of_nil in Hin.
  - rewrite !keyword_total_cons.
    assert (∀ t', t' ∈ toks → count_matches t' tl ≤ count_matches t' tl')
      as H' by (intros; apply H; by right).
    apply elem_of_cons in Hin as [->|Hin].
    + pose proof (keyword_total_mono toks tl tl' H'). lia.
    + pose proof (H t ltac:(by left)). pose proof (IH H' Hin Hstep). lia.
Qed.

Lemma phrase_delta_app toks tl ext :
  phrase_delta toks tl ≤ phrase_delta toks (tl +:+ ext).
Proof.
  pose proof (phrase_delta_range toks (tl +:+ ext)) as Hr.
  unfold phrase_delta, phrase_step in *.
  destruct (2 <=? length toks)%nat; [|done]. cbv zeta in *.
  destruct (contains _ tl) eqn:E; [|lia].
  by rewrite (contains_app _ _ ext E).
Qed.

Lemma lower_append_token text token :
  all_chars is_token_char token = true →
  lower (text +:+ " " +:+ token) = lower text +:+ String space token.
Proof.
  intros Ht. rewrite lower_app.
  change (" " +:+ token) with (String space token).
  change (lower (String space token)) with (String space (lower token)).
  by rewrite (token_lower token).
Qed.

(** C7: appending a space and a query token to a chunk's text adds
    exactly one match of that token, removes no match of any query token
    and keeps a present phrase, so the chunk's score grows (by one at
    least).  Every counted match of a query token is an occurrence of the
    token whose neighbours in the text, if any, are not word
    characters; a word that properly contains the token counts
    nothing.  More generally the score does not decrease under any change
    of the text that lowers no token's count and keeps the phrase
    bonus. *)
Theorem C7_keyword_monotone (query : string) (c : chunk)
    (text token : string) :
  c_text c = Some text →
  token ∈ tokenize_query query →
  let query_lower := lower query in
  let query_tokens := tokenize_query query in
  let text' := text +:+ " " +:+ token in
  count_matches token (lower text') = count_matches token (lower text) + 1 ∧
  (∀ t, t ∈ query_tokens →
        count_matches t (lower text) ≤ count_matches t (lower text')) ∧
  (∃ s s', score_chunk query_lower query_tokens c = Ok s
           ∧ score_chunk query_lower query_tokens (with_text c text') = Ok s'
           ∧ s + 1 ≤ s') ∧
  (∀ t pos m, t ∈ query_tokens →
     (pos, m) ∈ finditer (whole_word t) (lower text) →
     ∃ a b, lower text = a +:+ t +:+ b ∧ pos = len a ∧ m = t
            ∧ word_opt (last_char None a) = false
            ∧ word_opt (head_char b) = false) ∧
  (∀ t w, t ∈ query_tokens → all_chars is_word w = true → w ≠ t →
          count_matches t w = 0) ∧
  (∀ text2,
     (∀ t, t ∈ query_tokens →
           count_matches t (lower text) ≤ count_matches t (lower text2)) →
     phrase_delta query_tokens (lower text)
     ≤ phrase_delta query_tokens (lower text2) →
     ∃ s s2, score_chunk query_lower query_tokens c = Ok s
             ∧ score_chunk query_lower query_tokens (with_text c text2) = Ok s2
             ∧ s ≤ s2).
Proof.
  intros Htext Hin ql toks text'.
  pose proof (tokenize_shape _ _ Hin) as Hshape.
  pose proof Hshape as [_ Hchars]%andb_true_iff.
  assert (lower text' = lower text +:+ String space token) as Hlow
    by (by apply lower_append_token).
  assert (∀ t, t ∈ toks →
            count_matches t (lower text) ≤ count_matches t (lower text'))
    as Hmono.
  { intros t [_ Ht]%tokenize_shape%andb_true_iff.
    rewrite Hlow. by apply count_matches_append. }
  assert (count_matches token (lower text')
          = count_matches token (lower text) + 1) as Hself
    by (rewrite Hlow; by apply count_matches_append_self).
  split_and!.
  - exact Hself.
  - exact Hmono.
  - exists (score_of ql toks c), (score_of ql toks (with_text c text')).
    rewrite !score_chunk_ok by (by eexists). split_and!; try done.
    unfold score_of, with_text, get_platform. rewrite Htext. simpl.
    rewrite !score_text_parts.
    pose proof (keyword_total_strict toks (lower text) (lower text') token
                  Hmono Hin ltac:(lia)).
    pose proof (phrase_delta_app toks (lower text) (String space token)).
    rewrite <-Hlow in *. lia.
  - intros t pos m [[Hh Hl]%andb_true_iff _]%tokenize_shape%andb_true_iff Hm.
    apply (finditer_whole_word _ _ Hh Hl) in Hm
      as (a & b & Hs & [= -> ->] & Ha & Hb).
    by exists a, b.
  - intros t w Ht%tokenize_shape. by apply count_matches_inside_word.
  - intros text2 Hcount Hphrase.
    exists (score_of ql toks c), (score_of ql toks (with_text c text2)).
    rewrite !score_chunk_ok by (by eexists). split_and!; try done.
    unfold score_of, with_text, get_platform. rewrite Htext. simpl.
    rewrite !score_text_parts.
    pose proof (keyword_total_mono toks (lower text) (lower text2) Hcount).
    lia.
Qed.

Lemma C7_keyword_monotone_witness :
  count_matches "oil" (lower ("Inspect the boiler." +:+ " " +:+ "oil"))
  = count_matches "oil" (lower "Inspect the boiler.") + 1.
Proof.
  apply (C7_keyword_monotone "AH-1 oil pressure"
           (Chunk (Some "doc9_p1") (Some "Inspect the boiler.") (Some "i.pdf")
                  (Some 9) (Some "AH-1"))
           "Inspect the boiler." "oil" eq_refl).
  assert (tokenize_query "AH-1 oil pressure" = ["ah-1"; "oil"; "pressure"])
    as -> by (vm_compute; reflexivity).
  by right; left.
Defined.

(** ** The token list: distinct, ordered, well formed *)

Lemma dedup_fold_inv l : ∀ st : gset string * list string,
  NoDup st.2 → (∀ x, x ∈ st.1 ↔ x ∈ st.2) →
  NoDup (foldl dedup_step st l).2 ∧
  (∀ x, x ∈ (foldl dedup_step st l).2 ↔ x ∈ st.2 ∨ x ∈ l) ∧
  st.2 `prefix_of` (foldl dedup_step st l).2.
Proof.
  induction l as [|t l IH]; intros st Hnd Hseen; simpl.
  - split_and!; [done| |done]. intros x. rewrite elem_of_nil. tauto.
  - assert (NoDup (dedup_step st t).2 ∧
            (∀ x, x ∈ (dedup_step st t).1 ↔ x ∈ (dedup_step st t).2) ∧
            (∀ x, x ∈ (dedup_step st t).2 ↔ x ∈ st.2 ∨ x = t) ∧
            st.2 `prefix_of` (dedup_step st t).2) as (Hnd' & Hseen' & Hel & Hpre).
    { unfold dedup_step. destruct (decide (t ∈ st.1)) as [Hin|Hin]; simpl.
      - split_and!; [done|done| |done].
        intros x. split; [tauto|]. intros [?| ->]; [done|]. by apply Hseen.
      - split_and!.
        + apply NoDup_app. split_and!; [done| |apply NoDup_singleton].
          intros x Hx ->%list_elem_of_singleton. by apply Hin, Hseen.
        + intros x. rewrite elem_of_union, elem_of_singleton, elem_of_app,
            list_elem_of_singleton, Hseen. tauto.
        + intros x. by rewrite elem_of_app, list_elem_of_singleton.
        + by apply prefix_app_r. }
    destruct (IH _ Hnd' Hseen') as (H1 & H2 & H3).
    split_and!; [done| |by etrans].
    intros x. rewrite H2, Hel, elem_of_cons. tauto.
Qed.

Lemma dedup_spec l :
  NoDup (dedup l) ∧ (∀ x, x ∈ dedup l ↔ x ∈ l).
Proof.
  destruct (dedup_fold_inv l (∅, [])) as (H1 & H2 & _); simpl.
  - constructor.
  - intros x. rewrite elem_of_nil, elem_of_empty. tauto.
  - split; [done|]. intros x. unfold dedup. rewrite H2. simpl.
    rewrite elem_of_nil. tauto.
Qed.

Lemma dedup_app_prefix l1 l2 : dedup l1 `prefix_of` dedup (l1 ++ l2).
Proof.
  unfold dedup. rewrite foldl_app.
  destruct (dedup_fold_inv l1 (∅, [])) as (H1 & H2 & _); simpl.
  { constructor. }
  { intros x. rewrite elem_of_nil, elem_of_empty. tauto. }
  apply dedup_fold_inv; [done|].
  clear H1 H2.
  assert (∀ st : gset string * list string,
            (∀ x, x ∈ st.1 ↔ x ∈ st.2) →
            ∀ x, x ∈ (foldl dedup_step st l1).1
                 ↔ x ∈ (foldl dedup_step st l1).2) as H.
  { induction l1 as [|t l1 IH]; intros st Hst; simpl; [done|].
    apply IH. unfold dedup_step. case_decide; simpl; [done|].
    intros x. rewrite elem_of_union, elem_of_singleton, elem_of_app,
      list_elem_of_singleton, Hst. tauto. }
  apply H. simpl. intros x. rewrite elem_of_nil, elem_of_empty. tauto.
Qed.

Lemma run_Some p prev s n :
  run p prev s = Some n → n = run_length p s ∧ n ≠ 0%nat.
Proof. unfold run. destruct (run_length p s); [done|]. by intros [= <-]. Qed.

Lemma all_chars_head p c t : all_chars p (String c t) = true → p c = true.
Proof. simpl. by intros [? _]%andb_true_iff. Qed.

Lemma all_chars_last p t : ∀ d c,
  all_chars p t = true → (∀ x, d = Some x → p x = true) →
  last_char d t = Some c → p c = true.
Proof.
  induction t as [|x t IH]; intros d c; simpl.
  - intros _ Hd ->. by apply Hd.
  - intros [Hx Ht]%andb_true_iff _. apply IH; [done|]. by intros ? [= <-].
Qed.

(** The components of platform tokens are runs of letters or runs of
    digits. *)
Lemma platform_parts_elem x pts :
  x ∈ platform_parts_of pts →
  x ≠ "" ∧ (all_chars is_az x = true ∨ all_chars is_digit x = true).
Proof.
  unfold platform_parts_of.
  assert (∀ acc : gset string,
    x ∈ foldl (λ parts pt,
                 parts ∪ list_to_set (findall letters_or_digits pt)) acc pts →
    x ∈ acc ∨ ∃ pt, x ∈ findall letters_or_digits pt) as H.
  { induction pts as [|pt pts IH]; intros acc; simpl; [by left|].
    intros [[?|?%elem_of_list_to_set]%elem_of_union|?]%IH; eauto. }
  intros Hx. apply H in Hx as [Hx|[pt Hx]]; [by apply elem_of_empty in Hx|].
  unfold findall in Hx. apply list_elem_of_fmap in Hx as (m & -> & Hm).
  apply finditer_from_elem in Hm as (prev' & s' & n & Hn & ->).
  unfold letters_or_digits in Hn.
  destruct (run is_az prev' s') as [k|] eqn:E.
  - injection Hn as <-. apply run_Some in E as [-> Hk]. split.
    + destruct s' as [|c s']; [done|]. simpl in *. by destruct (is_az c).
    + left. apply run_take_all.
  - apply run_Some in Hn as [-> Hk]. split.
    + destruct s' as [|c s']; [done|]. simpl in *. by destruct (is_digit c).
    + right. apply run_take_all.
Qed.

Lemma digits12_last s n d0 :
  digits12 s = Some n →
  ∃ d, last_char d0 (take_str n s) = Some d ∧ is_digit d = true.
Proof.
  destruct s as [|c [|e s]]; simpl; try done.
  - destruct (is_digit c) eqn:Hc; [|done]. intros [= <-]. eauto.
  - destruct (is_digit c) eqn:Hc; [|done].
    destruct (is_digit e) eqn:He; intros [= <-]; simpl; eauto.
Qed.

Lemma sep_digits_last s n d0 :
  sep_digits s = Some n →
  ∃ d, last_char d0 (take_str n s) = Some d ∧ is_digit d = true.
Proof.
  destruct s as [|c s]; [done|]. unfold sep_digits.
  destruct (is_sep c); [|apply digits12_last].
  destruct (digits12 s) as [k|] eqn:E; [|apply digits12_last].
  intros [= <-]. simpl. by eapply digits12_last.
Qed.

(** A platform-shaped match starts with a letter and ends with a
    digit. *)
Lemma platform_shape_ends prev s n :
  platform_shape prev s = Some n →
  ∃ c t d, take_str n s = String c t ∧ is_az c = true ∧
           last_char (Some c) t = Some d ∧ is_digit d = true.
Proof.
  destruct s as [|l1 s1]; [done|]. unfold platform_shape.
  destruct (is_az l1) eqn:H1; [|done].
  assert (∀ k, sep_digits s1 = Some k →
    ∃ c t d, take_str (S k) (String l1 s1) = String c t ∧ is_az c = true ∧
             last_char (Some c) t = Some d ∧ is_digit d = true) as Hone.
  { intros k E. destruct (sep_digits_last _ _ (Some l1) E) as (d & ? & ?).
    exists l1, (take_str k s1), d. done. }
  destruct s1 as [|l2 s2]; [done|].
  destruct (is_az l2) eqn:H2.
  - destruct (sep_digits s2) as [k|] eqn:E.
    + intros [= <-].
      destruct (sep_digits_last _ _ (Some l2) E) as (d & ? & ?).
      exists l1, (String l2 (take_str k s2)), d. done.
    + destruct (sep_digits (String l2 s2)) as [k|] eqn:E2; [|done].
      intros [= <-]. by apply Hone.
  - destruct (sep_digits (String l2 s2)) as [k|] eqn:E2; [|done].
    intros [= <-]. by apply Hone.
Qed.

Lemma az_not_digit c : is_az c = true → is_digit c = false.
Proof. by_cases_on_char c. Qed.

Lemma platform_token_facts ql t :
  t ∈ findall platform_shape ql →
  (2 ≤ len t)%nat ∧ all_chars is_az t = false ∧ all_chars is_digit t = false.
Proof.
  unfold findall. intros (m & -> & Hm)%list_elem_of_fmap.
  apply finditer_from_elem in Hm as (prev' & s' & n & Hn & ->).
  apply platform_shape_ends in Hn as (c & t & d & -> & Hc & Hl & Hd).
  split_and!.
  - destruct t as [|e t]; unfold len; simpl; [|lia].
    simpl in Hl. injection Hl as <-. by rewrite (az_not_digit c Hc) in Hd.
  - apply not_true_is_false. intros Hall.
    pose proof (all_chars_last is_az t (Some c) d) as H.
    simpl in Hall. apply andb_true_iff in Hall as [_ Hall].
    rewrite (az_not_digit d) in Hd; [done|].
    apply H; [done| |done]. by intros ? [= <-].
  - simpl. by rewrite (az_not_digit c Hc).
Qed.

Lemma tokenize_elem query t :
  t ∈ tokenize_query query ↔
  t ∈ findall platform_shape (lower query) ∨
  (t ∈ findall alnum_run (lower query) ∧
   keep_regular (platform_parts_of (findall platform_shape (lower query))) t).
Proof.
  unfold tokenize_query. cbv zeta.
  rewrite (proj2 (dedup_spec _)), elem_of_app, list_elem_of_filter. tauto.
Qed.

(** X1: the token list has no duplicates, it holds exactly the
    platform-shaped matches and the kept alphanumeric runs, and the
    platform-shaped matches come first. *)
Theorem X1_tokens_distinct_ordered (query : string) :
  NoDup (tokenize_query query) ∧
  (∀ t, t ∈ tokenize_query query ↔
        t ∈ findall platform_shape (lower query) ∨
        (t ∈ findall alnum_run (lower query) ∧ (t ∉ STOPWORDS) ∧
         (1 < len t)%nat ∧
         (t ∉ platform_parts_of (findall platform_shape (lower query))))) ∧
  dedup (findall platform_shape (lower query))
    `prefix_of` tokenize_query query.
Proof.
  split_and!.
  - apply dedup_spec.
  - apply tokenize_elem.
  - apply dedup_app_prefix.
Qed.

Lemma last_char_some d t : is_Some (last_char (Some d) t).
Proof. revert d. induction t as [|c t IH]; intros d; simpl; eauto. Qed.

Lemma alnum_run_ends ql t :
  t ∈ findall alnum_run ql →
  alnum_opt (head_char t) = true ∧ alnum_opt (last_char None t) = true.
Proof.
  unfold findall. intros (m & -> & Hm)%list_elem_of_fmap.
  apply finditer_from_elem in Hm as (prev' & s' & n & Hn & ->).
  apply run_Some in Hn as [-> Hn].
  pose proof (run_take_all is_alnum_lc s') as Hall.
  destruct (take_str (run_length is_alnum_lc s') s') as [|c t] eqn:E.
  { destruct s' as [|c s']; [done|]. simpl in *.
    by destruct (is_alnum_lc c). }
  split.
  - simpl. by eapply all_chars_head.
  - destruct (last_char_some c t) as [d El].
    change (last_char None (String c t)) with (last_char (Some c) t).
    rewrite El. simpl.
    by apply (all_chars_last is_alnum_lc (String c t) None d).
Qed.

Lemma platform_shape_alnum_ends ql t :
  t ∈ findall platform_shape ql →
  alnum_opt (head_char t) = true ∧ alnum_opt (last_char None t) = true.
Proof.
  unfold findall. intros (m & -> & Hm)%list_elem_of_fmap.
  apply finditer_from_elem in Hm as (prev' & s' & n & Hn & ->).
  apply platform_shape_ends in Hn as (c & t & d & -> & Hc & Hl & Hd).
  split.
  - change (head_char (String c t)) with (Some c).
    unfold alnum_opt, is_alnum_lc. by rewrite Hc.
  - change (last_char None (String c t)) with (last_char (Some c) t).
    rewrite Hl. unfold alnum_opt, is_alnum_lc. rewrite Hd.
    apply orb_true_r.
Qed.

(** X2: every token has at least two characters, is written in
    lowercase letters, digits, hyphen and underscore, starts and ends with
    a lowercase letter or a digit (not with a hyphen or an underscore),
    and is not a stopword. *)
Theorem X2_token_form (query t : string) :
  t ∈ tokenize_query query →
  (2 ≤ len t)%nat ∧ lower t = t ∧ all_chars is_token_char t = true ∧
  alnum_opt (head_char t) = true ∧ alnum_opt (last_char None t) = true ∧
  (t ∉ STOPWORDS).
Proof.
  intros Hin. pose proof (tokenize_shape _ _ Hin) as Hshape.
  unfold token_shape in Hshape.
  apply andb_true_iff in Hshape as [_ Hc].
  pose proof (token_lower t Hc).
  apply tokenize_elem in Hin as [Hp|[Hr (Hstop & Hlen & _)]].
  - destruct (platform_shape_alnum_ends _ _ Hp) as [Hh Hl].
    apply platform_token_facts in Hp as (Hlen & Haz & _).
    assert (t ∉ STOPWORDS)
      by (intros Hs%stopwords_lowercase_letters; congruence).
    done.
  - destruct (alnum_run_ends _ _ Hr) as [Hh Hl].
    assert (2 ≤ len t)%nat by lia. done.
Qed.

Lemma X2_token_form_witness :
  (2 ≤ len "ah-1")%nat ∧ lower "ah-1" = "ah-1" ∧
  all_chars is_token_char "ah-1" = true ∧
  alnum_opt (head_char "ah-1") = true ∧
  alnum_opt (last_char None "ah-1") = true ∧
  ("ah-1" ∉ STOPWORDS).
Proof.
  apply (X2_token_form "AH-1 oil pressure" "ah-1").
  assert (tokenize_query "AH-1 oil pressure" = ["ah-1"; "oil"; "pressure"])
    as -> by (vm_compute; reflexivity).
  by left.
Defined.

(** X3: no token is a component (letter run or digit run) of an
    extracted platform token. *)
Theorem X3_no_platform_component (query t : string) :
  t ∈ tokenize_query query →
  t ∉ platform_parts_of (findall platform_shape (lower query)).
Proof.
  intros [Hp|[_ (_ & _ & Hparts)]]%tokenize_elem; [|done].
  intros [_ [Haz|Hd]]%platform_parts_elem;
    apply platform_token_facts in Hp as (_ & ? & ?); congruence.
Qed.

Lemma X3_no_platform_component_witness :
  "oh-58" ∉ platform_parts_of (findall platform_shape (lower "OH-58 rotor")).
Proof.
  apply (X3_no_platform_component "OH-58 rotor" "oh-58").
  assert (tokenize_query "OH-58 rotor" = ["oh-58"; "rotor"])
    as -> by (vm_compute; reflexivity).
  by left.
Defined.

(** ** The ranking: order, cut, errors *)

Lemma score_loop_raise ql toks kb : ∀ scored,
  Exists (λ c, c_text c = None) kb →
  score_loop ql toks kb scored = Raise (KeyError "text").
Proof.
  induction kb as [|c kb IH]; intros scored Hex.
  - by apply Exists_nil in Hex.
  - simpl. destruct (c_text c) as [t|] eqn:Ht.
    + apply Exists_cons in Hex as [Hc|Hex]; [congruence|].
      rewrite (score_chunk_ok ql toks c) by (by exists t). simpl.
      by apply IH.
    + by rewrite (score_chunk_raise ql toks c Ht).
Qed.

Lemma has_text_or_missing kb :
  Forall has_text kb ∨ Exists (λ c, c_text c = None) kb.
Proof.
  induction kb as [|c kb [IH|IH]].
  - left. constructor.
  - destruct (c_text c) as [t|] eqn:Ht.
    + left. constructor; [by exists t|done].
    + right. by left.
  - right. by right.
Qed.

Lemma ranked_sorted ql toks kb top_k :
  StronglySorted key_ge (ranked ql toks kb top_k).
Proof.
  destruct (ranked_prefix ql toks kb top_k) as [rest Hrest].
  pose proof (sort_desc_sorted (retained ql toks kb)) as Hs.
  rewrite Hrest in Hs. by apply StronglySorted_app_1_l in Hs.
Qed.

Lemma slice_to_all {A} (k : Z) (l : list A) :
  Z.of_nat (length l) ≤ k → slice_to k l = l.
Proof.
  intros Hk. unfold slice_to.
  rewrite (proj2 (Z.leb_le 0 k)) by lia. apply take_ge. lia.
Qed.

Lemma slice_to_mono {A} (k k' : Z) (l : list A) :
  0 ≤ k ≤ k' → slice_to k l `prefix_of` slice_to k' l.
Proof.
  intros Hk. unfold slice_to.
  rewrite (proj2 (Z.leb_le 0 k)), (proj2 (Z.leb_le 0 k')) by lia.
  assert (take (Z.to_nat k) l = take (Z.to_nat k) (take (Z.to_nat k') l))
    as -> by (rewrite take_take; f_equal; lia).
  apply prefix_take.
Qed.

Lemma retained_length ql toks kb :
  (length (retained ql toks kb) ≤ length kb)%nat.
Proof.
  unfold retained. etrans; [apply length_filter|]. by rewrite length_fmap.
Qed.

(** X4: the search raises exactly when the query has a token and some
    chunk has no text; the exception is the [KeyError] of the key
    "text". *)
Theorem X4_search_raises_iff (query : string) (kb : list chunk) (top_k : Z)
    (e : exn) :
  weighted_keyword_search query kb top_k = Raise e ↔
  e = KeyError "text" ∧ tokenize_query query ≠ [] ∧
  Exists (λ c, c_text c = None) kb.
Proof.
  unfold weighted_keyword_search.
  destruct (tokenize_query query) as [|t toks] eqn:E.
  - split; [done|]. by intros (_ & ? & _).
  - destruct (has_text_or_missing kb) as [Hkb|Hkb].
    + rewrite (score_loop_ok _ _ _ _ Hkb). simpl. split; [done|].
      intros (_ & _ & Hex). apply Exists_exists in Hex as (c & Hc & Hn).
      rewrite Forall_forall in Hkb. destruct (Hkb c Hc) as [? ?]. congruence.
    + rewrite (score_loop_raise _ _ _ _ Hkb). simpl. split.
      * by intros [= <-].
      * by intros (-> & _).
Qed.

(** X5: the result is ordered by descending score. *)
Theorem X5_result_sorted (query : string) (kb : list chunk) (top_k : Z)
    (res : list chunk) (i j : nat) (a b : chunk) (sa sb : Z) :
  weighted_keyword_search query kb top_k = Ok res →
  (i < j)%nat → res !! i = Some a → res !! j = Some b →
  score_chunk (lower query) (tokenize_query query) a = Ok sa →
  score_chunk (lower query) (tokenize_query query) b = Ok sb →
  sb ≤ sa.
Proof.
  intros H Hij Hi Hj Ha Hb.
  apply search_inv in H as [[_ ->]|(_ & _ & ->)]; [done|].
  rewrite list_lookup_fmap in Hi, Hj.
  destruct (ranked _ _ kb top_k !! i) as [pa|] eqn:Hpa; [|done].
  destruct (ranked _ _ kb top_k !! j) as [pb|] eqn:Hpb; [|done].
  injection Hi as <-. injection Hj as <-.
  apply score_chunk_inv in Ha as [_ ->]. apply score_chunk_inv in Hb as [_ ->].
  pose proof (sorted_lookup_ge _ _ _ _ _ (ranked_sorted _ _ _ _) Hij Hpa Hpb).
  pose proof (ranked_spec _ _ _ _ pa (list_elem_of_lookup_2 _ _ _ Hpa))
    as [<- _].
  pose proof (ranked_spec _ _ _ _ pb (list_elem_of_lookup_2 _ _ _ Hpb))
    as [<- _].
  done.
Qed.

Lemma X5_result_sorted_witness : 7 ≤ 9.
Proof.
  apply (X5_result_sorted "oil pressure"
           [Samples.oil1; Samples.oil2; Samples.oil3] 2
           [Samples.oil3; Samples.oil1] 0 1 Samples.oil3 Samples.oil1 9 7).
  - vm_compute; reflexivity.
  - lia.
  - reflexivity.
  - reflexivity.
  - vm_compute; reflexivity.
  - vm_compute; reflexivity.
Defined.

(** X6: what the cut leaves out is not better than what it keeps: a
    corpus chunk that reaches the threshold and is not returned scores at
    most as much as every returned chunk. *)
Theorem X6_cut_keeps_best (query : string) (kb : list chunk) (top_k : Z)
    (res : list chunk) (c r : chunk) (s s' : Z) :
  weighted_keyword_search query kb top_k = Ok res →
  c ∈ kb → c ∉ res → r ∈ res →
  score_chunk (lower query) (tokenize_query query) c = Ok s → 3 ≤ s →
  score_chunk (lower query) (tokenize_query query) r = Ok s' →
  s ≤ s'.
Proof.
  intros H Hc Hnot Hr Hs Hmin Hs'.
  apply search_inv in H as [[_ ->]|(_ & _ & ->)].
  { by apply elem_of_nil in Hr. }
  set (ql := lower query) in *. set (toks := tokenize_query query) in *.
  apply score_chunk_inv in Hs as [_ ->].
  apply score_chunk_inv in Hs' as [_ ->].
  destruct (ranked_prefix ql toks kb top_k) as [rest Hrest].
  pose proof (sort_desc_sorted (retained ql toks kb)) as Hsorted.
  assert ((score_of ql toks c, c) ∈ sort_desc (retained ql toks kb)) as Hin
    by (rewrite sort_desc_perm; by apply retained_spec).
  rewrite Hrest in Hin, Hsorted.
  apply elem_of_app in Hin as [Hin|Hin].
  { destruct Hnot. apply list_elem_of_fmap. by exists (score_of ql toks c, c). }
  apply list_elem_of_fmap in Hr as (pr & -> & Hpr).
  pose proof (StronglySorted_app_1_elem_of _ _ _ _ _ Hsorted Hpr Hin) as Hge.
  apply ranked_spec in Hpr as [<- _]. exact Hge.
Qed.

Lemma X6_cut_keeps_best_witness : 7 ≤ 9.
Proof.
  apply (X6_cut_keeps_best "oil pressure"
           [Samples.oil1; Samples.oil2; Samples.oil3] 1
           [Samples.oil3] Samples.oil1 Samples.oil3 7 9).
  - vm_compute; reflexivity.
  - by left.
  - intros H%list_elem_of_singleton.
    unfold Samples.oil1, Samples.oil3 in H. discriminate H.
  - by left.
  - vm_compute; reflexivity.
  - lia.
  - vm_compute; reflexivity.
Defined.

(** X7: with a limit that is at least the size of the corpus nothing is
    cut: for a query with a token the result holds exactly the corpus
    chunks that score 3 or more. *)
Theorem X7_large_limit_returns_all (query : string) (kb : list chunk)
    (top_k : Z) (res : list chunk) :
  weighted_keyword_search query kb top_k = Ok res →
  tokenize_query query ≠ [] →
  Z.of_nat (length kb) ≤ top_k →
  ∀ c, c ∈ res ↔
       c ∈ kb ∧ ∃ s, score_chunk (lower query) (tokenize_query query) c = Ok s
                     ∧ 3 ≤ s.
Proof.
  intros H Htok Hk c.
  apply search_inv in H as [[? _]|(_ & Hkb & ->)]; [done|].
  set (ql := lower query) in *. set (toks := tokenize_query query) in *.
  unfold ranked. rewrite slice_to_all
    by (rewrite sort_desc_perm; pose proof (retained_length ql toks kb); lia).
  rewrite sort_desc_perm, retained_chunks.
  rewrite list_elem_of_filter. rewrite Forall_forall in Hkb. split.
  - intros [Hmin Hin]. split; [done|]. exists (score_of ql toks c).
    split; [|done]. apply score_chunk_ok. by apply Hkb.
  - intros [Hin (s & Hs & Hmin)]. split; [|done].
    apply score_chunk_inv in Hs as [_ ->]. done.
Qed.

Lemma X7_large_limit_returns_all_witness :
  Samples.oil2 ∈ [Samples.oil3; Samples.oil1; Samples.oil2].
Proof.
  apply (X7_large_limit_returns_all "oil pressure"
           [Samples.oil1; Samples.oil2; Samples.oil3] 3
           [Samples.oil3; Samples.oil1; Samples.oil2]).
  - vm_compute; reflexivity.
  - vm_compute; discriminate.
  - simpl; lia.
  - split; [by right; left|]. exists 7. split; [vm_compute; reflexivity|lia].
Defined.

(** X8: a smaller limit returns an initial segment of what a larger
    limit returns. *)
Theorem X8_limit_prefix (query : string) (kb : list chunk) (k k' : Z)
    (res res' : list chunk) :
  0 ≤ k ≤ k' →
  weighted_keyword_search query kb k = Ok res →
  weighted_keyword_search query kb k' = Ok res' →
  res `prefix_of` res'.
Proof.
  intros Hk H H'.
  apply search_inv in H as [[Ht ->]|(Ht & _ & ->)]; [apply prefix_nil|].
  apply search_inv in H' as [[Ht' _]|(_ & _ & ->)]; [done|].
  unfold ranked.
  destruct (slice_to_mono k k' (sort_desc (retained (lower query)
              (tokenize_query query) kb)) Hk) as [rest ->].
  rewrite fmap_app. by eexists.
Qed.

Lemma X8_limit_prefix_witness :
  [Samples.oil3] `prefix_of` [Samples.oil3; Samples.oil1].
Proof.
  apply (X8_limit_prefix "oil pressure"
           [Samples.oil1; Samples.oil2; Samples.oil3] 1 2).
  - lia.
  - vm_compute; reflexivity.
  - vm_compute; reflexivity.
Defined.

(** ** Letter case, score range, and the sentinel *)

Lemma lower_char_idemp c : lower_char (lower_char c) = lower_char c.
Proof. by_cases_on_char c. Qed.

Lemma lower_idemp s : lower (lower s) = lower s.
Proof.
  induction s as [|c s IH]; simpl; [done|]. by rewrite lower_char_idemp, IH.
Qed.

(** X9: the search sees the query and the texts through their lowercase
    forms only: queries that differ in letter case alone have the same
    tokens and the same result, and changing the letter case of a chunk's
    text does not change its score. *)
Theorem X9_case_insensitive (query query' : string) (kb : list chunk)
    (top_k : Z) (c : chunk) (text text' : string) :
  lower query = lower query' →
  c_text c = Some text →
  lower text' = lower text →
  tokenize_query query = tokenize_query query' ∧
  weighted_keyword_search query kb top_k
  = weighted_keyword_search query' kb top_k ∧
  score_chunk (lower query) (tokenize_query query) (with_text c text')
  = score_chunk (lower query) (tokenize_query query) c.
Proof.
  intros Hq Hc Ht.
  assert (tokenize_query query = tokenize_query query') as Htok
    by (unfold tokenize_query; by rewrite Hq).
  split_and!; [done| |].
  - unfold weighted_keyword_search. by rewrite Htok, Hq.
  - unfold score_chunk, get_text, get_platform, with_text. simpl.
    by rewrite Hc, Ht.
Qed.

Lemma X9_case_insensitive_witness :
  tokenize_query "Oil PRESSURE" = tokenize_query "oil pressure".
Proof.
  apply (X9_case_insensitive "Oil PRESSURE" "oil pressure" [] 3
           Samples.oil1 "Read the oil pressure gauge."
           "READ THE OIL PRESSURE GAUGE.").
  - vm_compute; reflexivity.
  - reflexivity.
  - vm_compute; reflexivity.
Defined.

(** X10: a score lies between the number of keyword matches minus 5 and
    that number plus 15; without a platform tag (or with the tag UNKNOWN)
    it is never below the number of matches; and a query of fewer than
    two tokens earns no phrase bonus: the score is the number of matches
    plus what the platform step adds, and the number of matches alone for
    the tag UNKNOWN. *)
Theorem X10_score_range (query_lower : string) (query_tokens : list string)
    (c : chunk) (text : string) (s : Z) :
  c_text c = Some text →
  score_chunk query_lower query_tokens c = Ok s →
  let matches := keyword_total query_tokens (lower text) in
  0 ≤ matches ∧
  matches - 5 ≤ s ≤ matches + 15 ∧
  (get_platform c = "UNKNOWN" → matches ≤ s ≤ matches + 5) ∧
  ((length query_tokens < 2)%nat →
   phrase_delta query_tokens (lower text) = 0 ∧
   s = matches + platform_delta query_lower (get_platform c) ∧
   s ≤ matches + 10 ∧
   (get_platform c = "UNKNOWN" → s = matches)).
Proof.
  intros Hc Hs matches. subst matches.
  apply score_chunk_inv in Hs as [_ ->]. unfold score_of. rewrite Hc. simpl.
  rewrite score_text_parts.
  pose proof (keyword_total_nonneg query_tokens (lower text)).
  pose proof (phrase_delta_range query_tokens (lower text)).
  assert (-5 ≤ platform_delta query_lower (get_platform c) ≤ 10) as Hp.
  { destruct (platform_named query_lower (get_platform c)) eqn:E.
    - rewrite (platform_delta_named _ _ E). lia.
    - pose proof (platform_delta_not_named _ _ E). lia. }
  split_and!; try lia.
  - intros ->. rewrite platform_delta_unknown. lia.
  - intros Hlen.
    assert (phrase_delta query_tokens (lower text) = 0) as Hzero.
    { unfold phrase_delta, phrase_step.
      by rewrite (proj2 (Nat.leb_gt 2 (length query_tokens))) by lia. }
    rewrite Hzero. split_and!; [done|lia|lia|].
    intros ->. rewrite platform_delta_unknown. lia.
Qed.

Lemma X10_score_range_witness : 2 - 5 ≤ 7 ≤ 2 + 15.
Proof.
  apply (X10_score_range (lower "oil pressure") (tokenize_query "oil pressure")
           Samples.oil1 "Read the oil pressure gauge." 7 eq_refl).
  vm_compute; reflexivity.
Defined.

(** X11: the sentinel is returned for the empty list only; every other
    result starts with the header of the first section. *)
Theorem X11_sentinel_only_when_empty (chunks : list chunk) :
  (format_context chunks = NO_CONTEXT ↔ chunks = []) ∧
  (chunks ≠ [] →
   startswith "[Source 1: " (format_context chunks) = true).
Proof.
  assert (chunks ≠ [] →
          startswith "[Source 1: " (format_context chunks) = true) as H.
  { destruct chunks as [|c chunks]; [done|]. intros _.
    unfold format_context. cbn [context_parts].
    destruct (context_parts 2 chunks) as [|p ps]; cbn [join].
    - reflexivity.
    - reflexivity. }
  split; [|done]. split; [|by intros ->].
  intros E. destruct chunks as [|c chunks]; [done|].
  specialize (H ltac:(done)). rewrite E in H. by vm_compute in H.
Qed.

(** ** Cleaning a page text *)

Section clean_text_facts.
Import Rx Ingest.

Lemma finditer_run_irrel p s : ∀ n prev prev' pos pos',
  (finditer_from (run p) n prev pos s).*2
  = (finditer_from (run p) n prev' pos' s).*2.
Proof.
  induction s as [|c s IH]; intros n prev prev' pos pos'; [done|].
  cbn [finditer_from]. destruct n; [|apply IH].
  unfold run. destruct (run_length p _); [apply IH|].
  rewrite !fmap_cons. f_equal. apply IH.
Qed.

Lemma finditer_run_skip p s : ∀ n prev prev' pos pos',
  (finditer_from (run p) n prev pos s).*2
  = (finditer_from (run p) 0 prev' pos' (drop_str n s)).*2.
Proof.
  induction s as [|c s IH]; intros n prev prev' pos pos'.
  - by destruct n.
  - destruct n as [|n]; [apply finditer_run_irrel|].
    cbn [finditer_from drop_str]. apply IH.
Qed.

Lemma sub_run_irrel p r s : ∀ n prev prev',
  sub_from (run p) r n prev s = sub_from (run p) r n prev' s.
Proof.
  induction s as [|c s IH]; intros n prev prev'; [done|].
  cbn [sub_from]. destruct n; [|apply IH].
  unfold run. destruct (run_length p _); f_equal; apply IH.
Qed.

Lemma sub_run_skip p r s : ∀ n prev prev',
  sub_from (run p) r n prev s = sub_from (run p) r 0 prev' (drop_str n s).
Proof.
  induction s as [|c s IH]; intros n prev prev'.
  - by destruct n.
  - destruct n as [|n]; [apply sub_run_irrel|].
    cbn [sub_from drop_str]. apply IH.
Qed.

Lemma lstrip_drop s : lstrip s = drop_str (run_length is_space s) s.
Proof.
  induction s as [|c s IH]; simpl; [done|]. by destruct (is_space c).
Qed.

Lemma not_space_true c : is_space c = false → not_space c = true.
Proof. unfold not_space. by intros ->. Qed.

Lemma not_space_false c : is_space c = true → not_space c = false.
Proof. unfold not_space. by intros ->. Qed.

Lemma words_cons_space c s : is_space c = true → words (String c s) = words s.
Proof.
  intros Hc. unfold words, findall, finditer. cbn [finditer_from].
  unfold run at 1. cbn [run_length]. rewrite (not_space_false c Hc).
  apply finditer_run_irrel.
Qed.

Lemma words_cons_word c s :
  is_space c = false →
  words (String c s)
  = String c (take_str (run_length not_space s) s)
      :: words (drop_str (run_length not_space s) s).
Proof.
  intros Hc. unfold words, findall, finditer. cbn [finditer_from].
  unfold run at 1. cbn [run_length]. rewrite (not_space_true c Hc).
  rewrite fmap_cons. cbn [snd take_str Init.Nat.pred]. f_equal.
  apply finditer_run_skip.
Qed.

(** A word character before a word extends the first word. *)
Lemma words_cons_extend c d s :
  is_space c = false → is_space d = false →
  ∃ w rest, words (String d s) = w :: rest ∧
            words (String c (String d s)) = String c w :: rest.
Proof.
  intros Hc Hd. rewrite (words_cons_word c), (words_cons_word d) by done.
  cbn [run_length]. rewrite (not_space_true d Hd). cbn [take_str drop_str].
  eauto.
Qed.

Lemma words_cons_new c s :
  is_space c = false →
  (s = "" ∨ ∃ d s', s = String d s' ∧ is_space d = true) →
  words (String c s) = String c "" :: words s.
Proof.
  intros Hc Hs. rewrite words_cons_word by done.
  destruct Hs as [->|(d & s' & -> & Hd)]; [reflexivity|].
  cbn [run_length]. by rewrite (not_space_false d Hd).
Qed.

Lemma squeeze_cons_word c s :
  is_space c = false → squeeze (String c s) = String c (squeeze s).
Proof.
  intros Hc. unfold squeeze, sub. cbn [sub_from].
  unfold run at 1. cbn [run_length]. rewrite Hc. f_equal. apply sub_run_irrel.
Qed.

Lemma squeeze_cons_space c s :
  is_space c = true →
  squeeze (String c s) = String space (squeeze (lstrip s)).
Proof.
  intros Hc. unfold squeeze, sub. cbn [sub_from].
  unfold run at 1. cbn [run_length]. rewrite Hc. cbn [Init.Nat.pred].
  rewrite lstrip_drop.
  by rewrite (sub_run_skip is_space " " s _ (Some c) None).
Qed.

Lemma squeeze_space_space c d s :
  is_space c = true → is_space d = true →
  squeeze (String c (String d s)) = squeeze (String d s).
Proof.
  intros Hc Hd. rewrite !squeeze_cons_space by done.
  simpl. by rewrite Hd.
Qed.

Lemma words_lstrip s : words (lstrip s) = words s.
Proof.
  induction s as [|c s IH]; simpl; [done|].
  destruct (is_space c) eqn:Hc; [|done]. by rewrite words_cons_space.
Qed.

Lemma lstrip_head s : ∀ c s', lstrip s = String c s' → is_space c = false.
Proof.
  induction s as [|d s IH]; simpl; [done|].
  destruct (is_space d) eqn:Hd; [done|]. by intros c s' [= <- <-].
Qed.

Lemma lstrip_squeeze s : lstrip (squeeze s) = squeeze (lstrip s).
Proof.
  induction s as [|c s IH]; [done|].
  destruct (is_space c) eqn:Hc.
  - rewrite squeeze_cons_space by done. simpl. rewrite Hc.
    change (is_space space) with true. cbv iota.
    destruct (lstrip s) as [|d s'] eqn:E; [done|].
    pose proof (lstrip_head _ _ _ E) as Hd.
    rewrite squeeze_cons_word by done. simpl. by rewrite Hd.
  - simpl. rewrite Hc. rewrite squeeze_cons_word by done. simpl. by rewrite Hc.
Qed.

Lemma rstrip_cons_word c s :
  is_space c = false → rstrip (String c s) = String c (rstrip s).
Proof. intros Hc. simpl. rewrite Hc. by destruct (rstrip s). Qed.

Lemma rstrip_cons_space c s :
  is_space c = true →
  rstrip (String c s)
  = match rstrip s with EmptyString => EmptyString | r => String c r end.
Proof. intros Hc. simpl. by rewrite Hc. Qed.

Lemma words_elem w s :
  w ∈ words s → w ≠ "" ∧ all_chars not_space w = true.
Proof.
  unfold words, findall. intros (m & -> & Hm)%list_elem_of_fmap.
  apply finditer_from_elem in Hm as (prev' & s' & n & Hn & ->).
  apply run_Some in Hn as [-> Hn]. split; [|apply run_take_all].
  destruct s' as [|c s']; [done|]. simpl in *. by destruct (not_space c).
Qed.

Lemma join_cons_head sep c w rest :
  join sep (String c w :: rest) = String c (join sep (w :: rest)).
Proof. by destruct rest. Qed.

Lemma join_cons_cons sep x y l :
  join sep (x :: y :: l) = x +:+ sep +:+ join sep (y :: l).
Proof. done. Qed.

Lemma join_words_empty s : join " " (words s) = "" → words s = [].
Proof.
  destruct (words s) as [|w ws] eqn:E; [done|].
  assert (w ≠ "") as Hw by (eapply words_elem; rewrite E; left).
  destruct w as [|c w]; [done|]. by rewrite join_cons_head.
Qed.

Lemma rstrip_squeeze s :
  rstrip (squeeze s) = lead s +:+ join " " (words s).
Proof.
  induction s as [|c s IH]; [done|].
  destruct (is_space c) eqn:Hc.
  - unfold lead. rewrite Hc, (words_cons_space c s Hc).
    destruct s as [|d s'].
    + by rewrite squeeze_cons_space.
    + destruct (is_space d) eqn:Hd.
      * rewrite squeeze_space_space, IH by done. unfold lead. by rewrite Hd.
      * rewrite squeeze_cons_space by done. simpl lstrip. rewrite Hd.
        rewrite rstrip_cons_space by done. rewrite IH. unfold lead.
        rewrite Hd. destruct (words (String d s')) as [|w ws] eqn:E.
        -- done.
        -- assert (w ≠ "") as Hw by (eapply words_elem; rewrite E; left).
           destruct w as [|e w]; [done|].
           by rewrite app_nil_str, join_cons_head.
  - rewrite squeeze_cons_word, rstrip_cons_word, IH by done.
    assert (lead (String c s) = "") as ->.
    { unfold lead. rewrite Hc. by destruct (words (String c s)). }
    rewrite app_nil_str. destruct s as [|d s'].
    + by rewrite (words_cons_new c) by eauto.
    + destruct (is_space d) eqn:Hd.
      * rewrite (words_cons_new c) by eauto 6. unfold lead. rewrite Hd.
        destruct (words (String d s')) as [|w ws]; [done|].
        by rewrite join_cons_cons.
      * destruct (words_cons_extend c d s' Hc Hd) as (w & rest & E1 & E2).
        rewrite E2, join_cons_head. unfold lead. rewrite Hd, E1.
        by rewrite app_nil_str.
Qed.

Lemma clean_text_join_words text :
  clean_text text = join " " (words text).
Proof.
  unfold clean_text, strip. fold (squeeze text).
  rewrite lstrip_squeeze, rstrip_squeeze, words_lstrip.
  assert (lead (lstrip text) = "") as ->; [|done].
  unfold lead. destruct (lstrip text) as [|c s] eqn:E; [done|].
  rewrite (lstrip_head _ _ _ E). by destruct (words (String c s)).
Qed.

End clean_text_facts.

Section clean_text_results.
Import Rx Ingest.

Lemma words_word_app w rest :
  w ≠ "" → all_chars not_space w = true →
  (rest = "" ∨ ∃ d s', rest = String d s' ∧ is_space d = true) →
  words (w +:+ rest) = w :: words rest.
Proof.
  induction w as [|c w IH]; intros Hne Hw Hrest; [done|].
  simpl in Hw. apply andb_true_iff in Hw as [Hc Hw].
  unfold not_space in Hc. apply negb_true_iff in Hc.
  rewrite app_cons_str. destruct w as [|d w].
  - rewrite app_nil_str. by apply words_cons_new.
  - pose proof Hw as [Hd _]%andb_true_iff.
    unfold not_space in Hd. apply negb_true_iff in Hd.
    rewrite app_cons_str.
    destruct (words_cons_extend c d (w +:+ rest) Hc Hd)
      as (w1 & r1 & E1 & E2).
    rewrite E2. rewrite <-app_cons_str, IH in E1 by done.
    by injection E1 as <- <-.
Qed.

Lemma words_join ws :
  Forall (λ w, w ≠ "" ∧ all_chars not_space w = true) ws →
  words (join " " ws) = ws.
Proof.
  induction 1 as [|w ws [Hne Hw] Hws IH]; [done|].
  destruct ws as [|y l].
  - cbn [join]. rewrite <-(app_nil_r_str w) at 1.
    rewrite words_word_app by eauto. done.
  - rewrite join_cons_cons, words_word_app; [|done|done|].
    + f_equal. change (" " +:+ join " " (y :: l))
        with (String space (join " " (y :: l))).
      by rewrite words_cons_space.
    + right. by exists space, (join " " (y :: l)).
Qed.

Lemma words_forall s :
  Forall (λ w, w ≠ "" ∧ all_chars not_space w = true) (words s).
Proof. apply Forall_forall. intros w. apply words_elem. Qed.

Lemma words_nil_blank s : words s = [] → all_chars is_space s = true.
Proof.
  intros E. unfold words, findall, finditer in E.
  apply fmap_nil_inv in E.
  eapply all_chars_impl;
    [|apply (finditer_run_cover not_space (λ _, false) s 0 None 0)].
  - intros c. unfold not_space. rewrite negb_involutive, orb_false_r. done.
  - rewrite E. constructor.
Qed.

(** X12: cleaning a text gives its whitespace-separated words joined by
    single blanks, [" ".join(text.split())]. *)
Theorem X12_clean_text_words (text : string) :
  Ingest.clean_text text = join " " (words text).
Proof. apply clean_text_join_words. Qed.

(** X13: cleaning is idempotent and keeps the words; the cleaned text is
    empty exactly when the text is empty or all whitespace, which is when
    the extraction drops the page. *)
Theorem X13_clean_text_idempotent (text : string) :
  Ingest.clean_text (Ingest.clean_text text) = Ingest.clean_text text ∧
  words (Ingest.clean_text text) = words text ∧
  (Ingest.clean_text text = "" ↔ all_chars is_space text = true).
Proof.
  rewrite !clean_text_join_words.
  rewrite (words_join _ (words_forall text)). split_and!; [done..|].
  split.
  - intros E%join_words_empty. by apply words_nil_blank.
  - intros E%whitespace_only_words. by rewrite E.
Qed.

End clean_text_results.

(** ** Platform detection *)

Section detect_facts.
Import Rx Ingest.

Lemma is_word_lower c : is_word (lower_char c) = is_word c.
Proof. by_cases_on_char c. Qed.

Lemma is_sep_lower c : is_sep (lower_char c) = is_sep c.
Proof. by_cases_on_char c. Qed.

Lemma word_opt_lower o : word_opt (lower_char <$> o) = word_opt o.
Proof. destruct o; simpl; [apply is_word_lower|done]. Qed.

Lemma head_char_lower s : head_char (lower s) = lower_char <$> head_char s.
Proof. by destruct s. Qed.

Lemma rmatch_lower r : ci_ok r →
  ∀ prev s k k',
  (∀ prev' s', k prev' s' = k' (lower_char <$> prev') (lower s')) →
  rmatch r prev s k = rmatch r (lower_char <$> prev) (lower s) k'.
Proof.
  induction 1 as [p Hp| | |a b _ IHa _ IHb|a b _ IHa _ IHb|a _ IHa];
    intros prev s k k' Hk; simpl.
  - destruct s as [|c s]; simpl; [done|]. rewrite Hp.
    destruct (p c); [|done]. by rewrite (Hk (Some c) s).
  - unfold boundary. rewrite head_char_lower, !word_opt_lower.
    destruct (xorb _ _); [apply Hk|done].
  - apply Hk.
  - apply IHa. intros prev' s'. by apply IHb.
  - rewrite (IHa prev s k k' Hk), (IHb prev s k k' Hk). done.
  - rewrite (IHa prev s k k' Hk), (Hk prev s). done.
Qed.

Lemma compile_lower r prev s :
  ci_ok r → compile r prev s = compile r (lower_char <$> prev) (lower s).
Proof. intros Hr. unfold compile. by apply rmatch_lower. Qed.

Lemma finditer_lower_nil r s : ci_ok r → ∀ skip prev pos,
  finditer_from (compile r) skip prev pos s = [] ↔
  finditer_from (compile r) skip (lower_char <$> prev) pos (lower s) = [].
Proof.
  intros Hr. induction s as [|c s IH]; intros skip prev pos; [done|].
  cbn [lower finditer_from]. destruct skip; [|apply (IH _ (Some c))].
  change (String (lower_char c) (lower s)) with (lower (String c s)).
  rewrite <-compile_lower by done.
  destruct (compile r prev (String c s)); [done|]. apply (IH _ (Some c)).
Qed.

Lemma search_lower r s :
  ci_ok r → search (compile r) (lower s) = search (compile r) s.
Proof.
  intros Hr. unfold search, finditer.
  pose proof (finditer_lower_nil r s Hr 0 None 0) as H. simpl in H.
  destruct (finditer_from (compile r) 0 None 0 s),
    (finditer_from (compile r) 0 None 0 (lower s)); try done.
  - by pose proof (proj1 H eq_refl).
  - by pose proof (proj2 H eq_refl).
Qed.

Lemma ci_ci c : ci_ok (Chr (ci c)).
Proof. constructor. intros x. unfold ci. by rewrite lower_char_idemp. Qed.

Lemma lit_ci_ok w : ci_ok (lit_ci w).
Proof.
  induction w as [|c w IH]; simpl; [constructor|].
  constructor; [apply ci_ci|done].
Qed.

Lemma ident_ok letters digits : ci_ok (ident letters digits).
Proof.
  unfold ident. apply ci_seq; [apply lit_ci_ok|].
  apply ci_seq; [|apply lit_ci_ok]. apply ci_opt, ci_chr, is_sep_lower.
Qed.

Lemma platform_patterns_ok : Forall (λ tp, ci_ok tp.2) PLATFORM_PATTERNS.
Proof.
  unfold PLATFORM_PATTERNS.
  repeat (apply Forall_cons; split;
          [cbn [snd]; repeat first [apply ident_ok | apply lit_ci_ok
                                   | apply ci_seq | apply ci_alt
                                   | apply ci_bnd]|]).
  constructor.
Qed.

Lemma detect_loop_lower patterns filename :
  Forall (λ tp, ci_ok tp.2) patterns →
  detect_loop patterns (lower filename) = detect_loop patterns filename.
Proof.
  induction 1 as [|[t r] patterns Hr _ IH]; [done|]. simpl in *.
  by rewrite search_lower, IH.
Qed.

(** A match that starts behind [pre] is found by the search. *)
Lemma search_intro (m : matcher) pre c mid n : ∀ skip_prev pos,
  m (last_char skip_prev pre) (String c mid) = Some n →
  finditer_from m 0 skip_prev pos (pre +:+ String c mid) ≠ [].
Proof.
  induction pre as [|d pre IH]; intros prev pos Hm.
  - rewrite app_nil_str. cbn [finditer_from]. simpl in Hm. by rewrite Hm.
  - rewrite app_cons_str. cbn [finditer_from].
    destruct (m prev _); [done|]. apply IH. exact Hm.
Qed.

(** X14: on ASCII file names platform detection does not look at the
    letter case: two ASCII names with the same lowercase form get the
    same platform.  (Beyond ASCII [str.lower] identifies names that the
    patterns tell apart.) *)
Theorem X14_detect_case_insensitive (filename filename' : string) :
  all_chars is_ascii filename = true →
  all_chars is_ascii filename' = true →
  lower filename = lower filename' →
  detect_platform filename = detect_platform filename'.
Proof.
  intros _ _ E. unfold detect_platform.
  rewrite <-(detect_loop_lower _ filename platform_patterns_ok).
  rewrite <-(detect_loop_lower _ filename' platform_patterns_ok).
  by rewrite E.
Qed.

Lemma X14_detect_case_insensitive_witness :
  detect_platform "ah-1f manual.PDF" = detect_platform "AH-1F MANUAL.pdf".
Proof.
  apply X14_detect_case_insensitive; vm_compute; reflexivity.
Defined.

(** X15: a file name that contains "RC-12" is tagged RC-12, or AH-1 when
    the earlier AH-1 pattern matches it too; the later C-12 pattern never
    takes it. *)
Theorem X15_rc12_before_c12 (pre post : string) :
  detect_platform (pre +:+ "RC-12" +:+ post)
  = if search (compile (ident "AH" "1")) (pre +:+ "RC-12" +:+ post)
    then "AH-1" else "RC-12".
Proof.
  unfold detect_platform, PLATFORM_PATTERNS. cbn [detect_loop].
  destruct (search (compile (ident "AH" "1")) _); [done|].
  assert (search (compile (ident "RC" "12")) (pre +:+ "RC-12" +:+ post)
          = true) as ->; [|done].
  unfold search, finditer.
  destruct (finditer_from _ 0 None 0 _) eqn:E; [|done].
  exfalso. revert E.
  change ("RC-12" +:+ post) with (String "R" ("C-12" +:+ post)).
  apply (search_intro _ pre _ _ 5). vm_compute. reflexivity.
Qed.

End detect_facts.

(** ** The ingestion *)

Section ingest_facts.
Import Rx Ingest.

Lemma app_inv_head_str s r1 r2 : s +:+ r1 = s +:+ r2 → r1 = r2.
Proof.
  induction s as [|c s IH]; [by rewrite !app_nil_str|].
  rewrite !app_cons_str. intros [= E]. by apply IH.
Qed.

Lemma uint_chars d : all_chars is_decimal_char (NilEmpty.string_of_uint d) = true.
Proof. induction d; simpl; try done. Qed.

Lemma str_of_Z_chars n : all_chars is_decimal_char (str_of_Z n) = true.
Proof.
  unfold str_of_Z, NilZero.string_of_int, NilZero.string_of_uint.
  destruct (Z.to_int n) as [d|d]; destruct d; try done;
    apply (uint_chars (_ _)) || (simpl; apply (uint_chars _)).
Qed.

Lemma str_of_Z_inj a b : str_of_Z a = str_of_Z b → a = b.
Proof.
  unfold str_of_Z. intros E. apply Stdlib.Numbers.DecimalZ.to_int_inj.
  assert (∀ n, Z.to_int n ≠ Decimal.Pos Decimal.Nil
               ∧ Z.to_int n ≠ Decimal.Neg Decimal.Nil) as Hn.
  { intros [|p|p]; simpl; split; try done;
      intros [= E']; by apply Stdlib.Numbers.DecimalPos.Unsigned.to_uint_nonnil in E'. }
  assert (Some (Z.to_int a) = Some (Z.to_int b)) as [= ?]; [|done].
  rewrite <-(NilZero.isi (Z.to_int a)), <-(NilZero.isi (Z.to_int b)), E;
    [done|apply Hn..].
Qed.

Lemma split_at_sep (p : ascii → bool) d s1 : ∀ s2 r1 r2,
  p d = false → all_chars p s1 = true → all_chars p s2 = true →
  s1 +:+ String d r1 = s2 +:+ String d r2 → s1 = s2 ∧ r1 = r2.
Proof.
  induction s1 as [|c s1 IH]; intros [|c2 s2] r1 r2 Hd H1 H2;
    rewrite ?app_nil_str, ?app_cons_str; simpl in *.
  - by intros [= ->].
  - intros [= -> _]. apply andb_true_iff in H2 as [? _]. congruence.
  - intros [= -> _]. apply andb_true_iff in H1 as [? _]. congruence.
  - intros [= -> E]. apply andb_true_iff in H1 as [_ H1].
    apply andb_true_iff in H2 as [_ H2].
    destruct (IH s2 r1 r2 Hd H1 H2 E) as [-> ->]. done.
Qed.

Lemma chunk_id_of_inj n page n' page' :
  chunk_id_of n page = chunk_id_of n' page' → n = n' ∧ page = page'.
Proof.
  unfold chunk_id_of. intros E%app_inv_head_str.
  change ("_p" +:+ ?s) with (String "_" ("p" +:+ s)) in E.
  apply (split_at_sep is_decimal_char) in E as [E1 E2];
    [|done|apply str_of_Z_chars..].
  apply app_inv_head_str in E2. split; by apply str_of_Z_inj.
Qed.


(** *** The loops in closed form *)

Lemma pages_loop_spec pages f : ∀ id kb,
  pages_loop pages f (detect_platform f) id kb
  = (id + Z.of_nat (length pages),
     kb ++ imap (λ i pt, chunk_of (id + Z.of_nat i + 1) (f, pt)) pages).
Proof.
  induction pages as [|[p t] pages IH]; intros id kb.
  - simpl. by rewrite Z.add_0_r, app_nil_r.
  - cbn [pages_loop]. rewrite IH.
    replace (id + Z.of_nat (length ((p, t) :: pages)))
      with (id + 1 + Z.of_nat (length pages)) by (rewrite length_cons; lia).
    rewrite <-app_assoc. cbn [imap app].
    replace (id + Z.of_nat 0 + 1) with (id + 1) by lia.
    do 3 f_equal. apply imap_ext. intros i x _. simpl.
    by replace (id + 1 + Z.of_nat i + 1) with (id + Z.of_nat (S i) + 1) by lia.
Qed.

Lemma files_loop_spec folder files : ∀ id kb,
  files_loop files folder id kb
  = kb ++ imap (λ i e, chunk_of (id + Z.of_nat i + 1) e) (entries folder files).
Proof.
  induction files as [|f files IH]; intros id kb.
  - simpl. by rewrite app_nil_r.
  - cbn [files_loop]. rewrite pages_loop_spec, IH.
    unfold entries. rewrite bind_cons. fold (entries folder files).
    fold (pages_of folder f).
    rewrite imap_app, imap_fmap, length_fmap, <-app_assoc. do 2 f_equal.
    apply imap_ext. intros i x _. simpl. f_equal. lia.
Qed.

Lemma ingest_manuals_spec folder :
  ingest_manuals (Some folder)
  = imap (λ i e, chunk_of (Z.of_nat i + 1) e) (entries folder (pdf_files folder)).
Proof.
  unfold ingest_manuals. fold (pdf_files folder).
  rewrite files_loop_spec. simpl. apply imap_ext. intros i e _. f_equal.
Qed.

(** *** The files and the pages *)

Lemma pdf_files_elem folder f :
  f ∈ pdf_files folder ↔
  is_Some (folder !! f) ∧ endswith (lower f) ".pdf" = true.
Proof.
  unfold pdf_files. rewrite merge_sort_Permutation.
  rewrite list_elem_of_filter, elem_of_elements, elem_of_dom. tauto.
Qed.

Lemma pdf_files_NoDup folder : NoDup (pdf_files folder).
Proof.
  unfold pdf_files. rewrite merge_sort_Permutation.
  apply NoDup_filter, NoDup_elements.
Qed.

Lemma pdf_files_sorted folder : StronglySorted String.le (pdf_files folder).
Proof. apply StronglySorted_merge_sort; apply _. Qed.

Lemma extract_loop_app doc : ∀ n pages,
  extract_loop n doc pages = pages ++ extract_loop n doc [].
Proof.
  induction doc as [|[text|] doc IH]; intros n pages; simpl.
  - by rewrite app_nil_r.
  - rewrite IH. rewrite (IH _ (if bool_decide _ then _ else _)).
    case_bool_decide; [|done]. by rewrite <-app_assoc.
  - by rewrite app_nil_r.
Qed.

Lemma extract_loop_cons n text doc :
  extract_loop n (Some text :: doc) []
  = (if bool_decide (clean_text text ≠ "")
     then [(Z.of_nat n + 1, clean_text text)] else [])
    ++ extract_loop (S n) doc [].
Proof. cbn [extract_loop]. rewrite extract_loop_app. by case_bool_decide. Qed.

Lemma extract_loop_elem doc : ∀ n p t,
  (p, t) ∈ extract_loop n doc [] ↔
  ∃ (i : nat) raw,
    p = Z.of_nat (n + i) + 1 ∧ doc !! i = Some (Some raw)
    ∧ t = clean_text raw ∧ t ≠ ""
    ∧ ∀ j, (j < i)%nat → doc !! j ≠ Some None.
Proof.
  induction doc as [|[text|] doc IH]; intros n p t.
  - simpl. rewrite elem_of_nil. split; [done|]. by intros (i & raw & _ & ? & _).
  - rewrite extract_loop_cons, elem_of_app, IH. split.
    + intros [H|(i & raw & -> & Hi & -> & Hne & Hj)].
      * case_bool_decide as Hc; [|by apply elem_of_nil in H].
        apply list_elem_of_singleton in H as [= -> ->].
        exists 0%nat, text. split_and!; [lia|done..|lia].
      * exists (S i), raw. split_and!; [lia|done..|].
        intros [|j] Hlt; [done|]. apply Hj. lia.
    + intros ([|i] & raw & -> & Hi & -> & Hne & Hj).
      * injection Hi as ->. left. rewrite bool_decide_true by done.
        apply list_elem_of_singleton. do 2 f_equal. lia.
      * right. exists i, raw. split_and!; [lia|done..|].
        intros j Hlt. apply (Hj (S j)). lia.
  - simpl. rewrite elem_of_nil. split; [done|].
    intros (i & raw & _ & Hi & _ & _ & Hj).
    destruct i as [|i]; [done|]. by apply (Hj 0%nat); [lia|].
Qed.

Lemma extract_elem d p t :
  (p, t) ∈ extract_pdf_pages d ↔ ∃ doc, d = Some doc ∧ extracted doc p t.
Proof.
  destruct d as [doc|]; simpl.
  - rewrite extract_loop_elem. unfold extracted. split.
    + intros H. by exists doc.
    + by intros (? & [= <-] & H).
  - rewrite elem_of_nil. split; [done|]. by intros (? & ? & _).
Qed.

Lemma extract_loop_sorted doc : ∀ n,
  StronglySorted (λ a b : Z * string, a.1 < b.1) (extract_loop n doc []).
Proof.
  induction doc as [|[text|] doc IH]; intros n; [constructor| |constructor].
  rewrite extract_loop_cons. case_bool_decide; [|apply IH].
  cbn [app]. constructor; [apply IH|].
  apply Forall_forall. intros [p t] Hp.
  apply (proj1 (extract_loop_elem doc (S n) p t)) in Hp as (i & raw & -> & _).
  simpl. lia.
Qed.

Lemma entries_elem folder files f pt :
  (f, pt) ∈ entries folder files ↔ f ∈ files ∧ pt ∈ pages_of folder f.
Proof.
  unfold entries. rewrite list_elem_of_bind. split.
  - intros (f' & Hp & Hf).
    apply list_elem_of_fmap in Hp as (p' & [= -> ->] & Hp). done.
  - intros [Hf Hp]. exists f. split; [|done].
    apply list_elem_of_fmap. by exists pt.
Qed.


Lemma StronglySorted_imap {A B} (R1 : relation A) (R2 : relation B) l :
  ∀ f : nat → A → B,
  (∀ i j a b, R1 a b → R2 (f i a) (f j b)) →
  StronglySorted R1 l → StronglySorted R2 (imap f l).
Proof.
  induction l as [|x l IH]; intros f Hf Hl; [constructor|].
  apply StronglySorted_cons in Hl as [Hx Hl]. rewrite imap_cons.
  constructor.
  - apply IH; [|done]. intros i j a b. apply Hf.
  - apply Forall_forall. intros y [i Hi]%list_elem_of_lookup_1.
    apply list_lookup_imap_Some in Hi as (b & Hb & ->).
    apply Hf. rewrite Forall_forall in Hx. apply Hx.
    by eapply list_elem_of_lookup_2.
Qed.

Lemma entries_sorted folder files :
  StronglySorted String.le files → NoDup files →
  StronglySorted entry_lt (entries folder files).
Proof.
  induction files as [|f files IH]; intros Hs Hn; [constructor|].
  apply StronglySorted_cons in Hs as [Hf Hs].
  apply NoDup_cons in Hn as [Hnf Hn].
  unfold entries. rewrite bind_cons. fold (entries folder files).
  apply StronglySorted_app_2; [| |by apply IH].
  - intros [f1 pt1] [f2 pt2] H1 H2.
    apply list_elem_of_fmap in H1 as (? & [= -> ->] & _).
    apply entries_elem in H2 as [H2 _]. left. simpl. split.
    + rewrite Forall_forall in Hf. by apply Hf.
    + by intros ->.
  - apply (StronglySorted_fmap _ (λ a b : Z * string, a.1 < b.1)).
    + intros a b Hab. right. done.
    + unfold pages_of, extract_pdf_pages.
      destruct (default None (folder !! f)); [|constructor].
      apply extract_loop_sorted.
Qed.

Lemma chunk_of_before i j a b :
  entry_lt a b → chunk_before (chunk_of i a) (chunk_of j b).
Proof. intros H. by exists a.1, a.2.1, b.1, b.2.1. Qed.

Lemma chunk_of_complete n e : chunk_complete (chunk_of n e).
Proof. unfold chunk_complete, chunk_of. simpl. eauto 10. Qed.

Lemma ingest_complete folder : Forall chunk_complete (ingest_manuals folder).
Proof.
  destruct folder as [folder|]; [|constructor].
  rewrite ingest_manuals_spec. apply Forall_forall.
  intros c [i Hi]%list_elem_of_lookup_1.
  apply list_lookup_imap_Some in Hi as (e & _ & ->).
  apply chunk_of_complete.
Qed.

Lemma pages_of_elem folder f p t :
  (p, t) ∈ pages_of folder f ↔
  ∃ doc, folder !! f = Some (Some doc) ∧ extracted doc p t.
Proof.
  unfold pages_of. rewrite extract_elem. split.
  - intros (doc & E & H). exists doc. split; [|done].
    destruct (folder !! f) as [[?|]|]; simpl in E; congruence.
  - intros (doc & E & H). exists doc. by rewrite E.
Qed.

(** X16: the extraction returns page [p] with text [t] exactly when the
    file opens, page [p] and all pages before it are read without an
    error, and [t] is the cleaned text of page [p] and is not empty; the
    pages come in increasing page order. *)
Theorem X16_extracted_pages (d : pdf) :
  (∀ p t, (p, t) ∈ extract_pdf_pages d ↔
          ∃ doc, d = Some doc ∧ extracted doc p t) ∧
  StronglySorted (λ a b : Z * string, a.1 < b.1) (extract_pdf_pages d).
Proof.
  split; [intros p t; apply extract_elem|].
  destruct d as [doc|]; [apply extract_loop_sorted|constructor].
Qed.

(** X17: every chunk of an ingestion carries all five fields; it is the
    record of a page that the extraction returned for a file of the
    folder whose lowercased name ends in ".pdf", tagged with the
    platform detected from the file name, and its text is not empty. *)
Theorem X17_ingested_chunks (folder : gmap string pdf) (i : nat) (c : chunk) :
  ingest_manuals (Some folder) !! i = Some c →
  ∃ source doc page text,
    c = {| c_id := Some (chunk_id_of (Z.of_nat i + 1) page);
           c_text := Some text; c_source := Some source;
           c_page := Some page;
           c_platform := Some (detect_platform source) |}
    ∧ folder !! source = Some (Some doc)
    ∧ endswith (lower source) ".pdf" = true
    ∧ extracted doc page text.
Proof.
  rewrite ingest_manuals_spec. intros Hi.
  apply list_lookup_imap_Some in Hi as ([f [p t]] & He & ->).
  apply list_elem_of_lookup_2, entries_elem in He as [Hf Hp].
  apply pdf_files_elem in Hf as [_ Hf].
  apply pages_of_elem in Hp as (doc & Hd & Hx).
  by exists f, doc, p, t.
Qed.

Lemma X17_ingested_chunks_witness :
  ∃ source doc page text,
    Tests.mk "doc2_p3" "Rotor brake." "TM 1-1520-236-10 AH-1F.pdf" 3 "AH-1"
    = {| c_id := Some (chunk_id_of (Z.of_nat 1 + 1) page);
         c_text := Some text; c_source := Some source;
         c_page := Some page;
         c_platform := Some (detect_platform source) |}
    ∧ sample_folder !! source = Some (Some doc)
    ∧ endswith (lower source) ".pdf" = true
    ∧ extracted doc page text.
Proof.
  apply (X17_ingested_chunks sample_folder 1). vm_compute. reflexivity.
Defined.

(** X18: the ingestion misses nothing: every page that the extraction
    returns for a file of the folder whose lowercased name ends in
    ".pdf" is the page of some chunk. *)
Theorem X18_ingestion_complete (folder : gmap string pdf) (source : string)
    (doc : list (option string)) (page : Z) (text : string) :
  folder !! source = Some (Some doc) →
  endswith (lower source) ".pdf" = true →
  extracted doc page text →
  ∃ i : nat,
    ingest_manuals (Some folder) !! i
    = Some {| c_id := Some (chunk_id_of (Z.of_nat i + 1) page);
              c_text := Some text; c_source := Some source;
              c_page := Some page;
              c_platform := Some (detect_platform source) |}.
Proof.
  intros Hd Hf Hx. rewrite ingest_manuals_spec.
  assert ((source, (page, text)) ∈ entries folder (pdf_files folder)) as He.
  { apply entries_elem. split.
    - apply (proj2 (pdf_files_elem folder source)).
      split; [by exists (Some doc)|done].
    - apply pages_of_elem. by exists doc. }
  apply list_elem_of_lookup_1 in He as [i Hi]. exists i.
  rewrite list_lookup_imap, Hi. done.
Qed.

Lemma X18_ingestion_complete_witness :
  ∃ i : nat,
    ingest_manuals (Some sample_folder) !! i
    = Some {| c_id := Some (chunk_id_of (Z.of_nat i + 1) 1);
              c_text := Some "Fuel system.";
              c_source := Some "rc12 notes.PDF";
              c_page := Some 1;
              c_platform := Some (detect_platform "rc12 notes.PDF") |}.
Proof.
  apply (X18_ingestion_complete sample_folder "rc12 notes.PDF"
           [Some "Fuel system."; None; Some "Not read."]).
  - vm_compute. reflexivity.
  - vm_compute. reflexivity.
  - exists 0%nat, "Fuel system.". split_and!; [done|done|by vm_compute|done|lia].
Defined.

(** X19: the ids of an ingestion are pairwise different; the id of the
    chunk at index [i] is "doc", the number [i + 1], "_p" and the page. *)
Theorem X19_ids_unique (folder : option (gmap string pdf)) :
  NoDup (c_id <$> ingest_manuals folder) ∧
  ∀ (i : nat) c, ingest_manuals folder !! i = Some c →
    ∃ page, c_page c = Some page
            ∧ c_id c = Some (chunk_id_of (Z.of_nat i + 1) page).
Proof.
  assert (∀ (i : nat) c, ingest_manuals folder !! i = Some c →
    ∃ page, c_page c = Some page
            ∧ c_id c = Some (chunk_id_of (Z.of_nat i + 1) page)) as Hid.
  { destruct folder as [folder|]; [|done]. rewrite ingest_manuals_spec.
    intros i c (e & _ & ->)%list_lookup_imap_Some. by exists e.2.1. }
  split; [|done]. apply NoDup_alt. intros i j x Hi Hj.
  rewrite list_lookup_fmap in Hi, Hj.
  destruct (ingest_manuals folder !! i) as [c|] eqn:Ei; [|done].
  destruct (ingest_manuals folder !! j) as [c'|] eqn:Ej; [|done].
  destruct (Hid i c Ei) as (p & _ & Hp), (Hid j c' Ej) as (p' & _ & Hp').
  simpl in Hi, Hj. rewrite Hp in Hi. rewrite Hp' in Hj.
  assert (chunk_id_of (Z.of_nat i + 1) p = chunk_id_of (Z.of_nat j + 1) p')
    as [E _]%chunk_id_of_inj by congruence.
  lia.
Qed.

Lemma StronglySorted_NoDup_fmap {A B} (R : relation A) (f : A → B) l :
  (∀ x y, R x y → f x ≠ f y) → StronglySorted R l → NoDup (f <$> l).
Proof.
  intros HR. induction 1 as [|x l _ IH Hx]; csimpl; constructor; [|done].
  intros (y & E & Hy)%list_elem_of_fmap.
  rewrite Forall_forall in Hx. by apply (HR x y (Hx y Hy)).
Qed.

Lemma chunk_before_key c c' :
  chunk_before c c' → (c_source c, c_page c) ≠ (c_source c', c_page c').
Proof.
  intros (f & p & f' & p' & -> & -> & -> & -> & [[_ H]|[_ H]]) [= ? ?];
    [done|lia].
Qed.

(** X20: the chunks of an ingestion come in the order of the file names
    and, within a file, of the pages; no two chunks have the same source
    and page. *)
Theorem X20_ingestion_order (folder : option (gmap string pdf)) :
  StronglySorted chunk_before (ingest_manuals folder) ∧
  NoDup ((λ c, (c_source c, c_page c)) <$> ingest_manuals folder).
Proof.
  assert (StronglySorted chunk_before (ingest_manuals folder)) as Hs.
  { destruct folder as [folder|]; [|constructor].
    rewrite ingest_manuals_spec.
    apply (StronglySorted_imap entry_lt).
    - intros i j a b. apply chunk_of_before.
    - apply entries_sorted; [apply pdf_files_sorted|apply pdf_files_NoDup]. }
  split; [done|].
  eapply StronglySorted_NoDup_fmap; [|exact Hs]. apply chunk_before_key.
Qed.

End ingest_facts.
(** ** The platform counts *)

Section count_facts.
Import Rx Ingest.

Lemma count_platforms_ok kb : ∀ m0,
  Forall (λ c, is_Some (c_platform c)) kb →
  ∃ m, count_platforms kb m0 = Ok m
       ∧ ∀ p, default 0%nat (m !! p)
              = (default 0 (m0 !! p) + platform_count p kb)%nat.
Proof.
  induction kb as [|c kb IH]; intros m0 Hkb.
  - exists m0. split; [done|]. intros p. unfold platform_count. simpl. lia.
  - apply Forall_cons in Hkb as [[q Hq] Hkb]. cbn [count_platforms].
    rewrite Hq. simpl.
    destruct (IH (<[q:=(default 0 (m0 !! q) + 1)%nat]> m0) Hkb)
      as (m & -> & Hm).
    exists m. split; [done|]. intros p. rewrite Hm.
    unfold platform_count. rewrite filter_cons.
    destruct (decide (p = q)) as [->|Hne].
    + rewrite lookup_insert_eq, decide_True by done. simpl. lia.
    + rewrite lookup_insert_ne by done.
      rewrite decide_False by congruence. done.
Qed.

Lemma count_platforms_keys kb : ∀ m0 m,
  count_platforms kb m0 = Ok m →
  ∀ p, m !! p = None ↔ m0 !! p = None ∧ platform_count p kb = 0%nat.
Proof.
  induction kb as [|c kb IH]; intros m0 m.
  - intros [= <-] p. unfold platform_count. simpl. tauto.
  - cbn [count_platforms]. destruct (c_platform c) as [q|] eqn:Hq; [|done].
    simpl. intros H p. rewrite (IH _ _ H p).
    unfold platform_count. rewrite filter_cons.
    destruct (decide (p = q)) as [->|Hne].
    + rewrite lookup_insert_eq, decide_True by done. simpl.
      split; intros [? ?]; done.
    + rewrite lookup_insert_ne by done.
      rewrite decide_False by congruence. done.
Qed.

(** X21: on the chunks of an ingestion the counting loop of [main] does
    not raise; a platform has an entry exactly when some chunk carries
    it, and the entry is the number of these chunks. *)
Theorem X21_platform_counts (folder : option (gmap string pdf)) :
  ∃ platforms,
    count_platforms (ingest_manuals folder) ∅ = Ok platforms ∧
    ∀ p n, platforms !! p = Some n ↔
           (n = platform_count p (ingest_manuals folder) ∧ 0 < n)%nat.
Proof.
  destruct (count_platforms_ok (ingest_manuals folder) ∅) as (m & Hm & Hc).
  { eapply Forall_impl; [apply ingest_complete|].
    intros c (_ & _ & _ & _ & H). done. }
  exists m. split; [done|]. intros p n.
  pose proof (count_platforms_keys _ _ _ Hm p) as Hk.
  specialize (Hc p). rewrite lookup_empty in Hc, Hk. simpl in Hc.
  destruct (m !! p) as [k|] eqn:E; simpl in Hc.
  - split.
    + intros [= <-]. split; [done|].
      destruct (decide (platform_count p (ingest_manuals folder) = 0%nat))
        as [E0|]; [|lia].
      by pose proof (proj2 Hk (conj eq_refl E0)).
    + intros [-> _]. by rewrite Hc.
  - destruct (proj1 Hk eq_refl) as [_ H0]. split; [done|]. lia.
Qed.

(** X22: the counting loop raises exactly when some chunk has no
    platform field, with the [KeyError] of the key "platform". *)
Theorem X22_platform_counts_raise (kb : list chunk) (m0 : gmap string nat)
    (e : exn) :
  count_platforms kb m0 = Raise e ↔
  e = KeyError "platform" ∧ Exists (λ c, c_platform c = None) kb.
Proof.
  revert m0. induction kb as [|c kb IH]; intros m0.
  - simpl. split; [done|]. intros [_ H]. by apply Exists_nil in H.
  - cbn [count_platforms]. destruct (c_platform c) as [q|] eqn:Hq; simpl.
    + rewrite IH, Exists_cons. split; [intros [? ?]; auto|].
      intros [? [?|?]]; [congruence|done].
    + rewrite Exists_cons. split; [intros [= <-]; auto|by intros [-> _]].
Qed.

End count_facts.
(** ** The chat loop *)

Section chat_facts.
Import Rx Ingest.

Lemma lstrip_blank s : all_chars is_space s = true → lstrip s = "".
Proof.
  induction s as [|c s IH]; [done|]. simpl.
  intros [Hc Hs]%andb_true_iff. rewrite Hc. by apply IH.
Qed.

Lemma rstrip_empty s : rstrip s = "" → all_chars is_space s = true.
Proof.
  induction s as [|c s IH]; [done|]. simpl.
  destruct (rstrip s); [|done]. destruct (is_space c); [|done].
  intros _. by apply IH.
Qed.

Lemma lstrip_all_space s : all_chars is_space (lstrip s) = true →
  all_chars is_space s = true.
Proof.
  induction s as [|c s IH]; [done|]. simpl.
  destruct (is_space c) eqn:Hc; [done|]. simpl. by rewrite Hc.
Qed.

Lemma strip_empty s : strip s = "" ↔ all_chars is_space s = true.
Proof.
  unfold strip. split.
  - intros H%rstrip_empty. by apply lstrip_all_space.
  - intros H. by rewrite lstrip_blank.
Qed.

Lemma chat_turn_query kb last line :
  strip line ≠ "" → lower (strip line) ∉ COMMANDS →
  chat_turn kb last line
  = (chunks ← weighted_keyword_search (strip line) kb TOP_K_CHUNKS;
     mret (chunks, answer (strip line) chunks)).
Proof.
  intros Hne Hc. unfold chat_turn, answer.
  rewrite !bool_decide_false;
    [|intros E; apply Hc; rewrite E; by repeat constructor..|done].
  destruct (weighted_keyword_search _ _ _) as [chunks|e]; [|done].
  unfold mbind, result_bind, mret, result_ret.
  destruct (first_unsupported UNSUPPORTED_PLATFORMS (lower (strip line)));
    [done|].
  by destruct chunks.
Qed.

Lemma first_unsupported_some ps ql p :
  p ∈ ps → contains p ql = true →
  ∃ p' before after,
    first_unsupported ps ql = Some p' ∧ ps = before ++ p' :: after
    ∧ contains p' ql = true
    ∧ Forall (λ q, contains q ql = false) before.
Proof.
  induction ps as [|q ps IH]; intros Hp Hc; [by apply elem_of_nil in Hp|].
  simpl. destruct (contains q ql) eqn:Hq.
  - exists q, [], ps. by split_and!.
  - apply elem_of_cons in Hp as [->|Hp]; [congruence|].
    destruct (IH Hp Hc) as (p' & before & after & -> & -> & ? & ?).
    exists p', (q :: before), after. split_and!; try done. by constructor.
Qed.

Lemma first_unsupported_none ps ql :
  first_unsupported ps ql = None → Forall (λ q, contains q ql = false) ps.
Proof.
  induction ps as [|q ps IH]; [constructor|]. simpl.
  destruct (contains q ql) eqn:Hq; [done|]. intros H. constructor; auto.
Qed.

Lemma command_supported c :
  c ∈ "" :: COMMANDS → first_unsupported UNSUPPORTED_PLATFORMS c = None.
Proof.
  intros H. unfold COMMANDS in H.
  repeat (apply elem_of_cons in H as [->|H]; [by vm_compute|]).
  by apply elem_of_nil in H.
Qed.

Lemma lower_empty s : lower s = "" → s = "".
Proof. by destruct s. Qed.

Lemma search_submseteq query kb top_k res :
  weighted_keyword_search query kb top_k = Ok res → res ⊆+ kb.
Proof.
  intros [[_ ->]|(_ & _ & ->)]%search_inv.
  - apply submseteq_nil_l.
  - apply ranked_chunks_submseteq.
Qed.

Lemma search_length query kb top_k res :
  0 ≤ top_k → weighted_keyword_search query kb top_k = Ok res →
  Z.of_nat (length res) ≤ top_k.
Proof.
  intros Hk [[_ ->]|(_ & _ & ->)]%search_inv; [simpl; lia|].
  rewrite length_fmap. unfold ranked. by apply slice_to_length.
Qed.

Lemma source_lines_ok chunks : ∀ i,
  Forall chunk_complete chunks →
  ∃ lines, source_lines i chunks = Ok lines ∧ length lines = length chunks.
Proof.
  induction chunks as [|c chunks IH]; intros i Hc; [by exists []|].
  apply Forall_cons in Hc as [(_ & _ & [s Hs] & [p Hp] & [q Hq]) Hc].
  destruct (IH (S i) Hc) as (lines & Hl & Hlen).
  cbn [source_lines]. unfold source_line. rewrite Hs, Hp, Hq. simpl.
  rewrite Hl. simpl. eexists. split; [done|]. simpl. by rewrite Hlen.
Qed.

Lemma chat_turn_ok kb last line :
  Forall chunk_complete kb → Forall chunk_complete last →
  ∃ last' t, chat_turn kb last line = Ok (last', t)
             ∧ Forall chunk_complete last'.
Proof.
  intros Hkb Hlast. unfold chat_turn.
  repeat (case_bool_decide; [by eauto|]).
  case_bool_decide.
  - destruct last as [|c last]; [by eauto|].
    destruct (source_lines_ok (c :: last) 1 Hlast) as (lines & -> & _).
    simpl. by eauto.
  - assert (Forall has_text kb) as Ht.
    { eapply Forall_impl; [exact Hkb|]. by intros c (_ & ? & _). }
    rewrite (search_ok _ _ _ Ht). unfold mbind, result_bind.
    set (chunks := match tokenize_query _ with [] => [] | _ => _ end).
    assert (Forall chunk_complete chunks) as Hc.
    { assert (chunks ⊆+ kb) as Hsub
        by (eapply search_submseteq; apply (search_ok _ _ _ Ht)).
      rewrite Forall_forall in Hkb |- *. intros c Hin. apply Hkb.
      by eapply elem_of_submseteq. }
    destruct (first_unsupported UNSUPPORTED_PLATFORMS (lower (strip line)));
      [by eauto|].
    destruct chunks; by eauto.
Qed.

(** X23: a query that contains one of the unsupported forms is answered
    with the refusal that names the first such form of the list, in
    upper case, whatever the search finds; the search is run before, so
    its result replaces [last_chunks] and its exception ends the turn. *)
Theorem X23_unsupported_refused (kb last : list chunk) (line p : string) :
  p ∈ UNSUPPORTED_PLATFORMS →
  contains p (lower (strip line)) = true →
  ∃ p' before after,
    UNSUPPORTED_PLATFORMS = before ++ p' :: after
    ∧ contains p' (lower (strip line)) = true
    ∧ Forall (λ q, contains q (lower (strip line)) = false) before
    ∧ chat_turn kb last line
      = (chunks ← weighted_keyword_search (strip line) kb TOP_K_CHUNKS;
         mret (chunks, Refused (upper p'))).
Proof.
  intros Hp Hc.
  destruct (first_unsupported_some _ _ _ Hp Hc)
    as (p' & before & after & Hf & Hl & Hc' & Hb).
  exists p', before, after. split_and!; [done..|].
  rewrite chat_turn_query.
  - unfold answer. by rewrite Hf.
  - intros E. rewrite E in Hf. by vm_compute in Hf.
  - intros E. rewrite command_supported in Hf; [done|by right].
Qed.

Lemma X23_unsupported_refused_witness :
  ∃ p' before after,
    UNSUPPORTED_PLATFORMS = before ++ p' :: after
    ∧ contains p' (lower (strip "Fuel TANK capacity of the m1 abrams ")) = true
    ∧ Forall (λ q, contains q (lower (strip "Fuel TANK capacity of the m1 abrams "))
                   = false) before
    ∧ chat_turn Tests.sample_kb [] "Fuel TANK capacity of the m1 abrams "
      = (chunks ← weighted_keyword_search
                    (strip "Fuel TANK capacity of the m1 abrams ")
                    Tests.sample_kb TOP_K_CHUNKS;
         mret (chunks, Refused (upper p'))).
Proof.
  apply (X23_unsupported_refused _ _ _ "m1 abrams").
  - vm_compute. by repeat constructor.
  - vm_compute. reflexivity.
Defined.

(** X24: a blank line and a command do not search: the turn is the same
    for every knowledge base, and it leaves [last_chunks] as they are. *)
Theorem X24_commands_keep_state (kb kb' last : list chunk) (line : string) :
  strip line = "" ∨ lower (strip line) ∈ COMMANDS →
  chat_turn kb last line = chat_turn kb' last line ∧
  ∀ last' t, chat_turn kb last line = Ok (last', t) →
    last' = last ∧ answer (strip line) last' ≠ t.
Proof.
  intros H.
  assert (first_unsupported UNSUPPORTED_PLATFORMS (lower (strip line)) = None)
    as Hf.
  { apply command_supported. destruct H as [->|H]; [by left|by right]. }
  unfold chat_turn, answer. rewrite Hf.
  repeat (case_bool_decide;
          [split; [done|]; intros ? ? [= <- <-]; split; [done|];
           by destruct last|]).
  case_bool_decide.
  - split; [done|]. destruct last as [|c last].
    + by intros ? ? [= <- <-].
    + destruct (source_lines 1 (c :: last)); simpl; [|done].
      by intros ? ? [= <- <-].
  - exfalso. destruct H as [H|H]; [done|]. unfold COMMANDS in H.
    repeat (apply elem_of_cons in H as [H|H]; [done|]).
    by apply elem_of_nil in H.
Qed.

Lemma X24_commands_keep_state_witness :
  chat_turn Tests.sample_kb Tests.test_kb "  /Sources "
  = chat_turn [] Tests.test_kb "  /Sources " ∧
  ∀ last' t, chat_turn Tests.sample_kb Tests.test_kb "  /Sources "
             = Ok (last', t) →
    last' = Tests.test_kb ∧ answer (strip "  /Sources ") last' ≠ t.
Proof.
  apply X24_commands_keep_state. right. vm_compute. by repeat constructor.
Defined.

(** X25: every other line is a query: the turn does not depend on the
    old [last_chunks]; the new ones are the result of the search for the
    stripped line with the limit 3, at most three chunks of the
    knowledge base, and the answer is made from them. *)
Theorem X25_query_turn (kb last : list chunk) (line : string)
    (last' : list chunk) (t : turn) :
  strip line ≠ "" → lower (strip line) ∉ COMMANDS →
  chat_turn kb last line = Ok (last', t) →
  chat_turn kb [] line = Ok (last', t)
  ∧ weighted_keyword_search (strip line) kb 3 = Ok last'
  ∧ last' ⊆+ kb ∧ (length last' ≤ 3)%nat
  ∧ t = answer (strip line) last'.
Proof.
  intros Hne Hc. rewrite !chat_turn_query by done.
  destruct (weighted_keyword_search _ _ _) as [chunks|e] eqn:Hs; [|done].
  simpl. intros [= <- <-]. split_and!; try done.
  - by eapply search_submseteq.
  - apply search_length in Hs; [|done]. unfold TOP_K_CHUNKS in Hs. lia.
Qed.

Lemma X25_query_turn_witness :
  let found := take 1 Tests.sample_kb ++ drop 3 Tests.sample_kb in
  chat_turn Tests.sample_kb [] "oil pressure AH-1"
  = Ok (found, answer "oil pressure AH-1" found)
  ∧ weighted_keyword_search (strip "oil pressure AH-1") Tests.sample_kb 3
    = Ok found
  ∧ found ⊆+ Tests.sample_kb ∧ (length found ≤ 3)%nat
  ∧ answer "oil pressure AH-1" found
    = answer (strip "oil pressure AH-1") found.
Proof.
  intros found.
  apply (X25_query_turn Tests.sample_kb Tests.test_kb "oil pressure AH-1"
           found (answer "oil pressure AH-1" found)).
  - by vm_compute.
  - vm_compute. intros H.
    repeat (apply elem_of_cons in H as [H|H]; [done|]).
    by apply elem_of_nil in H.
  - vm_compute. reflexivity.
Defined.

Lemma format_context_head chunks :
  chunks ≠ [] → startswith "[Source 1: " (format_context chunks) = true.
Proof.
  destruct chunks as [|c chunks]; [done|]. intros _.
  unfold format_context. cbn [context_parts].
  by destruct (context_parts 2 chunks).
Qed.



Lemma chat_loop_cons srv calls kb last line lines :
  chat_loop srv calls kb last (line :: lines)
  = match chat_turn kb last line with
    | Raise e => Failed (BaseError e)
    | Ok (last', t) =>
        if decide (t = Goodbye) then Done [Said Goodbye]
        else match perform srv calls t with
             | Failed f => Failed f
             | Done (calls', p) =>
                 match chat_loop srv calls' kb last' lines with
                 | Failed f => Failed f
                 | Done ps => Done (p :: ps)
                 end
             end
    end.
Proof.
  cbn [chat_loop]. destruct (chat_turn kb last line) as [[last' t]|e]; [|done].
  by destruct t.
Qed.

Lemma perform_done srv calls t calls' p :
  perform srv calls t = Done (calls', p) → t ≠ Goodbye → p ≠ Said Goodbye.
Proof.
  unfold perform. intros H Ht.
  destruct t; try (injection H as <- <-; congruence).
  - destruct (check_server_status srv calls); [|done].
    by injection H as <- <-.
  - destruct (query_kobold srv calls prompt); [|done].
    by injection H as <- <-.
Qed.

Lemma perform_failed srv calls t f :
  perform srv calls t = Failed f →
  ∃ error, f = ServerError error ∧ escaped srv error.
Proof.
  unfold perform, escaped. intros H. destruct t; try done.
  - destruct (check_server_status srv calls) as [|error] eqn:E; [done|].
    injection H as <-. exists error. split; [done|]. exists calls. by left.
  - destruct (query_kobold srv calls prompt) as [|error] eqn:E; [done|].
    injection H as <-. exists error. split; [done|]. exists calls. right.
    by exists prompt.
Qed.

Lemma chat_loop_ok srv kb lines : ∀ calls last,
  Forall chunk_complete kb → Forall chunk_complete last →
  (∃ ps, chat_loop srv calls kb last lines = Done ps
         ∧ ends_with_farewell ps ∧ (length ps ≤ S (length lines))%nat)
  ∨ (∃ error, chat_loop srv calls kb last lines = Failed (ServerError error)
              ∧ escaped srv error).
Proof.
  induction lines as [|line lines IH]; intros calls last Hkb Hlast.
  - left. exists [Said Goodbye]. split_and!; [done| |simpl; lia].
    exists []. split; [done|apply not_elem_of_nil].
  - rewrite chat_loop_cons.
    destruct (chat_turn_ok kb last line Hkb Hlast) as (last' & t & -> & Hl').
    case_decide as Ht.
    { left. exists [Said Goodbye]. split_and!; [done| |simpl; lia].
      exists []. split; [done|apply not_elem_of_nil]. }
    destruct (perform srv calls t) as [[calls' p]|f] eqn:Hp.
    + pose proof (perform_done _ _ _ _ _ Hp Ht) as Hne.
      destruct (IH calls' last' Hkb Hl')
        as [(ps & -> & (ps' & -> & Hg) & Hlen)|(error & -> & Hesc)].
      * left. exists (p :: ps' ++ [Said Goodbye]).
        split_and!; [done| |simpl in *; lia].
        exists (p :: ps'). split; [done|].
        rewrite not_elem_of_cons. split; [congruence|done].
      * right. by exists error.
    + apply perform_failed in Hp as (error & -> & Hesc).
      right. by exists error.
Qed.




End chat_facts.
